(** * Solana GitHub collector: credential pool, discovery and activity workers

    A shallow embedding of the JavaScript sources
    - [src/services/github/TokenManager.js]
    - [src/services/github/GitHubService.js]
    - [src/workers/RepositoryDiscoveryWorker.js]
    - [src/workers/DeveloperActivityWorker.js]
    - [src/services/database/DatabaseService.js]
    together with the properties the design document states about them.

    JavaScript numbers that hold integers (quota counters, epoch times,
    HTTP statuses) are [Z]; strings are [string]; arrays are [list];
    the [Set] of processed repositories is a [gset string]; [async]
    methods are state-passing functions whose result is a value, a thrown
    error, or non-termination. *)

From stdpp Require Import base gmap strings list pretty.
From Stdlib Require Import ZArith Lia.

Open Scope Z_scope.

(** ** Size ranges of the code search ([RepositoryDiscoveryWorker.generateSizeRanges]) *)

Module SizeRanges.

(** The template literal [`${lo}..${hi}`]. *)
Definition template (lo hi : Z) : string :=
  pretty lo +:+ ".." +:+ pretty hi.

Section Band.
Context {A : Type} (push : Z -> Z -> A).

(** One loop of the method,
      [while (start < limit) { ranges.push(`${start}..${start + last}`); start += stride; }],
      run for at most [fuel] iterations. [None] means the iteration budget
      was too small. *)
Fixpoint while_band (fuel : nat) (limit last stride : Z)
           (start : Z) (ranges : list A) : option (Z * list A) :=
    if start <? limit then
      match fuel with
      | O => None
      | S fuel' =>
          while_band fuel' limit last stride
                     (start + stride) (ranges ++ [push start (start + last)])
      end
    else Some (start, ranges).

(** The five loops in sequence, sharing [start] and [ranges]. *)
Definition generate (fuel : nat) : option (list A) :=
    '(start, ranges) ← while_band fuel 1000 199 150 0 [];
    '(start, ranges) ← while_band fuel 3000 499 250 start ranges;
    '(start, ranges) ← while_band fuel 5000 999 500 start ranges;
    '(start, ranges) ← while_band fuel 10000 1999 1000 start ranges;
    '(start, ranges) ← while_band fuel 15000 4999 5000 start ranges;
    Some ranges.
End Band.

(** [generateSizeRanges()] as written: a list of strings. *)
Definition generateSizeRanges (fuel : nat) : option (list string) :=
  generate template fuel.

(** The same loops pushing the numeric bounds instead of their rendering. *)
Definition sizeRangeBounds (fuel : nat) : option (list (Z * Z)) :=
  generate pair fuel.

(** How far a list of ranges reaches without a gap, starting from the
    sizes [<= reach] already covered. *)
Definition extend_reach (reach : Z) (r : Z * Z) : Z :=
  if fst r <=? reach + 1 then Z.max reach (snd r) else reach.

Definition reach_of (l : list (Z * Z)) (reach : Z) : Z :=
  fold_left extend_reach l reach.

Definition covers (l : list (Z * Z)) (s : Z) : Prop :=
  ∃ lo hi, (lo, hi) ∈ l ∧ lo <= s <= hi.

(** The list the method returns. *)
Definition expected_bounds : list (Z * Z) :=
  [ (0, 199); (150, 349); (300, 499); (450, 649); (600, 799); (750, 949);
    (900, 1099);
    (1050, 1549); (1300, 1799); (1550, 2049); (1800, 2299); (2050, 2549);
    (2300, 2799); (2550, 3049); (2800, 3299);
    (3050, 4049); (3550, 4549); (4050, 5049); (4550, 5549);
    (5050, 7049); (6050, 8049); (7050, 9049); (8050, 10049); (9050, 11049);
    (10050, 15049) ].

Definition render (r : Z * Z) : string := template (fst r) (snd r).

End SizeRanges.

(** ** Results of [async] methods *)

Module Js.

(** A thrown [Error]: the optional HTTP [status] octokit attaches, and the
    [message]. *)
Record Error : Type := mkError { status : option Z; message : string }.

(** The settlement of a promise: fulfilled, rejected, or never settled
    (within the iteration budget of the model). *)
Inductive Res (A : Type) : Type :=
| Ok (a : A)
| Throw (e : Error)
| Hang.
Arguments Ok {A} a.
Arguments Throw {A} e.
Arguments Hang {A}.

(** An [async] method over a mutable store [S]. The store is kept on every
    outcome: what was mutated before a [throw] stays mutated. *)
Definition M (S A : Type) : Type := S → Res A * S.

Definition ret {S A} (a : A) : M S A := λ st, (Ok a, st).
Definition throw {S A} (e : Error) : M S A := λ st, (Throw e, st).
Definition hang {S A} : M S A := λ st, (Hang, st).

Definition bind {S A B} (m : M S A) (k : A → M S B) : M S B :=
  λ st, match m st with
        | (Ok a, st') => k a st'
        | (Throw e, st') => (Throw e, st')
        | (Hang, st') => (Hang, st')
        end.

(** [try { m } catch (error) { handler }]. *)
Definition try_catch {S A} (m : M S A) (handler : Error → M S A) : M S A :=
  λ st, match m st with
        | (Throw e, st') => handler e st'
        | other => other
        end.

(** [try { m } finally { cleanup }] for a cleanup that only assigns. *)
Definition finally {S A} (m : M S A) (cleanup : S → S) : M S A :=
  λ st, let '(r, st') := m st in (r, cleanup st').

Definition get {S} : M S S := λ st, (Ok st, st).
Definition modify {S} (f : S → S) : M S unit := λ st, (Ok tt, f st).

(** Run a method of a component held in a field of the store. *)
Definition lift {S T A} (proj : S → T) (inj : T → S → S) (m : M T A) : M S A :=
  λ st, let '(r, t') := m (proj st) in (r, inj t' st).

(** [hay.includes(needle)]. *)
Fixpoint includes (needle hay : string) : bool :=
  if String.prefix needle hay then true
  else match hay with
       | EmptyString => false
       | String _ hay' => includes needle hay'
       end.

(** [error.status === code]. *)
Definition status_is (e : Error) (code : Z) : bool :=
  match status e with Some s => s =? code | None => false end.

(** [error.status >= lo] and [error.status < hi]; both are false when the
    error carries no status. *)
Definition status_ge (e : Error) (lo : Z) : bool :=
  match status e with Some s => lo <=? s | None => false end.
Definition status_lt (e : Error) (hi : Z) : bool :=
  match status e with Some s => s <? hi | None => false end.

(** Partial correctness of a method: from a store satisfying [P], whatever
    the outcome, outcome and final store satisfy [Q]. *)
Definition hoare {S A} (P : S → Prop) (m : M S A) (Q : Res A → S → Prop) : Prop :=
  ∀ st r st', P st → m st = (r, st') → Q r st'.

(** [I] is an invariant of the method. *)
Definition preserves {S A} (I : S → Prop) (m : M S A) : Prop :=
  hoare I m (λ _, I).

(** Reading a property of [undefined]. *)
Definition TypeError (what : string) : Error :=
  mkError None ("Cannot read properties of undefined (reading '" +:+ what +:+ "')").

End Js.

Declare Scope js_scope.
Delimit Scope js_scope with js.
Notation "'let*' x ':=' m 'in' k" := (Js.bind m (λ x, k))
  (at level 10, x pattern, m at level 100, k at level 200) : js_scope.
Notation "m ';;' k" := (Js.bind m (λ _, k))
  (at level 100, k at level 200, right associativity) : js_scope.

(** ** The credential pool ([services/github/TokenManager.js]) *)

Module TokenManager.
Import Js.

(** One quota bucket as [GET /rate_limit] reports it. [reset] is in epoch
    seconds. *)
Record RateLimit : Type := mkRateLimit { remaining : Z; reset : Z; limit : Z }.

(** The [apiType] argument: the name of a bucket. *)
Inductive ApiType : Type :=
| core | search | graphql | integration_manifest | code_search.

(** The [resources] object. A bucket may be missing from a response, which
    is what the [rateLimit &&] and [?.] guards of the source allow for. *)
Record Resources : Type := mkResources {
  r_core : option RateLimit;
  r_search : option RateLimit;
  r_graphql : option RateLimit;
  r_integration_manifest : option RateLimit;
  r_code_search : option RateLimit }.

(** [resources[apiType]]. *)
Definition bucket (r : Resources) (apiType : ApiType) : option RateLimit :=
  match apiType with
  | core => r_core r
  | search => r_search r
  | graphql => r_graphql r
  | integration_manifest => r_integration_manifest r
  | code_search => r_code_search r
  end.

(** An entry of [this.tokens]. The [octokit] client is bound to the token and
    is identified with the entry's position. *)
Record Token : Type := mkToken {
  id : nat;
  token : string;
  rateLimits : Resources;
  lastUsed : Z;
  isHealthy : bool;
  consecutiveErrors : Z }.

(** What the manager did to the outside world, oldest first. *)
Inductive Event : Type :=
| EvSleep (ms : Z)
| EvProbe (tokenIndex : nat)
| EvRequest (tokenId : nat).

(** The manager's fields, and the part of the world it acts on: the
    millisecond clock [Date.now()] reads, the number of upstream calls made so
    far, and the trace of what was done. *)
Record State : Type := mkState {
  tokens : list Token;
  currentIndex : nat;
  rotationLock : bool;
  clock : Z;
  calls : nat;
  trace : list Event }.

(** The upstream API as the manager sees it: the answer to the [n]-th call
    when it is [GET /rate_limit] for a token ([None]: the request rejects),
    and how long the [n]-th call takes. *)
Record Net : Type := mkNet {
  rate_limit_api : nat → nat → option Resources;
  latency : nat → Z }.

(** The object [getBestToken] returns (without the client). *)
Record Selection : Type := mkSelection { tokenId : nat; sel_remaining : Z }.

Definition initialRateLimits : Resources :=
  {| r_core := Some (mkRateLimit 5000 0 5000);
     r_search := Some (mkRateLimit 30 0 30);
     r_graphql := Some (mkRateLimit 5000 0 5000);
     r_integration_manifest := Some (mkRateLimit 5000 0 5000);
     r_code_search := Some (mkRateLimit 10 0 10) |}.

(** [new TokenManager(tokens)]; [None] is a missing ([undefined]) argument.
    The manager starts in the world it is given. *)
Definition constructor (tokens : option (list string))
    (clock : Z) (calls : nat) (trace : list Event) : Error + State :=
  match tokens with
  | None | Some [] => inl (mkError None "No GitHub tokens provided")
  | Some tokens =>
      inr {| tokens := imap (λ index token,
                              {| id := index; token := token;
                                 rateLimits := initialRateLimits;
                                 lastUsed := 0; isHealthy := true;
                                 consecutiveErrors := 0 |}) tokens;
             currentIndex := 0;
             rotationLock := false;
             clock := clock; calls := calls; trace := trace |}
  end.

(** Field assignments. *)
Definition set_tokens (ts : list Token) (st : State) : State :=
  mkState ts (currentIndex st) (rotationLock st) (clock st) (calls st) (trace st).
Definition set_currentIndex (i : nat) (st : State) : State :=
  mkState (tokens st) i (rotationLock st) (clock st) (calls st) (trace st).
Definition set_rotationLock (b : bool) (st : State) : State :=
  mkState (tokens st) (currentIndex st) b (clock st) (calls st) (trace st).

Definition set_rateLimits (r : Resources) (t : Token) : Token :=
  mkToken (id t) (token t) r (lastUsed t) (isHealthy t) (consecutiveErrors t).
Definition set_lastUsed (now : Z) (t : Token) : Token :=
  mkToken (id t) (token t) (rateLimits t) now (isHealthy t) (consecutiveErrors t).
Definition set_isHealthy (b : bool) (t : Token) : Token :=
  mkToken (id t) (token t) (rateLimits t) (lastUsed t) b (consecutiveErrors t).
Definition set_consecutiveErrors (n : Z) (t : Token) : Token :=
  mkToken (id t) (token t) (rateLimits t) (lastUsed t) (isHealthy t) n.

(** Mutating the token object at [index] in place. *)
Definition update_token (index : nat) (f : Token → Token) (st : State) : State :=
  set_tokens (alter f index (tokens st)) st.

(** [sleep(ms)]: the timer fires after [ms] milliseconds. *)
Definition sleep (ms : Z) : M State unit :=
  modify (λ st, mkState (tokens st) (currentIndex st) (rotationLock st)
                        (clock st + ms) (calls st) (trace st ++ [EvSleep ms])).

(** One upstream call: it is recorded, counted, and takes its latency. *)
Definition upstream_call (ev : Event) (net : Net) (st : State) : State :=
  mkState (tokens st) (currentIndex st) (rotationLock st)
          (clock st + latency net (calls st)) (S (calls st)) (trace st ++ [ev]).

Section Methods.
Context (net : Net).

(** The [catch] block of [updateRateLimits]. *)
Definition note_probe_failure (tokenIndex : nat) : State → State :=
  update_token tokenIndex (λ t,
    let t := set_consecutiveErrors (consecutiveErrors t + 1) t in
    if 3 <=? consecutiveErrors t then set_isHealthy false t else t).

(** The arguments of the [logger.debug] call in [updateRateLimits] read
    [.remaining] of these three buckets. *)
Definition debug_fields_present (r : Resources) : bool :=
  bool_decide (is_Some (r_core r)) && bool_decide (is_Some (r_search r))
  && bool_decide (is_Some (r_code_search r)).

(** [updateRateLimits(tokenIndex)]. It resolves to the fresh [resources], or
    to [null] when the probe (or the logging after it) failed. *)
Definition updateRateLimits (tokenIndex : nat) : M State (option Resources) :=
  λ st,
    match tokens st !! tokenIndex with
    | None => (Throw (TypeError "consecutiveErrors"), st)
    | Some _ =>
        let st1 := upstream_call (EvProbe tokenIndex) net st in
        match rate_limit_api net (calls st) tokenIndex with
        | Some resources =>
            let st2 := update_token tokenIndex (λ t,
                         set_consecutiveErrors 0
                           (set_isHealthy true (set_rateLimits resources t))) st1 in
            if debug_fields_present resources
            then (Ok (Some resources), st2)
            else (Ok None, note_probe_failure tokenIndex st2)
        | None => (Ok None, note_probe_failure tokenIndex st1)
        end
    end.

(** [token.lastUsed = now; this.currentIndex = (index + 1) % this.tokens.length;
     return { octokit, tokenId: index, remaining }]. *)
Definition select (index : nat) (now : Z) (remaining : Z) : M State Selection :=
  (modify (λ st,
     set_currentIndex ((index + 1) mod length (tokens st))
                      (update_token index (set_lastUsed now) st));;
   ret (mkSelection index remaining))%js.

(** [if (now - token.lastUsed > 60000) { await this.updateRateLimits(index); }] *)
Definition refresh_if_stale (index : nat) (now lastUsed : Z) : M State unit :=
  if 60000 <? now - lastUsed
  then (updateRateLimits index;; ret tt)%js
  else ret tt.

(** The rest of the loop body, from [const rateLimit = token.rateLimits[apiType]]
    on: [Some] is an early [return], [None] falls through to the next [i].
    [rateLimit] is the bucket object read before the second probe; the
    probe replaces [token.rateLimits], so the second test reads it again. *)
Definition check_quota (apiType : ApiType) (index : nat) (now : Z)
    : M State (option Selection) :=
  (let* st1 := get in
   let rateLimit := tokens st1 !! index ≫= λ t, bucket (rateLimits t) apiType in
   match rateLimit with
   | Some rl =>
       if 0 <? remaining rl
       then (let* s := select index now (remaining rl) in ret (Some s))
       else if reset rl * 1000 <? now
       then
         updateRateLimits index;;
         let* st2 := get in
         match tokens st2 !! index ≫= λ t, bucket (rateLimits t) apiType with
         | None => throw (TypeError "remaining")
         | Some rl2 =>
             if 0 <? remaining rl2
             then (let* s := select index now (remaining rl2) in ret (Some s))
             else ret None
         end
       else ret None
   | None => ret None
   end)%js.

(** The body of the [for] loop of [getBestToken] for one value of [i]. *)
Definition scan_step (apiType : ApiType) (i : nat) : M State (option Selection) :=
  (let* st := get in
   let index := ((currentIndex st + i) mod length (tokens st))%nat in
   match tokens st !! index with
   | None => throw (TypeError "isHealthy")
   | Some token =>
       if negb (isHealthy token) then ret None
       else
         let now := clock st in
         refresh_if_stale index now (lastUsed token);;
         check_quota apiType index now
   end)%js.

(** [for (let i = 0; i < this.tokens.length; i++) { ... }], over the values
    of [i] still to visit. *)
Fixpoint scan (apiType : ApiType) (todo : list nat) : M State (option Selection) :=
  match todo with
  | [] => ret None
  | i :: todo' =>
      (let* found := scan_step apiType i in
       match found with
       | Some s => ret (Some s)
       | None => scan apiType todo'
       end)%js
  end.

(** [t.rateLimits[apiType]?.reset * 1000 || Date.now()]. *)
Definition resetTime_of (apiType : ApiType) (now : Z) (t : Token) : Z :=
  match bucket (rateLimits t) apiType with
  | Some rl => if reset rl * 1000 =? 0 then now else reset rl * 1000
  | None => now
  end.

(** [Array.prototype.sort] with the comparator [a.resetTime - b.resetTime]:
    a stable sort by ascending [resetTime]. *)
Fixpoint insert_sorted (x : nat * Z) (l : list (nat * Z)) : list (nat * Z) :=
  match l with
  | [] => [x]
  | y :: l' => if snd x <=? snd y then x :: l else y :: insert_sorted x l'
  end.

Definition sort_by_resetTime (l : list (nat * Z)) : list (nat * Z) :=
  foldr insert_sorted [] l.

(** [this.tokens.filter(t => t.isHealthy).map((t, idx) => ({ index: idx,
     resetTime: ... })).sort(...)]. The [idx] of [map] is the position in the
    filtered array. *)
Definition resetTimes (apiType : ApiType) (st : State) : list (nat * Z) :=
  sort_by_resetTime
    (imap (λ idx t, (idx, resetTime_of apiType (clock st) t))
          (filter (λ t, isHealthy t = true) (tokens st))).

(** The part of [getBestToken] after the loop: wait for the soonest reset. *)
Definition wait_for_reset (apiType : ApiType) : M State Selection :=
  (let* st := get in
   match resetTimes apiType st with
   | [] => throw (mkError None "No healthy tokens available")
   | soonestReset :: _ =>
       let waitTime := Z.max 0 (snd soonestReset - clock st) + 1000 in
       sleep waitTime;;
       updateRateLimits (fst soonestReset);;
       let* st1 := get in
       modify (update_token (fst soonestReset) (set_lastUsed (clock st1)));;
       let* st2 := get in
       match tokens st2 !! fst soonestReset ≫= λ t, bucket (rateLimits t) apiType with
       | None => throw (TypeError "remaining")
       | Some rl => ret (mkSelection (fst soonestReset) (remaining rl))
       end
   end)%js.

(** [getBestToken(apiType)]. With a single caller nobody releases a lock
    that is held on entry, so the [while (this.rotationLock)] loop never
    ends in that case. *)
Definition getBestToken (apiType : ApiType) : M State Selection :=
  λ st,
    if rotationLock st then (Hang, st)
    else
      finally
        (let* found := scan apiType (seq 0 (length (tokens st))) in
         match found with
         | Some s => ret s
         | None => wait_for_reset apiType
         end)%js
        (set_rotationLock false)
        (set_rotationLock true st).

Section Execute.
Context {A : Type}.
(** [requestFn(octokit)]: the outcome of the [n]-th upstream call when it is
    this request made with the client of token [tokenId]. *)
Context (requestFn : nat → nat → Res A).

Definition call_requestFn (tokenId : nat) : M State A :=
  λ st, (requestFn (calls st) tokenId, upstream_call (EvRequest tokenId) net st).

(** The [try] block of [execute]. *)
Definition attempt_body (apiType : ApiType) : M State A :=
  (let* sel := getBestToken apiType in
   let* result := call_requestFn (tokenId sel) in
   updateRateLimits (tokenId sel);;
   ret result)%js.

(** [new Error('All token rotation attempts failed')]. *)
Definition generic_error : Error :=
  mkError None "All token rotation attempts failed".

(** What the [catch] block of [execute] decides for a caught [error]:
    [continue], [await this.sleep(ms); continue], or [throw error]. The tests
    are tried in the order of the source. *)
Inductive Verdict : Type :=
| Continue
| ContinueAfter (ms : Z)
| Rethrow.

Definition classify (attempt : Z) (error : Error) : Verdict :=
  if status_is error 403 && includes "rate limit" (message error)
  then Continue
  else if status_is error 403 && includes "secondary rate limit" (message error)
  then ContinueAfter 60000
  else if status_ge error 400 && status_lt error 500
  then Rethrow
  else if status_ge error 500
  then ContinueAfter (2000 * (attempt + 1))
  else Rethrow.

(** The [for] loop of [execute] with [n = maxRetries - attempt] iterations
    left, followed by the final [throw lastError || new Error(...)]. *)
Fixpoint attempts (apiType : ApiType) (n : nat) (attempt : Z)
         (lastError : option Error) : M State A :=
  match n with
  | O => throw (default generic_error lastError)
  | S n' =>
      try_catch (attempt_body apiType) (λ error,
        let continue := attempts apiType n' (attempt + 1) (Some error) in
        match classify attempt error with
        | Continue => continue
        | ContinueAfter ms => (sleep ms;; continue)%js
        | Rethrow => throw error
        end)
  end.

(** The state in which the next iteration starts after a caught error. *)
Definition resume (v : Verdict) (st : State) : State :=
  match v with
  | ContinueAfter ms => snd (sleep ms st)
  | _ => st
  end.

(** [retried apiType n attempt st errors st']: from [st], [n] iterations in a
    row, numbered from [attempt], ended in the [catch] block with the errors
    [errors] (oldest first) and went on to the next iteration, leaving [st']. *)
Inductive retried (apiType : ApiType)
  : nat → Z → State → list Error → State → Prop :=
| retried_none attempt st :
    retried apiType 0 attempt st [] st
| retried_again n attempt st error st1 errors st' :
    attempt_body apiType st = (Throw error, st1) →
    classify attempt error ≠ Rethrow →
    retried apiType n (attempt + 1) (resume (classify attempt error) st1) errors st' →
    retried apiType (S n) attempt st (error :: errors) st'.

(** [execute(apiType, requestFn)]. *)
Definition execute (apiType : ApiType) : M State A :=
  λ st, attempts apiType (length (tokens st)) 0 None st.

End Execute.
End Methods.

(** *** Vocabulary for the properties of the pool *)

(** The quota bucket of the returned token justifies returning it. *)
Definition has_quota (apiType : ApiType) (sel : Selection) (st : State) : Prop :=
  ∃ t rl, tokens st !! tokenId sel = Some t ∧
          bucket (rateLimits t) apiType = Some rl ∧
          0 < remaining rl ∧ sel_remaining sel = remaining rl.

Definition healthy_at (j : nat) (st : State) : Prop :=
  ∃ t, tokens st !! j = Some t ∧ isHealthy t = true.

Definition is_sleep (ev : Event) : bool :=
  match ev with EvSleep _ => true | _ => false end.

Definition is_request (ev : Event) : bool :=
  match ev with EvRequest _ => true | _ => false end.

(** What was done between two states of the same run. *)
Definition events_since (st st' : State) : list Event :=
  drop (length (trace st)) (trace st').

(** Whether the manager slept between the two states. The all-exhausted
    path of [getBestToken] is the only one that sleeps. *)
Definition slept_since (st st' : State) : bool :=
  existsb is_sleep (events_since st st').

(** How many times [requestFn] was invoked between the two states. *)
Definition count_requests (evs : list Event) : nat :=
  length (filter (λ ev, is_request ev = true) evs).

Definition requests_since (st st' : State) : nat :=
  count_requests (events_since st st').

(** [st'] continues the trace of [st] with at most [k] invocations of
    [requestFn]. *)
Definition at_most_requests (k : nat) (st st' : State) : Prop :=
  ∃ evs, trace st' = trace st ++ evs ∧ (count_requests evs <= k)%nat.

(** [st'] continues the trace of [st] by events none of which satisfies [p]. *)
Definition silent (p : Event → bool) (st st' : State) : Prop :=
  ∃ evs, trace st' = trace st ++ evs ∧ existsb p evs = false.

End TokenManager.

(** ** The API wrapper ([services/github/GitHubService.js]) *)

Module GitHubService.
Import Js TokenManager.

(** An octokit response. *)
Record Response (A : Type) : Type := mkResponse { resp_status : Z; data : A }.
Arguments mkResponse {A} resp_status data.
Arguments resp_status {A} r.
Arguments data {A} r.

(** [GET /repos/{owner}/{repo}]: the fields the collector reads.
    [created_at] is the value of [new Date(created_at).getTime()]. *)
Record RepoDetails : Type := mkRepoDetails {
  rd_created_at : Z;
  rd_open_issues_count : option Z;
  rd_stargazers_count : option Z }.

(** A weekly entry of [GET /repos/{owner}/{repo}/stats/contributors]:
    week start (epoch seconds), additions, deletions, commits. *)
Record Week : Type := mkWeek { w : Z; a : Z; d : Z; c : Z }.

Record Contribution : Type := mkContribution {
  author : option string;      (* [contribution.author.login] *)
  weeks : list Week }.

(** [GET /users/{username}]. *)
Record UserInfo : Type := mkUserInfo {
  u_name : option string;
  u_html_url : option string;
  u_avatar_url : option string;
  u_location : option string;
  u_twitter_username : option string }.

(** The [repository] object of a code search item. [id = 0] and [name = ""]
    are the falsy values the worker tests for. *)
Record Repository : Type := mkRepository {
  repo_id : Z;
  repo_name : string;
  repo_html_url : string;
  repo_owner_login : string }.

Record CodeItem : Type := mkCodeItem { repository : option Repository }.

(** An item of [GET /search/repositories]. *)
Record RepoItem : Type := mkRepoItem {
  ri_id : Z;
  ri_name : string;
  ri_html_url : string;
  ri_owner_login : string;
  ri_created_at : Z;
  ri_open_issues_count : option Z;
  ri_stargazers_count : option Z }.

Record SearchData (A : Type) : Type := mkSearchData {
  items : option (list A);
  total_count : option Z;
  incomplete_results : option bool }.
Arguments mkSearchData {A} items total_count incomplete_results.
Arguments items {A} s.
Arguments total_count {A} s.
Arguments incomplete_results {A} s.

(** What [searchCode] and [searchRepositories] return. *)
Record SearchResult (A : Type) : Type := mkSearchResult {
  sr_items : list A;
  sr_totalCount : Z;
  sr_incomplete : bool }.
Arguments mkSearchResult {A} sr_items sr_totalCount sr_incomplete.
Arguments sr_items {A} s.

(** The upstream API: the rate-limit endpoint and clock of [Net], and for
    every route the outcome of the [n]-th upstream call when it is that
    request made with the client of token [tokenId]. [date_string now days]
    is the [YYYY-MM-DD] date [days] days before [now]. *)
Record Upstream : Type := mkUpstream {
  net : Net;
  search_code_api : string → Z → Z → nat → nat → Res (Response (SearchData CodeItem));
  search_repos_api : string → Z → Z → nat → nat → Res (Response (SearchData RepoItem));
  repo_api : string → string → nat → nat → Res (Response (option RepoDetails));
  stats_api : string → string → nat → nat → Res (Response (option (list Contribution)));
  user_api : string → nat → nat → Res (Response (option UserInfo));
  date_string : Z → Z → string }.

(** [new GitHubService()], reading [config.github.tokens]. *)
Definition constructor (config_github_tokens : list string)
    (clock : Z) (calls : nat) (trace : list Event) : Error + State :=
  if bool_decide (length config_github_tokens = 0%nat)
  then inl (mkError None "No GitHub tokens configured")
  else TokenManager.constructor (Some config_github_tokens) clock calls trace.

(** A string is truthy when it is present and not empty. *)
Definition truthy (o : option string) : option string :=
  match o with
  | Some EmptyString => None
  | other => other
  end.

(** [if (v) query += `${query ? '+' : ''}label${v}`]. *)
Definition add_term (label : string) (v : option string) (query : string) : string :=
  match truthy v with
  | Some x =>
      query +:+ (if bool_decide (query = "") then "" else "+") +:+ label +:+ x
  | None => query
  end.

(** [if (v) query += ` label${v}`]. *)
Definition add_qualifier (label : string) (v : option string) (query : string) : string :=
  match truthy v with
  | Some x => query +:+ " " +:+ label +:+ x
  | None => query
  end.

Section Methods.
Context (up : Upstream).

(** [this.tokenManager.execute(apiType, requestFn)]. *)
Definition execute {A} (apiType : ApiType) (requestFn : nat → nat → Res A)
    : M State A :=
  TokenManager.execute (net up) requestFn apiType.

(** [searchCode({ filename, extension, keyword, sizeRange, inLocation, perPage, page })].
    The [catch] block logs and rethrows. *)
Definition searchCode (filename extension keyword sizeRange inLocation : option string)
    (perPage page : Z) : M State (SearchResult CodeItem) :=
  let query :=
    add_term "in:" inLocation
      (add_term "size:" sizeRange
         (add_term "" keyword
            (add_term "extension:" extension
               (add_term "filename:" filename "")))) in
  try_catch
    (let* response := execute code_search (search_code_api up query perPage page) in
     ret (mkSearchResult (default [] (items (data response)))
                         (default 0 (total_count (data response)))
                         (default false (incomplete_results (data response)))))%js
    throw.

(** [searchRepositories({ keywords, language, stars, pushed, perPage, page })]. *)
Definition searchRepositories (keywords : string) (language stars pushed : option string)
    (perPage page : Z) : M State (SearchResult RepoItem) :=
  let query :=
    add_qualifier "pushed:" pushed
      (add_qualifier "stars:" stars
         (add_qualifier "language:" language keywords)) in
  try_catch
    (let* response := execute search (search_repos_api up query perPage page) in
     ret (mkSearchResult (default [] (items (data response)))
                         (default 0 (total_count (data response)))
                         (default false (incomplete_results (data response)))))%js
    throw.

(** [getRepository({ owner, repo })]: [null] on a 404. *)
Definition getRepository (owner repo : string) : M State (option RepoDetails) :=
  try_catch
    (let* response := execute core (repo_api up owner repo) in
     ret (data response))%js
    (λ error, if status_is error 404 then ret None else throw error).

(** [this.sleep(ms)] of the service. *)
Definition sleep (ms : Z) : M State unit := TokenManager.sleep ms.

(** [getContributorsActivity({ owner, repo })]. [null] is [None]. The method
    calls itself again after a 202; [fuel] bounds the depth of that
    recursion, and [Hang] is the outcome when the bound does not suffice. *)
Fixpoint getContributorsActivity (fuel : nat) (owner repo : string)
    : M State (option (list Contribution)) :=
  match fuel with
  | O => hang
  | S fuel' =>
      try_catch
        (let* response := execute core (stats_api up owner repo) in
         if resp_status response =? 202
         then (sleep 2000;; getContributorsActivity fuel' owner repo)
         else ret (Some (default [] (data response))))%js
        (λ error, if status_is error 404 then ret None else throw error)
  end.

(** [getUser({ username })]: [null] on a 404. *)
Definition getUser (username : string) : M State (option UserInfo) :=
  try_catch
    (let* response := execute core (user_api up username) in
     ret (data response))%js
    (λ error, if status_is error 404 then ret None else throw error).

(** [getTrendingRepositories({ language, days, perPage })]. *)
Definition getTrendingRepositories (language : option string) (days perPage : Z)
    : M State (SearchResult RepoItem) :=
  (let* st := get in
   let dateString := date_string up (clock st) days in
   searchRepositories "solana" language (Some ">=10") (Some (">=" +:+ dateString))
                      perPage 1)%js.

(** [polled owner repo k st st']: starting in [st], the stats request was
    answered 202 [k] times in a row, each answer followed by the 2 s wait,
    and the service is now in [st']. *)
Inductive polled (owner repo : string) : nat → State → State → Prop :=
| polled_zero st :
    polled owner repo 0 st st
| polled_again k st response st1 st' :
    execute core (stats_api up owner repo) st = (Ok response, st1) →
    resp_status response = 202 →
    polled owner repo k (snd (sleep 2000 st1)) st' →
    polled owner repo (S k) st st'.

End Methods.
End GitHubService.

(** ** Storage ([services/database/DatabaseService.js] over the Sequelize models) *)

Module DatabaseService.
Import Js.

(** The attributes of a [SolanaGithubRepos] row that the workers write. *)
Record RepoData : Type := mkRepoData {
  repoId : string;
  name : string;
  url : string;
  owner : string;
  started : Z;
  ecosystem : string;
  isClosedSource : bool;
  issuesAndPrs : Z;
  stars : Z }.

(** A stored row: the auto-increment [id] and the attributes. Rows are kept
    in insertion order, which is the order of [createdAt]. *)
Record RepoRow : Type := mkRepoRow { row_id : Z; row : RepoData }.

Record DeveloperData : Type := mkDeveloperData {
  username : string;
  dev_name : option string;
  gitUrl : option string;
  avatar : option string;
  location : option string;
  twitter : option string }.

Record DeveloperRow : Type := mkDeveloperRow { dev_id : Z; dev : DeveloperData }.

Record ActivityData : Type := mkActivityData {
  commits : Z;
  additions : Z;
  deletions : Z;
  date : Z;
  developerId : Z;
  repositoryId : Z }.

Record RepoTypeData : Type := mkRepoTypeData { rt_repoId : string; rt_type : string }.

(** The tables, and the number of statements run so far. *)
Record DB : Type := mkDB {
  repos : list RepoRow;
  developers : list DeveloperRow;
  activities : list ActivityData;
  repoTypes : list RepoTypeData;
  statements : nat }.

Definition set_repos (l : list RepoRow) (db : DB) : DB :=
  mkDB l (developers db) (activities db) (repoTypes db) (statements db).
Definition set_developers (l : list DeveloperRow) (db : DB) : DB :=
  mkDB (repos db) l (activities db) (repoTypes db) (statements db).
Definition set_activities (l : list ActivityData) (db : DB) : DB :=
  mkDB (repos db) (developers db) l (repoTypes db) (statements db).
Definition set_repoTypes (l : list RepoTypeData) (db : DB) : DB :=
  mkDB (repos db) (developers db) (activities db) l (statements db).

Section Methods.
(** [db_error n]: the error with which the [n]-th statement fails, if it
    does. A failed statement changes no table. *)
Context (db_error : nat → option Error).

Definition statement {A} (f : DB → A * DB) : M DB A :=
  λ db,
    let counted := mkDB (repos db) (developers db) (activities db) (repoTypes db)
                        (S (statements db)) in
    match db_error (statements db) with
    | Some e => (Throw e, counted)
    | None => let '(a, db') := f counted in (Ok a, db')
    end.

(** [INSERT ... ON CONFLICT DO NOTHING] of one row, [repoId] being unique. *)
Definition insert_repo_ignore (l : list RepoRow) (r : RepoData) : list RepoRow :=
  if existsb (λ x, bool_decide (repoId (row x) = repoId r)) l
  then l
  else l ++ [mkRepoRow (Z.of_nat (length l) + 1) r].

(** The unique constraint on [repoId]. *)
Definition unique_repoIds (l : list RepoRow) : Prop :=
  NoDup ((λ x, repoId (row x)) <$> l).

(** [bulkCreateRepositories(reposData)]:
    [bulkCreate(reposData, { ignoreDuplicates: true })]. *)
Definition bulkCreateRepositories (reposData : list RepoData) : M DB unit :=
  statement (λ db, (tt, set_repos (fold_left insert_repo_ignore reposData (repos db)) db)).

Definition insert_repoType_ignore (l : list RepoTypeData) (r : RepoTypeData)
    : list RepoTypeData :=
  if existsb (λ x, bool_decide (rt_repoId x = rt_repoId r ∧ rt_type x = rt_type r)) l
  then l else l ++ [r].

(** [bulkCreateRepoTypes(repoTypesData)]. *)
Definition bulkCreateRepoTypes (repoTypesData : list RepoTypeData) : M DB unit :=
  statement (λ db,
    (tt, set_repoTypes (fold_left insert_repoType_ignore repoTypesData (repoTypes db)) db)).

Definition insert_activity_ignore (l : list ActivityData) (r : ActivityData)
    : list ActivityData :=
  if existsb (λ x, bool_decide (repositoryId x = repositoryId r ∧
                                developerId x = developerId r ∧ date x = date r)) l
  then l else l ++ [r].

(** [bulkCreateActivities(activitiesData)]. *)
Definition bulkCreateActivities (activitiesData : list ActivityData) : M DB unit :=
  statement (λ db,
    (tt, set_activities (fold_left insert_activity_ignore activitiesData (activities db)) db)).

(** [repositoryExists(repoId)]. *)
Definition repositoryExists (id : string) : M DB bool :=
  statement (λ db, (existsb (λ x, bool_decide (repoId (row x) = id)) (repos db), db)).

(** [getDeveloper(username)]. *)
Definition getDeveloper (user : string) : M DB (option DeveloperRow) :=
  statement (λ db,
    (head (filter (λ x, username (dev x) = user) (developers db)), db)).

(** [upsertDeveloper(developerData)], [username] being unique. *)
Definition upsertDeveloper (developerData : DeveloperData) : M DB (option DeveloperRow) :=
  statement (λ db,
    match head (filter (λ x, username (dev x) = username developerData) (developers db)) with
    | Some old =>
        let updated := mkDeveloperRow (dev_id old) developerData in
        (Some updated,
         set_developers
           (map (λ x, if bool_decide (username (dev x) = username developerData)
                      then updated else x) (developers db)) db)
    | None =>
        let created := mkDeveloperRow (Z.of_nat (length (developers db)) + 1) developerData in
        (Some created, set_developers (developers db ++ [created]) db)
    end).

Definition close_source (r : RepoData) : RepoData :=
  mkRepoData (repoId r) (name r) (url r) (owner r) (started r) (ecosystem r)
             true (issuesAndPrs r) (stars r).

(** [markRepositoryClosedSource(repoId)]. *)
Definition markRepositoryClosedSource (id : string) : M DB unit :=
  statement (λ db,
    (tt, set_repos
           (map (λ x, if bool_decide (repoId (row x) = id)
                      then mkRepoRow (row_id x) (close_source (row x)) else x)
                (repos db)) db)).

(** [getRepositoriesForProcessing({ ecosystem, limit, offset, orderBy: 'createdAt' })]:
    newest first. *)
Definition getRepositoriesForProcessing (eco : string) (limit offset : nat)
    : M DB (list RepoRow) :=
  statement (λ db,
    (take limit (drop offset
       (reverse (filter (λ x, ecosystem (row x) = eco) (repos db)))), db)).

(** [getRepositoriesWithoutActivities(limit)]: open-source rows that no
    activity row refers to, newest first. *)
Definition getRepositoriesWithoutActivities (limit : nat) : M DB (list RepoRow) :=
  statement (λ db,
    (take limit
       (reverse
          (filter (λ x, isClosedSource (row x) = false ∧
                        ¬ Exists (λ act, repositoryId act = row_id x) (activities db))
                  (repos db))), db)).

End Methods.
End DatabaseService.

(** ** Configuration ([config/index.js]) and the environment of the workers *)

Module Config.

(** An entry of [config.solanaSearchQueries]. *)
Record Query : Type := mkQuery {
  filename : option string;
  extension : option string;
  keyword : option string;
  type : option string }.

Record Config : Type := mkConfig {
  solanaSearchQueries : list Query;
  repositorySearchKeywords : list string;
  ecosystem : string;
  developerFetch_batchSize : nat }.

(** Everything outside the process: the upstream API, the failures of the
    database, the configuration. *)
Record Env : Type := mkEnv {
  up : GitHubService.Upstream;
  db_error : nat → option Js.Error;
  config : Config }.

End Config.

(** ** Activity collection ([workers/DeveloperActivityWorker.js]) *)

Module DeveloperActivityWorker.
Import Js GitHubService DatabaseService Config.

(** The fields of the worker. The service objects are held by value: the
    pool of [githubService.tokenManager] with the world it acts on, and the
    tables behind [dbService]. *)
Record State : Type := mkState {
  githubService : TokenManager.State;
  dbService : DB;
  isRunning : bool }.

Definition set_githubService (g : TokenManager.State) (st : State) : State :=
  mkState g (dbService st) (isRunning st).
Definition set_dbService (d : DB) (st : State) : State :=
  mkState (githubService st) d (isRunning st).
Definition set_isRunning (b : bool) (st : State) : State :=
  mkState (githubService st) (dbService st) b.

(** [new DeveloperActivityWorker()]. *)
Definition constructor (config_github_tokens : list string)
    (clock : Z) (calls : nat) (trace : list TokenManager.Event) (db : DB)
    : Error + State :=
  match GitHubService.constructor config_github_tokens clock calls trace with
  | inl e => inl e
  | inr g => inr (mkState g db false)
  end.

(** Calls into the two services. *)
Definition gh {A} (m : M TokenManager.State A) : M State A :=
  lift githubService set_githubService m.
Definition dbs {A} (m : M DB A) : M State A :=
  lift dbService set_dbService m.

(** [const week = 60 * 60 * 24 * 7; const referenceTime = currentTime - (week * 26)]
    with [currentTime = Math.floor(Date.now() / 1000)]. *)
Definition referenceTime_at (now : Z) : Z :=
  let currentTime := now / 1000 in
  let week := 60 * 60 * 24 * 7 in
  currentTime - week * 26.

(** [contribution.weeks.filter((item) => item.c !== 0 && item.w > referenceTime)]. *)
Definition recent_activities (referenceTime : Z) (weeks : list Week) : list Week :=
  filter (λ item, c item ≠ 0 ∧ w item > referenceTime) weeks.

Section Methods.
Context (env : Env).
(** The depth allowed to the 202 polling of [getContributorsActivity]. *)
Context (fuel : nat).

(** [processContributor(contribution, repositoryId, referenceTime)]. In the
    two intermediate results [None] stands for an early [return]. *)
Definition processContributor (contribution : Contribution) (repositoryId : Z)
    (referenceTime : Z) : M State unit :=
  match truthy (author contribution) with
  | None => ret tt
  | Some username =>
      let activities := recent_activities referenceTime (weeks contribution) in
      if bool_decide (length activities = 0%nat) then ret tt
      else
        (let* developer := dbs (getDeveloper (db_error env) username) in
         let* created :=
           match developer return M State (option (option DeveloperRow)) with
           | Some found => ret (Some (Some found))
           | None =>
               try_catch
                 (let* userInfo := gh (getUser (up env) username) in
                  match userInfo return M State (option (option DeveloperRow)) with
                  | None => ret None
                  | Some userInfo =>
                      let* developer :=
                        dbs (upsertDeveloper (db_error env)
                               (mkDeveloperData username (u_name userInfo)
                                  (u_html_url userInfo) (u_avatar_url userInfo)
                                  (u_location userInfo) (u_twitter_username userInfo))) in
                      ret (Some developer)
                  end)
                 (λ error, ret None)
           end in
         match created with
         | None => ret tt
         | Some developer =>
             let* ensured :=
               match developer return M State (option DeveloperRow) with
               | Some found => ret (Some found)
               | None => dbs (getDeveloper (db_error env) username)
               end in
             match ensured with
             | None => ret tt
             | Some developer =>
                 let activitiesData :=
                   map (λ activity,
                          mkActivityData (c activity) (a activity) (d activity)
                                         (w activity) (dev_id developer) repositoryId)
                       activities in
                 if bool_decide (0 < length activitiesData)%nat
                 then try_catch
                        (dbs (bulkCreateActivities (db_error env) activitiesData))
                        (λ error, ret tt)
                 else ret tt
             end
         end)%js
  end.

(** The loop over [contributorsData] in [processRepository]: a failing
    contributor is logged and skipped. *)
Fixpoint process_contributors (contributorsData : list Contribution)
    (repositoryId referenceTime : Z) : M State unit :=
  match contributorsData with
  | [] => ret tt
  | contribution :: rest =>
      (try_catch (processContributor contribution repositoryId referenceTime)
                 (λ error, ret tt);;
       process_contributors rest repositoryId referenceTime)%js
  end.

(** [processRepository(repo, referenceTime)]. Its outer [catch] rethrows. *)
Definition processRepository (repo : RepoRow) (referenceTime : Z) : M State unit :=
  try_catch
    (let* contributorsData :=
       gh (getContributorsActivity (up env) fuel (owner (row repo)) (name (row repo))) in
     match contributorsData with
     | None | Some [] => ret tt
     | Some contributorsData =>
         process_contributors contributorsData (row_id repo) referenceTime
     end)%js
    throw.

(** The loop of [processBatch] with its two counters. *)
Fixpoint process_repos (repos : list RepoRow) (referenceTime : Z)
    (processedCount errorCount : Z) : M State (Z * Z) :=
  match repos with
  | [] => ret (processedCount, errorCount)
  | repo :: rest =>
      (let* counts :=
         try_catch
           (processRepository repo referenceTime;;
            ret (processedCount + 1, errorCount))
           (λ error,
              (if status_is error 404
               then dbs (markRepositoryClosedSource (db_error env) (repoId (row repo)))
               else ret tt);;
              ret (processedCount, errorCount + 1)) in
       process_repos rest referenceTime (fst counts) (snd counts))%js
  end.

(** [processBatch(repos)], returning [{ processedCount, errorCount }]. *)
Definition processBatch (repos : list RepoRow) : M State (Z * Z) :=
  (let* st := get in
   let referenceTime := referenceTime_at (TokenManager.clock (githubService st)) in
   process_repos repos referenceTime 0 0)%js.

(** [this.sleep(ms)] of the worker. *)
Definition sleep (ms : Z) : M State unit := gh (TokenManager.sleep ms).

(** The [while (hasMore)] loop of [run], for at most [rounds] batches. *)
Fixpoint run_loop (rounds : nat) (offset : nat) (totalProcessed totalErrors : Z)
    : M State unit :=
  match rounds with
  | O => hang
  | S rounds' =>
      (let batchSize := developerFetch_batchSize (config env) in
       let* repos :=
         dbs (getRepositoriesForProcessing (db_error env) (ecosystem (config env))
                                           batchSize offset) in
       if bool_decide (length repos = 0%nat) then ret tt
       else
         let* counts := processBatch repos in
         sleep 5000;;
         run_loop rounds' (offset + batchSize)
                  (totalProcessed + fst counts) (totalErrors + snd counts))%js
  end.

(** [run()]. *)
Definition run (rounds : nat) : M State unit :=
  λ st,
    if isRunning st then (Ok tt, st)
    else
      finally
        (try_catch (run_loop rounds 0 0 0) (λ error, ret tt))
        (set_isRunning false)
        (set_isRunning true st).

(** The [while (hasMore)] loop of [runBackfill]. *)
Fixpoint backfill_loop (rounds : nat) (totalProcessed totalErrors : Z)
    : M State unit :=
  match rounds with
  | O => hang
  | S rounds' =>
      (let batchSize := developerFetch_batchSize (config env) in
       let* repos := dbs (getRepositoriesWithoutActivities (db_error env) batchSize) in
       if bool_decide (length repos = 0%nat) then ret tt
       else
         let* counts := processBatch repos in
         sleep 5000;;
         backfill_loop rounds' (totalProcessed + fst counts) (totalErrors + snd counts))%js
  end.

(** [runBackfill()]. *)
Definition runBackfill (rounds : nat) : M State unit :=
  λ st,
    if isRunning st then (Ok tt, st)
    else
      finally
        (try_catch (backfill_loop rounds 0 0) (λ error, ret tt))
        (set_isRunning false)
        (set_isRunning true st).

End Methods.
End DeveloperActivityWorker.

(** ** Repository discovery ([workers/RepositoryDiscoveryWorker.js]) *)

Module RepositoryDiscoveryWorker.
Import Js GitHubService DatabaseService Config.

(** The fields of the worker; [processedRepos] is the [Set] of
    ["owner/name"] keys created once in the constructor. *)
Record State : Type := mkState {
  githubService : TokenManager.State;
  dbService : DB;
  isRunning : bool;
  processedRepos : gset string }.

Definition set_githubService (g : TokenManager.State) (st : State) : State :=
  mkState g (dbService st) (isRunning st) (processedRepos st).
Definition set_dbService (d : DB) (st : State) : State :=
  mkState (githubService st) d (isRunning st) (processedRepos st).
Definition set_isRunning (b : bool) (st : State) : State :=
  mkState (githubService st) (dbService st) b (processedRepos st).
Definition add_processedRepo (repoKey : string) (st : State) : State :=
  mkState (githubService st) (dbService st) (isRunning st)
          ({[repoKey]} ∪ processedRepos st).

(** [new RepositoryDiscoveryWorker()]. *)
Definition constructor (config_github_tokens : list string)
    (clock : Z) (calls : nat) (trace : list TokenManager.Event) (db : DB)
    : Error + State :=
  match GitHubService.constructor config_github_tokens clock calls trace with
  | inl e => inl e
  | inr g => inr (mkState g db false ∅)
  end.

Definition gh {A} (m : M TokenManager.State A) : M State A :=
  lift githubService set_githubService m.
Definition dbs {A} (m : M DB A) : M State A :=
  lift dbService set_dbService m.

(** [`${owner}/${name}`]. *)
Definition repoKey_of (owner name : string) : string := owner +:+ "/" +:+ name.

(** [String(id)]. *)
Definition String_of (id : Z) : string := pretty id.

Section Methods.
Context (env : Env).
(** The iteration budget given to [generateSizeRanges]. *)
Context (fuel : nat).

(** The loop of [processCodeSearchResults] over [items], threading the two
    local arrays. *)
Fixpoint process_code_items (items : list CodeItem) (eco : string)
    (type : option string) (reposData : list RepoData)
    (repoTypesData : list RepoTypeData)
    : M State (list RepoData * list RepoTypeData) :=
  match items with
  | [] => ret (reposData, repoTypesData)
  | item :: rest =>
      (let* data :=
         match repository item return M State (list RepoData * list RepoTypeData) with
         | None => ret (reposData, repoTypesData)
         | Some repository =>
             if (repo_id repository =? 0) || bool_decide (repo_name repository = "")
             then ret (reposData, repoTypesData)
             else
               let repoKey :=
                 repoKey_of (repo_owner_login repository) (repo_name repository) in
               let* st := get in
               if bool_decide (repoKey ∈ processedRepos st)
               then ret (reposData, repoTypesData)
               else
                 try_catch
                   (let* repoDetails :=
                      gh (getRepository (up env) (repo_owner_login repository)
                                        (repo_name repository)) in
                    match repoDetails return M State (list RepoData * list RepoTypeData) with
                    | None => ret (reposData, repoTypesData)
                    | Some repoDetails =>
                        let repoData :=
                          mkRepoData (String_of (repo_id repository))
                                     (repo_name repository)
                                     (repo_html_url repository)
                                     (repo_owner_login repository)
                                     (rd_created_at repoDetails / 1000)
                                     eco false
                                     (default 0 (rd_open_issues_count repoDetails))
                                     (default 0 (rd_stargazers_count repoDetails)) in
                        modify (add_processedRepo repoKey);;
                        ret (reposData ++ [repoData],
                             match truthy type with
                             | Some type =>
                                 repoTypesData ++
                                   [mkRepoTypeData (String_of (repo_id repository)) type]
                             | None => repoTypesData
                             end)
                    end)
                   (λ error, ret (reposData, repoTypesData))
         end in
       process_code_items rest eco type (fst data) (snd data))%js
  end.

(** [processCodeSearchResults(items, ecosystem, type)]. *)
Definition processCodeSearchResults (items : list CodeItem) (eco : string)
    (type : option string) : M State (list RepoData) :=
  (let* data := process_code_items items eco type [] [] in
   let reposData := fst data in
   let repoTypesData := snd data in
   (if bool_decide (0 < length reposData)%nat
    then try_catch (dbs (bulkCreateRepositories (db_error env) reposData))
                   (λ error, ret tt)
    else ret tt);;
   (if bool_decide (0 < length repoTypesData)%nat
    then try_catch (dbs (bulkCreateRepoTypes (db_error env) repoTypesData))
                   (λ error, ret tt)
    else ret tt);;
   ret reposData)%js.

(** The [while (hasMore && page <= 10)] loop of [searchByCode] for one query
    and one size range, over the pages still to fetch. *)
Fixpoint code_pages (query : Query) (sizeRange : string) (pages : list Z)
    (totalFound : Z) : M State Z :=
  match pages with
  | [] => ret totalFound
  | page :: rest =>
      (let* next :=
         try_catch
           (let* result :=
              gh (searchCode (up env) (filename query) (extension query)
                             (keyword query) (Some sizeRange) None 100 page) in
            if bool_decide (length (sr_items result) = 0%nat)
            then ret (totalFound, false)
            else
              let* reposData :=
                processCodeSearchResults (sr_items result) (ecosystem (config env))
                                         (type query) in
              ret (totalFound + Z.of_nat (length reposData),
                   negb (bool_decide (length (sr_items result) < 100)%nat)))
           (λ error, ret (totalFound, false)) in
       if snd next then code_pages query sizeRange rest (fst next)
       else ret (fst next))%js
  end.

Fixpoint code_ranges (query : Query) (sizeRanges : list string) (totalFound : Z)
    : M State Z :=
  match sizeRanges with
  | [] => ret totalFound
  | sizeRange :: rest =>
      (let* totalFound := code_pages query sizeRange (seqZ 1 10) totalFound in
       code_ranges query rest totalFound)%js
  end.

Fixpoint code_queries (queries : list Query) (sizeRanges : list string)
    (totalFound : Z) : M State Z :=
  match queries with
  | [] => ret totalFound
  | query :: rest =>
      (let* totalFound := code_ranges query sizeRanges totalFound in
       code_queries rest sizeRanges totalFound)%js
  end.

(** [searchByCode()]. *)
Definition searchByCode : M State Z :=
  match SizeRanges.generateSizeRanges fuel with
  | None => hang
  | Some sizeRanges =>
      code_queries (solanaSearchQueries (config env)) sizeRanges 0
  end.

(** The loop of [processRepoSearchResults] over [items]. *)
Fixpoint process_repo_items (items : list RepoItem) (eco : string)
    (reposData : list RepoData) : M State (list RepoData) :=
  match items with
  | [] => ret reposData
  | repo :: rest =>
      (let repoKey := repoKey_of (ri_owner_login repo) (ri_name repo) in
       let* st := get in
       let* reposData :=
         if bool_decide (repoKey ∈ processedRepos st)
         then ret reposData
         else
           try_catch
             (let* exists_ :=
                dbs (repositoryExists (db_error env) (String_of (ri_id repo))) in
              if exists_ : bool
              then (modify (add_processedRepo repoKey);; ret reposData)
              else
                let repoData :=
                  mkRepoData (String_of (ri_id repo)) (ri_name repo)
                             (ri_html_url repo) (ri_owner_login repo)
                             (ri_created_at repo / 1000)
                             eco false
                             (default 0 (ri_open_issues_count repo))
                             (default 0 (ri_stargazers_count repo)) in
                modify (add_processedRepo repoKey);;
                ret (reposData ++ [repoData]))
             (λ error, ret reposData) in
       process_repo_items rest eco reposData)%js
  end.

(** [processRepoSearchResults(items, ecosystem)]. *)
Definition processRepoSearchResults (items : list RepoItem) (eco : string)
    : M State (list RepoData) :=
  (let* reposData := process_repo_items items eco [] in
   (if bool_decide (0 < length reposData)%nat
    then try_catch (dbs (bulkCreateRepositories (db_error env) reposData))
                   (λ error, ret tt)
    else ret tt);;
   ret reposData)%js.

(** The page loop of [searchByRepository] for one keyword. *)
Fixpoint repo_pages (keyword : string) (pages : list Z) (totalFound : Z)
    : M State Z :=
  match pages with
  | [] => ret totalFound
  | page :: rest =>
      (let* next :=
         try_catch
           (let* result :=
              gh (searchRepositories (up env) keyword (Some "rust") (Some ">=5")
                                     None 100 page) in
            if bool_decide (length (sr_items result) = 0%nat)
            then ret (totalFound, false)
            else
              let* reposData :=
                processRepoSearchResults (sr_items result) (ecosystem (config env)) in
              ret (totalFound + Z.of_nat (length reposData),
                   negb (bool_decide (length (sr_items result) < 100)%nat)))
           (λ error, ret (totalFound, false)) in
       if snd next then repo_pages keyword rest (fst next)
       else ret (fst next))%js
  end.

Fixpoint repo_keywords (keywords : list string) (totalFound : Z) : M State Z :=
  match keywords with
  | [] => ret totalFound
  | keyword :: rest =>
      (let* totalFound := repo_pages keyword (seqZ 1 10) totalFound in
       repo_keywords rest totalFound)%js
  end.

(** [searchByRepository()]. *)
Definition searchByRepository : M State Z :=
  repo_keywords (repositorySearchKeywords (config env)) 0.

(** [searchTrending()]. *)
Definition searchTrending : M State Z :=
  try_catch
    (let* result := gh (getTrendingRepositories (up env) (Some "rust") 7 100) in
     let* reposData :=
       processRepoSearchResults (sr_items result) (ecosystem (config env)) in
     ret (Z.of_nat (length reposData)))%js
    (λ error, ret 0).

(** The three strategies in the [try] block of [run]. *)
Definition strategies : M State unit :=
  (let* codeResults := searchByCode in
   let* repoResults := searchByRepository in
   let* trendingResults := searchTrending in
   ret tt)%js.

(** [run()]. *)
Definition run : M State unit :=
  λ st,
    if isRunning st then (Ok tt, st)
    else
      finally
        (try_catch strategies (λ error, ret tt))
        (set_isRunning false)
        (set_isRunning true st).

End Methods.

(** *** Vocabulary for the dedup property *)

(** The key under which the worker remembers a stored row. *)
Definition key_of_row (r : RepoData) : string := repoKey_of (owner r) (name r).

(** The rows stored between two states of the tables. *)
Definition rows_since (st st' : State) : list RepoData :=
  map row (drop (length (repos (dbService st))) (repos (dbService st'))).

(** The invariant of a discovery run that started with the stored rows
    [before]: rows were only appended; the appended rows together with the
    rows [pending] in the local [reposData] array have pairwise different
    keys; and all those keys are in [processedRepos]. *)
Definition dedup_inv (before : list RepoRow) (pending : list RepoData)
    (st : State) : Prop :=
  ∃ new,
    repos (dbService st) = before ++ new ∧
    NoDup (key_of_row <$> (row <$> new) ++ pending) ∧
    ∀ r, r ∈ (row <$> new) ++ pending → key_of_row r ∈ processedRepos st.

(** What the loops over search items establish: the invariant with the
    rows they return as pending rows. *)
Definition dedup_post {A} (pending_of : A → list RepoData)
    (before : list RepoRow) (r : Res A) (st : State) : Prop :=
  match r with
  | Ok data => dedup_inv before (pending_of data) st
  | _ => dedup_inv before [] st
  end.

(** How many of [rows] belong to the repository [owner]/[name]. *)
Definition count_rows (owner_ name_ : string) (rows : list RepoData) : nat :=
  length (filter (λ r, owner r = owner_ ∧ name r = name_) rows).

End RepositoryDiscoveryWorker.

(** ** The run guard of a worker as a transition system *)

Module RunGuard.







End RunGuard.

(** ** Concrete pools *)

Module PoolExamples.
Import Js TokenManager.

Definition quota (remaining reset : Z) : Resources :=
  let b := Some (mkRateLimit remaining reset 5000) in
  mkResources b b b b b.

(** The upstream rejects every probe. *)
Definition net_down : Net :=
  {| rate_limit_api := λ _ _, None; latency := λ _, 0 |}.

(** The upstream answers probes of token 1 only: token 0 is revoked. *)
Definition net_token0_revoked : Net :=
  {| rate_limit_api := λ _ tokenIndex,
       if (tokenIndex =? 1)%nat then Some (quota 5000 5600) else None;
     latency := λ _, 0 |}.

(** Token 0 has [core.remaining = 0] until its reset at 2000 s; token 1 is
    healthy with [core.remaining = 10]. Both were used half a second ago. *)
Definition one_exhausted : State :=
  {| tokens := [ mkToken 0 "ghp_a" (quota 0 2000) 1000000 true 0;
                 mkToken 1 "ghp_b" (quota 10 2000) 1000000 true 0 ];
     currentIndex := 0; rotationLock := false;
     clock := 1000500; calls := 0; trace := [] |}.

(** Token 0 is unhealthy (three failed probes in a row); token 1 is healthy,
    out of quota, and resets at 2000 s. *)
Definition one_unhealthy : State :=
  {| tokens := [ mkToken 0 "ghp_a" (quota 0 1500) 1000000 false 3;
                 mkToken 1 "ghp_b" (quota 0 2000) 1000000 true 0 ];
     currentIndex := 0; rotationLock := false;
     clock := 1000500; calls := 0; trace := [] |}.

(** Two fresh tokens with quota. *)
Definition two_fresh : State :=
  {| tokens := [ mkToken 0 "ghp_a" (quota 10 2000) 1000000 true 0;
                 mkToken 1 "ghp_b" (quota 10 2000) 1000000 true 0 ];
     currentIndex := 0; rotationLock := false;
     clock := 1000500; calls := 0; trace := [] |}.

(** A request function that always rejects with the given status. *)
Definition rejects (status : Z) (message : string) : nat → nat → Res unit :=
  λ _ _, Throw (mkError (Some status) message).

End PoolExamples.

(** ** Concrete services *)

Module ServiceExamples.
Import Js TokenManager GitHubService DatabaseService Config PoolExamples.

(** The rate-limit endpoint always answers with plenty of quota. *)
Definition net_up : Net :=
  {| rate_limit_api := λ _ _, Some (quota 5000 5600); latency := λ _, 0 |}.

Definition not_found {A} : Res A := Throw (mkError (Some 404) "Not Found").

Definition alice_weeks : list Week :=
  [ mkWeek 1700000000 10 2 3; mkWeek 1700604800 0 0 0 ].

(** An upstream whose contributor statistics are [stats]; every other route
    answers 404. *)
Definition upstream_with
    (stats : string → string → nat → nat → Res (Response (option (list Contribution))))
    : Upstream :=
  {| net := net_up;
     search_code_api := λ _ _ _ _ _, not_found;
     search_repos_api := λ _ _ _ _ _, not_found;
     repo_api := λ _ _ _ _, not_found;
     stats_api := stats;
     user_api := λ _ _ _, not_found;
     date_string := λ _ _, "2024-01-01" |}.

(** The statistics are still being computed during the first four upstream
    calls (two requests, each followed by a quota probe) and ready after. *)
Definition stats_ready_later : Upstream :=
  upstream_with (λ _ _ n _,
    if (n <? 4)%nat then Ok (mkResponse 202 None)
    else Ok (mkResponse 200 (Some [mkContribution (Some "alice") alice_weeks]))).

(** The repository is gone: the statistics request answers 404. *)
Definition stats_not_found : Upstream := upstream_with (λ _ _ _ _, not_found).

Definition env_of (up : Upstream) : Env :=
  {| up := up; db_error := λ _, None;
     config := mkConfig [] [] "solana" 50 |}.

Definition gone_repo : RepoRow :=
  mkRepoRow 1 (mkRepoData "42" "gone" "https://github.com/acme/gone" "acme"
                          1600000000 "solana" false 0 7).

Definition one_repo_db : DB := mkDB [gone_repo] [] [] [] 0.

(** An idle activity worker over [two_fresh] and a database holding only
    [gone_repo]. *)
Definition activity_worker : DeveloperActivityWorker.State :=
  DeveloperActivityWorker.mkState two_fresh one_repo_db false.

(** A code search that finds the same repository twice on the first page
    of the first size range, and nothing elsewhere; its detail lookup
    succeeds. *)
Definition acme_prog : Repository :=
  mkRepository 77 "prog" "https://github.com/acme/prog" "acme".

Definition duplicate_hits : Upstream :=
  {| net := net_up;
     search_code_api := λ query _ page _ _,
       if bool_decide (query = "filename:Cargo.toml+anchor-lang+size:0..199")
            && (page =? 1)
       then Ok (mkResponse 200
                  (mkSearchData (Some [mkCodeItem (Some acme_prog);
                                       mkCodeItem (Some acme_prog)])
                                (Some 2) (Some false)))
       else Ok (mkResponse 200 (mkSearchData (Some []) (Some 0) (Some false)));
     search_repos_api := λ _ _ _ _ _, not_found;
     repo_api := λ _ _ _ _,
       Ok (mkResponse 200 (Some (mkRepoDetails 1600000000000 (Some 3) (Some 9))));
     stats_api := λ _ _ _ _, not_found;
     user_api := λ _ _ _, not_found;
     date_string := λ _ _, "2024-01-01" |}.

Definition discovery_env : Env :=
  {| up := duplicate_hits; db_error := λ _, None;
     config := mkConfig [mkQuery (Some "Cargo.toml") None (Some "anchor-lang")
                                 (Some "anchor")]
                        [] "solana" 50 |}.

(** An idle discovery worker with an empty database. *)
Definition discovery_worker : RepositoryDiscoveryWorker.State :=
  RepositoryDiscoveryWorker.mkState two_fresh (mkDB [] [] [] [] 0) false ∅.

End ServiceExamples.

(** ** Further vocabulary for the pool *)

Module PoolVocabulary.
Import Js TokenManager.

(** [k] probes of the same token, one after the other. *)
Fixpoint probe_times (net : Net) (k : nat) (tokenIndex : nat) : M State unit :=
  match k with
  | O => ret tt
  | S k' => (updateRateLimits net tokenIndex;; probe_times net k' tokenIndex)%js
  end.

(** The entry of a token after [k] rejected probes in a row. *)
Definition after_failures (k : nat) (t : Token) : Token :=
  let errors := consecutiveErrors t + Z.of_nat k in
  mkToken (id t) (token t) (rateLimits t) (lastUsed t)
          (isHealthy t && (bool_decide (k = 0%nat) || (errors <? 3)))
          errors.

(** The entry of a token after a probe answered with [resources] holding
    the three buckets the manager logs. *)
Definition after_success (resources : Resources) (t : Token) : Token :=
  mkToken (id t) (token t) resources (lastUsed t) true 0.

(** The method settled: its promise was fulfilled or rejected. *)
Definition settled {A} (r : Res A) : Prop := r ≠ Hang.

(** [k] calls of [getBestToken] in a row; the ids selected, in order. *)
Fixpoint select_times (net : Net) (apiType : ApiType) (k : nat) : M State (list nat) :=
  match k with
  | O => ret []
  | S k' =>
      (let* sel := getBestToken net apiType in
       let* rest := select_times net apiType k' in
       ret (tokenId sel :: rest))%js
  end.

(** A token the scan returns at once: healthy, probed or used within the
    last minute, with quota left in the bucket asked for. *)
Definition ready (apiType : ApiType) (now : Z) (t : Token) : Prop :=
  isHealthy t = true ∧ now - lastUsed t <= 60000 ∧
  ∃ rl, bucket (rateLimits t) apiType = Some rl ∧ 0 < remaining rl.

End PoolVocabulary.

(** ** Further vocabulary for storage *)

Module StorageVocabulary.
Import Js DatabaseService.

(** The [repoId]s stored in the repositories table. *)
Definition repoIds (l : list RepoRow) : list string := (λ x, repoId (row x)) <$> l.

(** The columns of the unique index of the activities table. *)
Definition activity_key (act : ActivityData) : Z * Z * Z :=
  (repositoryId act, developerId act, date act).

(** The unique index on [(repositoryId, developerId, date)]. *)
Definition unique_activities (l : list ActivityData) : Prop :=
  NoDup (activity_key <$> l).




End StorageVocabulary.

(** ** A repository with one known contributor *)

Module ActivityExamples.
Import Js TokenManager GitHubService DatabaseService Config PoolExamples ServiceExamples.

Definition alice_info : UserInfo :=
  mkUserInfo (Some "Alice") (Some "https://github.com/alice") None (Some "Oslo") None.

(** The statistics of every repository list alice with [alice_weeks], and
    alice is a known user. *)
Definition alice_contributes : Upstream :=
  {| net := net_up;
     search_code_api := λ _ _ _ _ _, not_found;
     search_repos_api := λ _ _ _ _ _, not_found;
     repo_api := λ _ _ _ _, not_found;
     stats_api := λ _ _ _ _,
       Ok (mkResponse 200 (Some [mkContribution (Some "alice") alice_weeks]));
     user_api := λ _ _ _, Ok (mkResponse 200 (Some alice_info));
     date_string := λ _ _, "2024-01-01" |}.

(** The one week of [alice_weeks] with commits, as stored for [gone_repo]. *)
Definition alice_row : ActivityData := mkActivityData 3 10 2 1700000000 1 1.

End ActivityExamples.

(** ** Further vocabulary for the service *)

Module QueryVocabulary.
Import Js GitHubService.

(** The search term a parameter contributes: none when the parameter is
    absent or empty. *)
Definition term (label : string) (v : option string) : list string :=
  match truthy v with
  | Some x => [label +:+ x]
  | None => []
  end.

(** The terms of a code search, in the order of the parameters. *)
Definition code_terms (filename extension keyword sizeRange inLocation : option string)
    : list string :=
  term "filename:" filename ++ term "extension:" extension ++ term "" keyword
  ++ term "size:" sizeRange ++ term "in:" inLocation.

(** Every request to the upstream is answered or rejected. *)
Definition responsive (up : Upstream) : Prop :=
  (∀ query perPage page n tokenId,
      search_code_api up query perPage page n tokenId ≠ Hang) ∧
  (∀ query perPage page n tokenId,
      search_repos_api up query perPage page n tokenId ≠ Hang) ∧
  (∀ owner repo n tokenId, repo_api up owner repo n tokenId ≠ Hang) ∧
  (∀ owner repo n tokenId, stats_api up owner repo n tokenId ≠ Hang) ∧
  (∀ username n tokenId, user_api up username n tokenId ≠ Hang).

End QueryVocabulary.

(** ** The token list of the configuration ([config/index.js], [github.tokens]) *)

Module ConfigTokens.
Import Js GitHubService.

(** [process.env[name]] as a condition and as a value: an unset or empty
    variable is falsy. *)
Definition env_var (env : gmap string string) (name : string) : option string :=
  truthy (env !! name).

(** The template literal [`${prefix}${index}`]. *)
Definition numbered (prefix : string) (index : nat) : string :=
  prefix +:+ pretty index.

(** [while (process.env[`${prefix}${index}`]) { tokens.push(...); index++; }],
    run for at most [fuel] iterations; [None] means the budget was too
    small. *)
Fixpoint read_numbered (fuel : nat) (env : gmap string string) (prefix : string)
    (index : nat) (tokens : list string) : option (list string) :=
  match env_var env (numbered prefix index) with
  | None => Some tokens
  | Some value =>
      match fuel with
      | O => None
      | S fuel' => read_numbered fuel' env prefix (S index) (tokens ++ [value])
      end
  end.

(** The function whose value is [github.tokens]. *)
Definition github_tokens (fuel : nat) (env : gmap string string) : option (list string) :=
  match read_numbered fuel env "GITHUB_TOKEN_" 1 [] with
  | None => None
  | Some tokens =>
      if bool_decide (length tokens = 0%nat)
      then read_numbered fuel env "GITHUB_ACCESS_TOKEN_" 1 []
      else Some tokens
  end.

(** [tokens] are the values of the variables [prefix1], [prefix2], ... up to
    the first one that is unset or empty. *)
Definition reads_run (env : gmap string string) (prefix : string)
    (tokens : list string) : Prop :=
  (∀ i value, tokens !! i = Some value →
              env_var env (numbered prefix (S i)) = Some value) ∧
  env_var env (numbered prefix (S (length tokens))) = None.

End ConfigTokens.

(** ** The health report ([TokenManager.getHealthStatus], which
    [GitHubService.getHealthStatus] passes on) *)

Module HealthCheck.
Import Js TokenManager.

(** An entry of the report. *)
Record Status : Type := mkStatus {
  hs_tokenId : nat;
  hs_isHealthy : bool;
  hs_consecutiveErrors : Z;
  hs_core : option RateLimit;
  hs_search : option RateLimit;
  hs_codeSearch : option RateLimit }.

(** The object the callback returns for [token] at [index]. *)
Definition status_of (index : nat) (t : Token) : Status :=
  {| hs_tokenId := index;
     hs_isHealthy := isHealthy t;
     hs_consecutiveErrors := consecutiveErrors t;
     hs_core := r_core (rateLimits t);
     hs_search := r_search (rateLimits t);
     hs_codeSearch := r_code_search (rateLimits t) |}.

(** The callbacks of [this.tokens.map(async (token, index) => ...)]. They
    are started in index order, so the probes are sent in that order; what
    follows the [await] of a callback reads and writes its own token only,
    so the order in which the probes are answered does not show in the
    tokens or in the report, and the callbacks are run here one after the
    other. *)
Fixpoint probe_each (net : Net) (todo : list nat) : M State (list Status) :=
  match todo with
  | [] => ret []
  | index :: rest =>
      (updateRateLimits net index;;
       let* st := get in
       match tokens st !! index with
       | None => throw (TypeError "isHealthy")
       | Some token =>
           let* statuses := probe_each net rest in
           ret (status_of index token :: statuses)
       end)%js
  end.

(** [getHealthStatus()]. The probes are in flight together: [Promise.all]
    is settled when the slowest of them is. *)
Definition getHealthStatus (net : Net) : M State (list Status) :=
  λ st,
    let n := length (tokens st) in
    let slowest := foldr Z.max 0 (latency net <$> seq (calls st) n) in
    let '(r, st') := probe_each net (seq 0 n) st in
    (r, mkState (tokens st') (currentIndex st') (rotationLock st')
                (clock st + slowest) (calls st') (trace st')).

End HealthCheck.

(** * Properties *)



Module SizeRangesFacts.
Import SizeRanges.

Lemma while_band_more_fuel {A} (push : Z -> Z -> A) fuel k limit last stride :
  ∀ start ranges r,
    while_band push fuel limit last stride start ranges = Some r →
    while_band push (fuel + k) limit last stride start ranges = Some r.
Proof.
  induction fuel as [|fuel IH]; intros start ranges r; simpl.
  - destruct (start <? limit) eqn:E; [discriminate|].
    intros H. destruct k; simpl; rewrite E; exact H.
  - destruct (start <? limit); [apply IH | auto].
Qed.

Lemma generate_more_fuel {A} (push : Z -> Z -> A) fuel k l :
  generate push fuel = Some l → generate push (fuel + k) = Some l.
Proof.
  unfold generate. intros H.
  repeat match type of H with
  | context [while_band push fuel ?a ?b ?c ?d ?e] =>
      let E := fresh "E" in
      destruct (while_band push fuel a b c d e) as [[? ?]|] eqn:E;
      [ apply (while_band_more_fuel push fuel k) in E; rewrite E; simpl in H |- *
      | discriminate H ]
  end.
  exact H.
Qed.

Lemma reach_of_covers l :
  ∀ reach s, reach < s <= reach_of l reach → covers l s.
Proof.
  induction l as [|[lo hi] l IH]; intros reach s; unfold reach_of; simpl.
  - lia.
  - fold (reach_of l (extend_reach reach (lo, hi))). intros Hs.
    destruct (Z_le_gt_dec s (extend_reach reach (lo, hi))) as [Hle|Hgt].
    + exists lo, hi. split; [left|].
      unfold extend_reach in Hle; simpl in Hle.
      destruct (lo <=? reach + 1) eqn:E; lia.
    + destruct (IH (extend_reach reach (lo, hi)) s) as (lo' & hi' & Hin & Hb); [lia|].
      exists lo', hi'. split; [right; exact Hin | exact Hb].
Qed.

Lemma bounds_at_8 : sizeRangeBounds 8 = Some expected_bounds.
Proof. vm_compute. reflexivity. Qed.

Lemma strings_at_8 : generateSizeRanges 8 = Some (map render expected_bounds).
Proof. vm_compute. reflexivity. Qed.

(** C2. [generateSizeRanges] is pure and deterministic: given an iteration
    budget that lets its loops finish (eight iterations suffice), every call
    returns the same list, the rendering of [expected_bounds]; the ranges
    starting below 1000 are exactly "0..199", "150..349", ... with width 200
    and stride 150; and every size from 0 to 15000 lies in some range. *)
Theorem generateSizeRanges_deterministic_band1_cover :
  (∀ fuel1 fuel2, (8 <= fuel1)%nat → (8 <= fuel2)%nat →
      generateSizeRanges fuel1 = generateSizeRanges fuel2 ∧
      generateSizeRanges fuel1 = Some (map render expected_bounds) ∧
      sizeRangeBounds fuel1 = Some expected_bounds) ∧
  take 7 (map render expected_bounds) =
    [ "0..199"; "150..349"; "300..499"; "450..649"; "600..799"; "750..949";
      "900..1099" ]%string ∧
  (∀ i, (i < 7)%nat →
      expected_bounds !! i = Some (150 * Z.of_nat i, 150 * Z.of_nat i + 199)) ∧
  filter (λ r, fst r < 1000) expected_bounds = take 7 expected_bounds ∧
  (∀ s, 0 <= s <= 15000 → covers expected_bounds s).
Proof.
  assert (Hfuel : ∀ fuel, (8 <= fuel)%nat →
            generateSizeRanges fuel = Some (map render expected_bounds) ∧
            sizeRangeBounds fuel = Some expected_bounds).
  { intros fuel Hf. replace fuel with (8 + (fuel - 8))%nat by lia. split.
    - apply (generate_more_fuel template 8), strings_at_8.
    - apply (generate_more_fuel pair 8), bounds_at_8. }
  split; [|split; [|split; [|split]]].
  - intros f1 f2 H1 H2.
    destruct (Hfuel f1 H1) as [E1 B1], (Hfuel f2 H2) as [E2 _].
    rewrite E1, E2. auto.
  - vm_compute. reflexivity.
  - intros i Hi.
    do 7 (destruct i as [|i]; [vm_compute; reflexivity|]). lia.
  - vm_compute. reflexivity.
  - intros s Hs. apply (reach_of_covers expected_bounds (-1) s).
    replace (reach_of expected_bounds (-1)) with 15049 by (vm_compute; reflexivity).
    lia.
Qed.

Lemma generateSizeRanges_deterministic_band1_cover_witness :
  generateSizeRanges 8 = generateSizeRanges 9 ∧ covers expected_bounds 15000.
Proof.
  destruct generateSizeRanges_deterministic_band1_cover as (Hdet & _ & _ & _ & Hcov).
  split.
  - apply (Hdet 8%nat 9%nat); lia.
  - apply (Hcov 15000); lia.
Defined.

End SizeRangesFacts.


Module JsFacts.
Import Js.

Lemma bind_inv {S A B} (m : M S A) (k : A → M S B) st r st' :
  bind m k st = (r, st') →
  (∃ a st1, m st = (Ok a, st1) ∧ k a st1 = (r, st')) ∨
  (∃ e, m st = (Throw e, st') ∧ r = Throw e) ∨
  (m st = (Hang, st') ∧ r = Hang).
Proof.
  unfold bind. destruct (m st) as [[a|e|] st1]; intros H.
  - left. eauto.
  - right. left. inversion H; subst. eauto.
  - right. right. inversion H; subst. eauto.
Qed.

Lemma bind_ok {S A B} (m : M S A) (k : A → M S B) st a st1 :
  m st = (Ok a, st1) → bind m k st = k a st1.
Proof. unfold bind. intros ->. reflexivity. Qed.

Lemma bind_throw {S A B} (m : M S A) (k : A → M S B) st e st1 :
  m st = (Throw e, st1) → bind m k st = (Throw e, st1).
Proof. unfold bind. intros ->. reflexivity. Qed.

End JsFacts.

Module TokenManagerFacts.
Import Js JsFacts TokenManager.

Section Pool.
Context (net : Net).

(** *** Frame facts: what each method does to [this.tokens] *)

Lemma updateRateLimits_tokens tokenIndex st r st' :
  updateRateLimits net tokenIndex st = (r, st') →
  ∃ f, tokens st' = alter f tokenIndex (tokens st).
Proof.
  unfold updateRateLimits. intros H.
  destruct (tokens st !! tokenIndex) as [t|] eqn:Ht.
  - destruct (rate_limit_api net (calls st) tokenIndex) as [res|].
    + destruct (debug_fields_present res); inversion H; subst; clear H;
        unfold note_probe_failure, update_token; simpl.
      * eexists. reflexivity.
      * eexists. rewrite list_alter_alter_eq. reflexivity.
    + inversion H; subst; clear H. eexists. reflexivity.
  - inversion H; subst. exists (λ t, t). symmetry. apply list_alter_id. auto.
Qed.

(** A probe of a token in the pool resolves: to the resources or to [null]. *)
Lemma updateRateLimits_resolves tokenIndex st :
  is_Some (tokens st !! tokenIndex) →
  ∃ o st', updateRateLimits net tokenIndex st = (Ok o, st').
Proof.
  intros [t Ht]. unfold updateRateLimits. rewrite Ht.
  destruct (rate_limit_api net (calls st) tokenIndex) as [res|];
    [destruct (debug_fields_present res)|]; eauto.
Qed.

Lemma select_spec index now rem st r st' :
  select index now rem st = (r, st') →
  r = Ok (mkSelection index rem) ∧
  tokens st' = alter (set_lastUsed now) index (tokens st).
Proof.
  unfold select, bind, modify, ret. simpl. intros H. inversion H; subst. auto.
Qed.

Lemma select_has_quota apiType index now st rl r st' :
  tokens st !! index ≫= (λ t, bucket (rateLimits t) apiType) = Some rl →
  (0 <? remaining rl) = true →
  (let* s := select index now (remaining rl) in ret (Some s))%js st = (r, st') →
  (∃ sel, r = Ok (Some sel) ∧ tokenId sel = index ∧ has_quota apiType sel st') ∧
  tokens st' = alter (set_lastUsed now) index (tokens st).
Proof.
  intros Hb Hpos. unfold bind.
  destruct (select index now (remaining rl) st) as [r0 st0] eqn:Hs.
  apply select_spec in Hs as [-> Htok]. unfold ret. intros H; inversion H; subst.
  split; [|exact Htok].
  eexists. split; [reflexivity|]. split; [reflexivity|].
  destruct (tokens st !! index) as [t|] eqn:Ht; [|discriminate]. simpl in Hb.
  exists (set_lastUsed now t), rl. simpl. rewrite Htok, list_lookup_alter_eq, Ht.
  repeat split; auto. lia.
Qed.

Lemma refresh_if_stale_spec index now lastUsed st :
  is_Some (tokens st !! index) →
  ∃ st1 f, refresh_if_stale net index now lastUsed st = (Ok tt, st1) ∧
           tokens st1 = alter f index (tokens st).
Proof.
  intros Hsome. unfold refresh_if_stale.
  destruct (60000 <? now - lastUsed).
  - destruct (updateRateLimits_resolves index st Hsome) as (o & st1 & Hu).
    destruct (updateRateLimits_tokens _ _ _ _ Hu) as [f Hf].
    exists st1, f. split; [|exact Hf]. rewrite (bind_ok _ _ _ _ _ Hu). reflexivity.
  - exists st, (λ t, t). split; [reflexivity|]. symmetry. apply list_alter_id. auto.
Qed.

Lemma check_quota_spec apiType index now st r st' :
  check_quota net apiType index now st = (r, st') →
  (∃ f, tokens st' = alter f index (tokens st)) ∧
  (∀ sel, r = Ok (Some sel) → tokenId sel = index ∧ has_quota apiType sel st').
Proof.
  assert (Hid : ∃ f, tokens st = alter f index (tokens st))
    by (exists (λ t, t); symmetry; apply list_alter_id; auto).
  unfold check_quota. rewrite (bind_ok get _ st st st) by reflexivity.
  destruct (tokens st !! index ≫= λ t, bucket (rateLimits t) apiType) as [rl|] eqn:Hb;
    [|intros H; inversion H; subst; split; [auto|discriminate]].
  destruct (0 <? remaining rl) eqn:Hpos.
  { intros H. destruct (select_has_quota _ _ _ _ _ _ _ Hb Hpos H) as [(sel & -> & Hi & Hq) Htok].
    split; [eauto|]. intros sel' E. inversion E; subst. auto. }
  destruct (reset rl * 1000 <? now);
    [|intros H; inversion H; subst; split; [auto|discriminate]].
  intros H. apply bind_inv in H as [(o & st1 & Hu & H)|[(e & Hu & ->)|[Hu ->]]].
  - destruct (updateRateLimits_tokens _ _ _ _ Hu) as [f Hf].
    rewrite (bind_ok get _ st1 st1 st1) in H by reflexivity.
    destruct (tokens st1 !! index ≫= λ t, bucket (rateLimits t) apiType) as [rl2|] eqn:Hb2;
      [|inversion H; subst; split; [eauto|discriminate]].
    destruct (0 <? remaining rl2) eqn:Hpos2;
      [|inversion H; subst; split; [eauto|discriminate]].
    destruct (select_has_quota _ _ _ _ _ _ _ Hb2 Hpos2 H) as [(sel & -> & Hi & Hq) Htok].
    split.
    + eexists. rewrite Htok, Hf, list_alter_alter_eq. reflexivity.
    + intros sel' E. inversion E; subst. auto.
  - split; [eapply updateRateLimits_tokens; eauto | discriminate].
  - split; [eapply updateRateLimits_tokens; eauto | discriminate].
Qed.

(** One iteration of the scan either leaves [this.tokens] as it is, or
    touches only the entry it visits, which was healthy when visited; and
    what it returns has quota left. *)
Lemma scan_step_spec apiType i st r st' :
  scan_step net apiType i st = (r, st') →
  let index := ((currentIndex st + i) mod length (tokens st))%nat in
  (tokens st' = tokens st ∨
   (healthy_at index st ∧ ∃ f, tokens st' = alter f index (tokens st))) ∧
  (∀ sel, r = Ok (Some sel) →
     tokenId sel = index ∧ healthy_at index st ∧ has_quota apiType sel st').
Proof.
  unfold scan_step. rewrite (bind_ok get _ st st st) by reflexivity.
  set (index := ((currentIndex st + i) mod length (tokens st))%nat). simpl.
  destruct (tokens st !! index) as [t|] eqn:Ht;
    [|intros H; inversion H; split; [auto|discriminate]].
  destruct (isHealthy t) eqn:Hh; simpl;
    [|intros H; inversion H; split; [auto|discriminate]].
  assert (Hhealthy : healthy_at index st) by (exists t; auto).
  destruct (refresh_if_stale_spec index (clock st) (lastUsed t) st) as (st1 & f1 & Hr & Hf1);
    [eauto|].
  rewrite (bind_ok _ _ _ _ _ Hr). intros H.
  apply check_quota_spec in H as [[f2 Hf2] Hsel].
  split.
  - right. split; [auto|]. eexists. rewrite Hf2, Hf1, list_alter_alter_eq. reflexivity.
  - intros sel E. destruct (Hsel sel E). auto.
Qed.

(** Tokens that are healthy after an iteration were healthy before it. *)
Lemma scan_step_healthy apiType i st r st' j :
  scan_step net apiType i st = (r, st') → healthy_at j st' → healthy_at j st.
Proof.
  intros H. apply scan_step_spec in H as [[E|[Hh [f Hf]]] _].
  - unfold healthy_at. rewrite E. auto.
  - destruct (decide (j = ((currentIndex st + i) mod length (tokens st))%nat)) as [->|Hne]; [auto|].
    unfold healthy_at. rewrite Hf, list_lookup_alter_ne by auto. auto.
Qed.

Lemma scan_spec apiType todo : ∀ st sel st',
  scan net apiType todo st = (Ok (Some sel), st') →
  healthy_at (tokenId sel) st ∧ has_quota apiType sel st'.
Proof.
  induction todo as [|i todo IH]; intros st sel st' H; simpl in H.
  - inversion H.
  - apply bind_inv in H as [(found & st1 & Hs & H)|[(e & _ & ?)|[_ ?]]]; try discriminate.
    destruct found as [s|].
    + inversion H; subst. apply scan_step_spec in Hs as [_ Hs].
      destruct (Hs sel eq_refl) as (-> & Hh & Hq). auto.
    + apply IH in H as [Hh Hq]. split; [|exact Hq].
      eapply scan_step_healthy; eauto.
Qed.

(** *** Trace facts: who sleeps, who calls [requestFn] *)

Lemma silent_refl p st : silent p st st.
Proof. exists []. rewrite app_nil_r. auto. Qed.

Lemma silent_same_trace p st st' : trace st' = trace st → silent p st st'.
Proof. intros E. exists []. rewrite app_nil_r. auto. Qed.

Lemma silent_trans p st1 st2 st3 :
  silent p st1 st2 → silent p st2 st3 → silent p st1 st3.
Proof.
  intros (e1 & H1 & Q1) (e2 & H2 & Q2). exists (e1 ++ e2).
  rewrite H2, H1, <- app_assoc, existsb_app, Q1, Q2. auto.
Qed.

Section Silent.
Context (p : Event → bool).
Hypothesis p_probe : ∀ i, p (EvProbe i) = false.

Lemma updateRateLimits_silent tokenIndex st r st' :
  updateRateLimits net tokenIndex st = (r, st') → silent p st st'.
Proof.
  unfold updateRateLimits. intros H.
  destruct (tokens st !! tokenIndex) as [t|];
    [|inversion H; subst; apply silent_refl].
  assert (Q : silent p st (upstream_call (EvProbe tokenIndex) net st))
    by (exists [EvProbe tokenIndex]; simpl; rewrite p_probe; auto).
  destruct (rate_limit_api net (calls st) tokenIndex) as [res|];
    [destruct (debug_fields_present res)|]; inversion H; subst; exact Q.
Qed.

Lemma select_silent index now rem st r st' :
  select index now rem st = (r, st') → silent p st st'.
Proof.
  unfold select, bind, modify, ret. simpl. intros H. inversion H; subst.
  apply silent_same_trace. reflexivity.
Qed.

Lemma refresh_if_stale_silent index now lastUsed st r st' :
  refresh_if_stale net index now lastUsed st = (r, st') → silent p st st'.
Proof.
  unfold refresh_if_stale. destruct (60000 <? now - lastUsed).
  - intros H. apply bind_inv in H as [(o & st1 & Hu & H)|[(e & Hu & ->)|[Hu ->]]];
      [inversion H; subst| |]; eapply updateRateLimits_silent; eauto.
  - intros H; inversion H; subst. apply silent_refl.
Qed.

Lemma select_ret_silent index now rem st r st' :
  (let* s := select index now rem in ret (Some s))%js st = (r, st') → silent p st st'.
Proof.
  intros H. apply bind_inv in H as [(o & st1 & Hu & H)|[(e & Hu & ->)|[Hu ->]]];
    [inversion H; subst| |]; eapply select_silent; eauto.
Qed.

Lemma check_quota_silent apiType index now st r st' :
  check_quota net apiType index now st = (r, st') → silent p st st'.
Proof.
  unfold check_quota. rewrite (bind_ok get _ st st st) by reflexivity.
  destruct (tokens st !! index ≫= λ t, bucket (rateLimits t) apiType) as [rl|];
    [|intros H; inversion H; subst; apply silent_refl].
  destruct (0 <? remaining rl); [apply select_ret_silent|].
  destruct (reset rl * 1000 <? now);
    [|intros H; inversion H; subst; apply silent_refl].
  intros H. apply bind_inv in H as [(o & st1 & Hu & H)|[(e & Hu & ->)|[Hu ->]]];
    try (eapply updateRateLimits_silent; eauto; fail).
  apply updateRateLimits_silent in Hu. eapply silent_trans; [exact Hu|].
  rewrite (bind_ok get _ st1 st1 st1) in H by reflexivity.
  destruct (tokens st1 !! index ≫= λ t, bucket (rateLimits t) apiType) as [rl2|];
    [|inversion H; subst; apply silent_refl].
  destruct (0 <? remaining rl2); [eapply select_ret_silent; eauto|].
  inversion H; subst; apply silent_refl.
Qed.

Lemma scan_step_silent apiType i st r st' :
  scan_step net apiType i st = (r, st') → silent p st st'.
Proof.
  unfold scan_step. rewrite (bind_ok get _ st st st) by reflexivity. simpl.
  destruct (tokens st !! _) as [t|];
    [|intros H; inversion H; subst; apply silent_refl].
  destruct (negb (isHealthy t)); [intros H; inversion H; subst; apply silent_refl|].
  intros H. apply bind_inv in H as [(o & st1 & Hu & H)|[(e & Hu & ->)|[Hu ->]]];
    try (eapply refresh_if_stale_silent; eauto; fail).
  eapply silent_trans; [eapply refresh_if_stale_silent|eapply check_quota_silent]; eauto.
Qed.

Lemma scan_silent apiType todo : ∀ st r st',
  scan net apiType todo st = (r, st') → silent p st st'.
Proof.
  induction todo as [|i todo IH]; intros st r st' H; simpl in H.
  - inversion H; subst. apply silent_refl.
  - apply bind_inv in H as [(o & st1 & Hu & H)|[(e & Hu & ->)|[Hu ->]]];
      try (eapply scan_step_silent; eauto; fail).
    apply scan_step_silent in Hu. eapply silent_trans; [exact Hu|].
    destruct o; [inversion H; subst; apply silent_refl | eauto].
Qed.

Hypothesis p_sleep : ∀ ms, p (EvSleep ms) = false.

Lemma sleep_silent ms st r st' : sleep ms st = (r, st') → silent p st st'.
Proof.
  unfold sleep, modify. intros H; inversion H; subst.
  exists [EvSleep ms]. simpl. rewrite p_sleep. auto.
Qed.

Lemma wait_for_reset_silent apiType st r st' :
  wait_for_reset net apiType st = (r, st') → silent p st st'.
Proof.
  unfold wait_for_reset. rewrite (bind_ok get _ st st st) by reflexivity.
  destruct (resetTimes apiType st) as [|soonest rest];
    [intros H; inversion H; subst; apply silent_refl|].
  intros H. apply bind_inv in H as [(o & st1 & Hu & H)|[(e & Hu & ->)|[Hu ->]]];
    try (eapply sleep_silent; eauto; fail).
  apply sleep_silent in Hu. eapply silent_trans; [exact Hu|]. clear Hu.
  apply bind_inv in H as [(o2 & st2 & Hu & H)|[(e & Hu & ->)|[Hu ->]]];
    try (eapply updateRateLimits_silent; eauto; fail).
  apply updateRateLimits_silent in Hu. eapply silent_trans; [exact Hu|]. clear Hu.
  rewrite (bind_ok get _ st2 st2 st2) in H by reflexivity.
  apply bind_inv in H as [([] & st3 & Hm & H)|[(e & Hm & ->)|[Hm ->]]];
    try discriminate.
  unfold modify in Hm. inversion Hm; subst st3; clear Hm.
  rewrite (bind_ok get _ _ _ _ eq_refl) in H.
  apply silent_same_trace.
  destruct (_ ≫= _) as [rl|]; inversion H; subst; reflexivity.
Qed.

Lemma getBestToken_silent apiType st r st' :
  getBestToken net apiType st = (r, st') → silent p st st'.
Proof.
  unfold getBestToken. destruct (rotationLock st);
    [intros H; inversion H; subst; apply silent_refl|].
  unfold finally.
  destruct (bind _ _ (set_rotationLock true st)) as [r0 st1] eqn:Hb.
  intros H; inversion H; subst r0 st'; clear H.
  assert (silent p (set_rotationLock true st) st1) as (evs & E & Q).
  { apply bind_inv in Hb as [(o & st2 & Hu & H)|[(e & Hu & ->)|[Hu ->]]];
      try (eapply scan_silent; eauto; fail).
    apply scan_silent in Hu. eapply silent_trans; [exact Hu|].
    destruct o; [inversion H; subst; apply silent_refl|].
    eapply wait_for_reset_silent; eauto. }
  exists evs. auto.
Qed.

End Silent.

(** *** Staleness: a probe precedes the selection of a stale token *)

Lemma lastUsed_alter (f : Token → Token) index (l : list Token) j :
  (∀ t, lastUsed (f t) = lastUsed t) →
  lastUsed <$> alter f index l !! j = lastUsed <$> l !! j.
Proof.
  intros Hf. destruct (decide (index = j)) as [->|Hne].
  - rewrite list_lookup_alter_eq. destruct (l !! j); simpl; [rewrite Hf|]; reflexivity.
  - rewrite list_lookup_alter_ne by auto. reflexivity.
Qed.

Lemma note_probe_failure_lastUsed tokenIndex st j :
  lastUsed <$> tokens (note_probe_failure tokenIndex st) !! j =
  lastUsed <$> tokens st !! j.
Proof.
  unfold note_probe_failure, update_token. simpl. apply lastUsed_alter.
  intros t. simpl. destruct (3 <=? _); reflexivity.
Qed.

(** A probe never touches [lastUsed]. *)
Lemma updateRateLimits_lastUsed tokenIndex st r st' j :
  updateRateLimits net tokenIndex st = (r, st') →
  lastUsed <$> tokens st' !! j = lastUsed <$> tokens st !! j.
Proof.
  unfold updateRateLimits. destruct (tokens st !! tokenIndex);
    [|intros E; inversion E; subst; reflexivity].
  assert (H2 : ∀ res,
    lastUsed <$> tokens (update_token tokenIndex (λ t,
        set_consecutiveErrors 0 (set_isHealthy true (set_rateLimits res t)))
        (upstream_call (EvProbe tokenIndex) net st)) !! j =
    lastUsed <$> tokens st !! j).
  { intros res. simpl. apply lastUsed_alter. reflexivity. }
  destruct (rate_limit_api net (calls st) tokenIndex) as [res|];
    [destruct (debug_fields_present res)|]; intros E; inversion E; subst.
  - apply H2.
  - rewrite note_probe_failure_lastUsed. apply H2.
  - rewrite note_probe_failure_lastUsed. reflexivity.
Qed.

Lemma refresh_if_stale_lastUsed index now lu st r st' j :
  refresh_if_stale net index now lu st = (r, st') →
  lastUsed <$> tokens st' !! j = lastUsed <$> tokens st !! j.
Proof.
  unfold refresh_if_stale. destruct (60000 <? now - lu).
  - intros H. apply bind_inv in H as [(o & st1 & Hu & H)|[(e & Hu & ->)|[Hu ->]]];
      [inversion H; subst| |]; eapply updateRateLimits_lastUsed; eauto.
  - intros H; inversion H; subst. reflexivity.
Qed.

(** A stale token is probed. *)
Lemma refresh_if_stale_probes index now lu st r st' :
  is_Some (tokens st !! index) → 60000 < now - lu →
  refresh_if_stale net index now lu st = (r, st') →
  trace st' = trace st ++ [EvProbe index].
Proof.
  intros [t Ht] Hstale. unfold refresh_if_stale.
  replace (60000 <? now - lu) with true by (symmetry; apply Z.ltb_lt; exact Hstale).
  intros H. assert (Hu : ∃ r1, updateRateLimits net index st = (r1, st')).
  { apply bind_inv in H as [(o & st1 & Hu & H)|[(e & Hu & ->)|[Hu ->]]];
      [inversion H; subst| |]; eauto. }
  destruct Hu as [r1 Hu]. unfold updateRateLimits in Hu. rewrite Ht in Hu.
  destruct (rate_limit_api net (calls st) index) as [res|];
    [destruct (debug_fields_present res)|]; inversion Hu; subst; reflexivity.
Qed.

(** Without a selection [lastUsed] stays; a selection stamps the token with
    the time of the visit. *)
Lemma check_quota_lastUsed apiType index now st r st' :
  check_quota net apiType index now st = (r, st') →
  (∀ sel, r = Ok (Some sel) →
     ∀ t', tokens st' !! index = Some t' → lastUsed t' = now) ∧
  ((∀ sel, r ≠ Ok (Some sel)) →
     ∀ j, lastUsed <$> tokens st' !! j = lastUsed <$> tokens st !! j).
Proof.
  assert (Hstamp : ∀ rem w r0 w',
    (let* s := select index now rem in ret (Some s))%js w = (r0, w') →
    (∃ s, r0 = Ok (Some s)) ∧
    ∀ t', tokens w' !! index = Some t' → lastUsed t' = now).
  { intros rem w r0 w' H. unfold bind in H.
    destruct (select index now rem w) as [r1 w1] eqn:Hs.
    apply select_spec in Hs as [-> Hs]. inversion H; subst. split; [eauto|].
    intros t'. rewrite Hs, list_lookup_alter_eq.
    destruct (tokens w !! index); simpl; intros E; inversion E; reflexivity. }
  unfold check_quota. rewrite (bind_ok get _ st st st) by reflexivity.
  destruct (tokens st !! index ≫= λ t, bucket (rateLimits t) apiType) as [rl|];
    [|intros H; inversion H; subst; split; [discriminate|reflexivity]].
  destruct (0 <? remaining rl).
  { intros H. apply Hstamp in H as [[s ->] Hl]. split; [auto|].
    intros Hn. destruct (Hn s eq_refl). }
  destruct (reset rl * 1000 <? now);
    [|intros H; inversion H; subst; split; [discriminate|reflexivity]].
  intros H. apply bind_inv in H as [(o & st1 & Hu & H)|[(e & Hu & ->)|[Hu ->]]];
    try (split; [discriminate|]; intros _ j; eapply updateRateLimits_lastUsed; eauto; fail).
  rewrite (bind_ok get _ st1 st1 st1) in H by reflexivity.
  destruct (tokens st1 !! index ≫= λ t, bucket (rateLimits t) apiType) as [rl2|];
    [|inversion H; subst; split; [discriminate|];
      intros _ j; eapply updateRateLimits_lastUsed; eauto].
  destruct (0 <? remaining rl2).
  - apply Hstamp in H as [[s ->] Hl]. split; [auto|].
    intros Hn. destruct (Hn s eq_refl).
  - inversion H; subst. split; [discriminate|].
    intros _ j. eapply updateRateLimits_lastUsed; eauto.
Qed.

Lemma scan_step_none_lastUsed apiType i st st' j :
  scan_step net apiType i st = (Ok None, st') →
  lastUsed <$> tokens st' !! j = lastUsed <$> tokens st !! j.
Proof.
  unfold scan_step. rewrite (bind_ok get _ st st st) by reflexivity. simpl.
  destruct (tokens st !! _) as [t|]; [|discriminate].
  destruct (negb (isHealthy t)); [intros H; inversion H; subst; reflexivity|].
  intros H. apply bind_inv in H as [([] & st1 & Hr & H)|[(e & _ & ?)|[_ ?]]];
    try discriminate.
  apply check_quota_lastUsed in H as [_ H].
  rewrite H by discriminate. eapply refresh_if_stale_lastUsed; eauto.
Qed.

Lemma scan_step_found_probed apiType i st sel st' t0 t' :
  scan_step net apiType i st = (Ok (Some sel), st') →
  tokens st !! tokenId sel = Some t0 →
  tokens st' !! tokenId sel = Some t' →
  60000 < lastUsed t' - lastUsed t0 →
  ∃ evs, trace st' = trace st ++ EvProbe (tokenId sel) :: evs.
Proof.
  intros H. pose proof (scan_step_spec _ _ _ _ _ H) as [_ Hsel].
  destruct (Hsel sel eq_refl) as (Hid & _ & _). clear Hsel. revert H.
  unfold scan_step. rewrite (bind_ok get _ st st st) by reflexivity. simpl.
  rewrite <- Hid.
  destruct (tokens st !! tokenId sel) as [t|] eqn:Ht; [|discriminate].
  destruct (negb (isHealthy t)); [discriminate|].
  intros H Et0 Et' Hstale. inversion Et0; subst t0.
  apply bind_inv in H as [([] & st1 & Hr & H)|[(e & _ & ?)|[_ ?]]];
    try discriminate.
  pose proof (check_quota_lastUsed _ _ _ _ _ _ H) as [Hstamp _].
  rewrite (Hstamp sel eq_refl t' Et') in Hstale.
  apply refresh_if_stale_probes in Hr; [|eauto|exact Hstale].
  apply (check_quota_silent (λ _, false) (λ _, eq_refl)) in H as (evs & E & _).
  exists evs. rewrite E, Hr, <- app_assoc. reflexivity.
Qed.

Lemma scan_found_probed apiType todo : ∀ st sel st' t0 t',
  scan net apiType todo st = (Ok (Some sel), st') →
  tokens st !! tokenId sel = Some t0 →
  tokens st' !! tokenId sel = Some t' →
  60000 < lastUsed t' - lastUsed t0 →
  ∃ evs1 evs2, trace st' = trace st ++ evs1 ++ EvProbe (tokenId sel) :: evs2.
Proof.
  induction todo as [|i todo IH]; intros st sel st' t0 t' H Et0 Et' Hstale;
    simpl in H; [inversion H|].
  apply bind_inv in H as [(found & st1 & Hs & H)|[(e & _ & ?)|[_ ?]]]; try discriminate.
  destruct found as [s|].
  - inversion H; subst.
    destruct (scan_step_found_probed _ _ _ _ _ _ _ Hs Et0 Et' Hstale) as [evs E].
    exists [], evs. exact E.
  - pose proof (scan_step_none_lastUsed _ _ _ _ (tokenId sel) Hs) as Hl.
    rewrite Et0 in Hl. destruct (tokens st1 !! tokenId sel) as [t1|] eqn:Et1;
      [|discriminate]. simpl in Hl. inversion Hl as [Hl'].
    destruct (IH st1 sel st' t1 t' H Et1 Et') as (evs1 & evs2 & E); [lia|].
    apply (scan_step_silent (λ _, false) (λ _, eq_refl)) in Hs as (evs0 & E0 & _).
    exists (evs0 ++ evs1), evs2. rewrite E, E0, <- !app_assoc. reflexivity.
Qed.

(** The wait path sleeps before it returns. *)
Lemma wait_for_reset_sleeps apiType st sel st' :
  wait_for_reset net apiType st = (Ok sel, st') →
  ∃ ms evs, trace st' = trace st ++ EvSleep ms :: evs.
Proof.
  unfold wait_for_reset. rewrite (bind_ok get _ st st st) by reflexivity.
  destruct (resetTimes apiType st) as [|soonest rest]; [discriminate|].
  intros H. apply bind_inv in H as [([] & st1 & Hs & H)|[(e & _ & ?)|[_ ?]]];
    try discriminate.
  unfold sleep, modify in Hs. inversion Hs; subst st1; clear Hs.
  apply bind_inv in H as [(o & st2 & Hu & H)|[(e & _ & ?)|[_ ?]]]; try discriminate.
  apply (updateRateLimits_silent is_sleep (λ _, eq_refl)) in Hu as (evs & Hu & _).
  simpl in Hu.
  rewrite (bind_ok get _ st2 st2 st2) in H by reflexivity.
  apply bind_inv in H as [([] & st3 & Hm & H)|[(e & _ & ?)|[_ ?]]]; try discriminate.
  unfold modify in Hm. inversion Hm; subst st3; clear Hm.
  rewrite (bind_ok get _ _ _ _ eq_refl) in H.
  destruct (_ ≫= _) as [rl|]; [|discriminate].
  inversion H; subst. simpl. rewrite Hu, <- app_assoc. simpl. eauto.
Qed.

End Pool.

(** C1. Whenever [getBestToken(apiType)] returns a token without having
    slept, that is, not through the all-exhausted wait path, the token was
    healthy when the call started, and at the moment it is returned its
    bucket for [apiType] exists and has [remaining > 0], which is the
    [remaining] reported in the returned object; and if the token had not
    been used for more than 60 s when it was visited, it was probed during
    the call, before it was returned. *)
Theorem getBestToken_selected_has_quota net apiType st sel st' :
  getBestToken net apiType st = (Ok sel, st') →
  slept_since st st' = false →
  healthy_at (tokenId sel) st ∧ has_quota apiType sel st' ∧
  (∀ t0 t', tokens st !! tokenId sel = Some t0 →
            tokens st' !! tokenId sel = Some t' →
            60000 < lastUsed t' - lastUsed t0 →
            EvProbe (tokenId sel) ∈ events_since st st').
Proof.
  unfold getBestToken. destruct (rotationLock st); [discriminate|].
  unfold finally.
  destruct (bind _ _ (set_rotationLock true st)) as [r st1] eqn:Hb.
  intros H; inversion H; subst r st'; clear H.
  apply bind_inv in Hb as [(found & st2 & Hs & H)|[(e & _ & ?)|[_ ?]]];
    try discriminate.
  destruct found as [s|].
  - inversion H; subst s st2. intros _.
    pose proof (scan_spec _ _ _ _ _ _ Hs) as [Hh Hq].
    split; [exact Hh|]. split; [exact Hq|].
    intros t0 t' Et0 Et' Hstale.
    destruct (scan_found_probed _ _ _ _ _ _ _ _ Hs Et0 Et' Hstale) as (evs1 & evs2 & E).
    unfold events_since. simpl in *. rewrite E, drop_app_length.
    apply elem_of_app. right. left.
  - intros Hquiet. exfalso.
    apply (scan_silent net is_sleep (λ _, eq_refl)) in Hs as (evs1 & Hs & _).
    simpl in Hs.
    apply wait_for_reset_sleeps in H as (ms & evs2 & Hw).
    unfold slept_since, events_since in Hquiet. simpl in Hquiet.
    rewrite Hw, Hs, <- app_assoc, drop_app_length, existsb_app in Hquiet.
    simpl in Hquiet. rewrite orb_true_r in Hquiet. discriminate.
Qed.

End TokenManagerFacts.


Module ExecuteFacts.
Import Js JsFacts TokenManager TokenManagerFacts.

(** *** [String.prototype.includes] *)

Lemma prefix_app (a b : string) : String.prefix a (a +:+ b) = true.
Proof. induction a as [|c a IH]; simpl; [destruct b; auto|]. 
  destruct (Ascii.ascii_dec c c) as [_|n]; [exact IH | exfalso; apply n; reflexivity].
Qed.

Lemma prefix_inv (a h : string) :
  String.prefix a h = true → ∃ post, h = a +:+ post.
Proof.
  revert h. induction a as [|c a IH]; intros h; simpl.
  - eauto.
  - destruct h as [|d h]; simpl; [discriminate|].
    destruct (Ascii.ascii_dec c d) as [->|]; [|discriminate].
    intros H. destruct (IH _ H) as [post ->]. eauto.
Qed.

Lemma includes_unfold (needle hay : string) :
  includes needle hay =
    if String.prefix needle hay then true
    else match hay with
         | EmptyString => false
         | String _ hay' => includes needle hay'
         end.
Proof. destruct hay; reflexivity. Qed.

Lemma includes_intro (pre needle post : string) :
  includes needle (pre +:+ needle +:+ post) = true.
Proof.
  induction pre as [|c pre IH].
  - change (""%string +:+ needle +:+ post) with (needle +:+ post).
    rewrite includes_unfold, prefix_app. reflexivity.
  - change (String c pre +:+ needle +:+ post)
      with (String c (pre +:+ needle +:+ post)).
    rewrite includes_unfold, IH. destruct (String.prefix needle _); reflexivity.
Qed.

Lemma includes_inv (needle hay : string) :
  includes needle hay = true → ∃ pre post, hay = pre +:+ needle +:+ post.
Proof.
  induction hay as [|c hay IH]; rewrite includes_unfold.
  - destruct (String.prefix needle "") eqn:E; [|discriminate].
    intros _. apply prefix_inv in E as [post E]. exists ""%string, post. auto.
  - destruct (String.prefix needle (String c hay)) eqn:E.
    + intros _. apply prefix_inv in E as [post E]. exists ""%string, post. auto.
    + intros H. destruct (IH H) as (pre & post & ->).
      exists (String c pre), post. reflexivity.
Qed.

Lemma append_cons c (a b : string) : String c a +:+ b = String c (a +:+ b).
Proof. reflexivity. Qed.

Lemma string_app_assoc (a b c : string) : (a +:+ b) +:+ c = a +:+ (b +:+ c).
Proof.
  induction a as [|x a IH]; [reflexivity|].
  rewrite !append_cons, IH. reflexivity.
Qed.

(** A message that mentions a secondary rate limit mentions a rate limit. *)
Lemma includes_secondary (m : string) :
  includes "secondary rate limit" m = true → includes "rate limit" m = true.
Proof.
  intros H. apply includes_inv in H as (pre & post & ->).
  change "secondary rate limit"%string with ("secondary " +:+ "rate limit")%string.
  rewrite string_app_assoc, <- (string_app_assoc pre).
  apply includes_intro.
Qed.

(** *** The [catch] block *)

Lemma classify_client_error attempt e :
  status_ge e 400 && status_lt e 500 = true →
  status_is e 403 && includes "rate limit" (message e) = false →
  classify attempt e = Rethrow.
Proof.
  intros H4 Hrl. unfold classify. rewrite Hrl, H4.
  destruct (status_is e 403 && includes "secondary rate limit" (message e)) eqn:E; [|auto].
  apply andb_true_iff in E as [E1 E2]. apply includes_secondary in E2.
  rewrite E1, E2 in Hrl. discriminate.
Qed.

Lemma classify_server_error attempt e :
  status_ge e 500 = true →
  classify attempt e = ContinueAfter (2000 * (attempt + 1)).
Proof.
  unfold classify, status_ge, status_is, status_lt.
  destruct (status e) as [s|]; [|discriminate]. intros H.
  assert (E403 : (s =? 403) = false) by lia. rewrite E403. simpl.
  assert (E500 : (s <? 500) = false) by lia. rewrite E500, andb_false_r, H. auto.
Qed.

(** The fixed 60 s cooldown is never chosen: its test is shadowed by the one
    before it. *)
Lemma classify_verdicts attempt e :
  classify attempt e = Continue ∨ classify attempt e = Rethrow ∨
  classify attempt e = ContinueAfter (2000 * (attempt + 1)).
Proof.
  unfold classify.
  destruct (status_is e 403 && includes "rate limit" (message e)) eqn:E1; [auto|].
  destruct (status_is e 403 && includes "secondary rate limit" (message e)) eqn:E2.
  { apply andb_true_iff in E2 as [E E2]. apply includes_secondary in E2.
    rewrite E, E2 in E1. discriminate. }
  destruct (status_ge e 400 && status_lt e 500); [auto|].
  destruct (status_ge e 500); auto.
Qed.

Section Execute.
Context (net : Net) {A : Type} (requestFn : nat → nat → Res A) (apiType : ApiType).

Local Abbreviation attempt_body := (attempt_body net requestFn apiType).
Local Abbreviation attempts := (attempts net requestFn apiType).
Local Abbreviation execute := (execute net requestFn apiType).
Local Abbreviation retried := (retried net requestFn apiType).

Lemma attempts_step n attempt lastError st e st1 :
  attempt_body st = (Throw e, st1) →
  attempts (S n) attempt lastError st =
    match classify attempt e with
    | Rethrow => (Throw e, st1)
    | v => attempts n (attempt + 1) (Some e) (resume v st1)
    end.
Proof.
  intros Hb. simpl. unfold try_catch. rewrite Hb.
  destruct (classify attempt e); reflexivity.
Qed.

Lemma attempt_body_request_fails st sel st1 e :
  getBestToken net apiType st = (Ok sel, st1) →
  requestFn (calls st1) (tokenId sel) = Throw e →
  attempt_body st = (Throw e, upstream_call (EvRequest (tokenId sel)) net st1).
Proof.
  intros Hg Hr. unfold TokenManager.attempt_body.
  rewrite (bind_ok _ _ _ _ _ Hg).
  apply bind_throw. unfold call_requestFn. rewrite Hr. reflexivity.
Qed.

(** *** Counting invocations of [requestFn] *)

Lemma count_requests_none evs :
  existsb is_request evs = false → count_requests evs = O.
Proof.
  unfold count_requests. induction evs as [|ev evs IH]; simpl; [auto|].
  intros Q. apply orb_false_iff in Q as [Q1 Q2].
  rewrite filter_cons. destruct (decide (is_request ev = true)); [congruence|auto].
Qed.

Lemma silent_at_most st st' : silent is_request st st' → at_most_requests 0 st st'.
Proof.
  intros (evs & E & Q). exists evs. split; [auto|].
  rewrite count_requests_none; auto.
Qed.

Lemma at_most_trans a b st1 st2 st3 :
  at_most_requests a st1 st2 → at_most_requests b st2 st3 →
  at_most_requests (a + b) st1 st3.
Proof.
  intros (e1 & H1 & Q1) (e2 & H2 & Q2). exists (e1 ++ e2).
  rewrite H2, H1, <- app_assoc. split; [auto|].
  unfold count_requests in *. rewrite filter_app, length_app. lia.
Qed.

Lemma at_most_weaken a b st st' :
  (a <= b)%nat → at_most_requests a st st' → at_most_requests b st st'.
Proof. intros Hab (evs & E & Q). exists evs. split; [auto|lia]. Qed.

Lemma attempt_body_at_most st r st' :
  attempt_body st = (r, st') → at_most_requests 1 st st'.
Proof.
  unfold TokenManager.attempt_body. intros H.
  apply bind_inv in H as [(sel & st1 & Hg & H)|[(e & Hg & ->)|[Hg ->]]];
    try (apply (at_most_weaken 0); [lia|];
         apply silent_at_most; eapply getBestToken_silent; eauto; fail).
  apply (getBestToken_silent net is_request) in Hg; auto.
  apply silent_at_most in Hg. apply (at_most_trans 0 1 _ _ _ Hg). clear Hg.
  assert (Hreq : at_most_requests 1 st1 (upstream_call (EvRequest (tokenId sel)) net st1))
    by (exists [EvRequest (tokenId sel)]; split; [reflexivity | vm_compute; lia]).
  apply bind_inv in H as [(a & st2 & Hc & H)|[(e & Hc & ->)|[Hc ->]]];
    unfold call_requestFn in Hc; inversion Hc; subst; try exact Hreq.
  apply (at_most_trans 1 0 _ _ _ Hreq). apply silent_at_most.
  apply bind_inv in H as [(o & st3 & Hu & H)|[(e & Hu & ->)|[Hu ->]]];
    [inversion H; subst| |]; eapply updateRateLimits_silent; eauto.
Qed.

Lemma resume_at_most v st : at_most_requests 0 st (resume v st).
Proof.
  apply silent_at_most. destruct v; simpl; try apply silent_refl.
  exists [EvSleep ms]. auto.
Qed.

Lemma attempts_at_most n : ∀ attempt lastError st r st',
  attempts n attempt lastError st = (r, st') → at_most_requests n st st'.
Proof.
  induction n as [|n IH]; intros attempt lastError st r st' H.
  - inversion H; subst. apply silent_at_most, silent_refl.
  - destruct (attempt_body st) as [[a|e|] st1] eqn:Hb.
    + simpl in H. unfold try_catch in H. rewrite Hb in H. inversion H; subst.
      apply (at_most_weaken 1); [lia|]. eapply attempt_body_at_most; eauto.
    + rewrite (attempts_step _ _ _ _ _ _ Hb) in H.
      apply attempt_body_at_most in Hb.
      destruct (classify attempt e) eqn:Ec.
      * apply IH in H. apply (at_most_trans 1 n _ _ _ Hb H).
      * apply IH in H. apply (at_most_trans 1 n _ _ _ Hb).
        replace n with (0 + n)%nat by lia.
        eapply at_most_trans; [apply resume_at_most | exact H].
      * inversion H; subst. apply (at_most_weaken 1); [lia|auto].
    + simpl in H. unfold try_catch in H. rewrite Hb in H. inversion H; subst.
      apply (at_most_weaken 1); [lia|]. eapply attempt_body_at_most; eauto.
Qed.

Lemma execute_requests_bound st r st' :
  execute st = (r, st') → (requests_since st st' <= length (tokens st))%nat.
Proof.
  unfold TokenManager.execute. intros H.
  apply attempts_at_most in H as (evs & E & Q).
  unfold requests_since, events_since. rewrite E, drop_app_length. exact Q.
Qed.

(** *** The error that comes out *)

Lemma attempts_exhausted n attempt st errs st' :
  retried n attempt st errs st' →
  ∀ lastError,
    attempts n attempt lastError st =
      (Throw (default (default generic_error lastError) (last errs)), st').
Proof.
  induction 1 as [attempt st | n attempt st e st1 errs st' Hb Hc Hr IH];
    intros lastError.
  - reflexivity.
  - rewrite (attempts_step _ _ _ _ _ _ Hb).
    assert (E : attempts n (attempt + 1) (Some e) (resume (classify attempt e) st1) =
                (Throw (default (default generic_error lastError) (last (e :: errs))), st')).
    { rewrite IH. destruct errs as [|e' errs]; [reflexivity|].
      rewrite last_cons_cons.
      destruct (last (e' :: errs)) eqn:El; [reflexivity|].
      apply last_None in El. discriminate. }
    destruct (classify attempt e); [exact E | exact E | congruence].
Qed.

Lemma attempts_throw_observed n : ∀ attempt lastError st e st',
  attempts n attempt lastError st = (Throw e, st') →
  (n = O ∧ e = default generic_error lastError) ∨
  ∃ st0 st1, attempt_body st0 = (Throw e, st1).
Proof.
  induction n as [|n IH]; intros attempt lastError st e st' H.
  - left. inversion H; subst. auto.
  - right. destruct (attempt_body st) as [[a|e0|] st1] eqn:Hb;
      try (simpl in H; unfold try_catch in H; rewrite Hb in H; discriminate).
    rewrite (attempts_step _ _ _ _ _ _ Hb) in H.
    destruct (classify attempt e0);
      try (apply IH in H as [[_ ->]|H]; [simpl; eauto | exact H]).
    inversion H; subst. eauto.
Qed.

End Execute.
End ExecuteFacts.


Module PoolTheorems.
Import Js JsFacts TokenManager TokenManagerFacts ExecuteFacts PoolExamples.

Lemma getBestToken_selected_has_quota_witness :
  healthy_at 1 one_exhausted ∧
  has_quota core (mkSelection 1 10)
            (snd (getBestToken net_down core one_exhausted)).
Proof.
  destruct (getBestToken_selected_has_quota net_down core one_exhausted
              (mkSelection 1 10) (snd (getBestToken net_down core one_exhausted)))
    as (Hhealthy & Hquota & _).
  - vm_compute. reflexivity.
  - vm_compute. reflexivity.
  - split; [exact Hhealthy | exact Hquota].
Defined.

(** C3. For every request function and every iteration of the retry loop of
    [execute]: (1) when the request rejects with a 4xx status other than a
    403 whose message mentions a rate limit, [execute] rethrows that error at
    once, in the state the request left; (2) when an attempt fails with a
    status of 500 or more, the loop sleeps [2000 * (attempt + 1)] ms and goes
    on with the next attempt; (3) one call makes at most
    [this.tokens.length] requests; (4) when every one of the
    [this.tokens.length] attempts failed and was retried, [execute] throws
    the error of the last attempt; (5) whatever [execute] throws was thrown
    by one of its attempts. *)
Theorem execute_retry_policy net {A} (requestFn : nat → nat → Res A) apiType :
  (∀ n attempt lastError st sel st1 e,
      getBestToken net apiType st = (Ok sel, st1) →
      requestFn (calls st1) (tokenId sel) = Throw e →
      status_ge e 400 && status_lt e 500 = true →
      status_is e 403 && includes "rate limit" (message e) = false →
      attempts net requestFn apiType (S n) attempt lastError st =
        (Throw e, upstream_call (EvRequest (tokenId sel)) net st1)) ∧
  (∀ n attempt lastError st st1 e,
      attempt_body net requestFn apiType st = (Throw e, st1) →
      status_ge e 500 = true →
      attempts net requestFn apiType (S n) attempt lastError st =
        attempts net requestFn apiType n (attempt + 1) (Some e)
                 (snd (sleep (2000 * (attempt + 1)) st1))) ∧
  (∀ st r st',
      execute net requestFn apiType st = (r, st') →
      (requests_since st st' <= length (tokens st))%nat) ∧
  (∀ st errors st',
      tokens st ≠ [] →
      retried net requestFn apiType (length (tokens st)) 0 st errors st' →
      ∃ e, last errors = Some e ∧
           execute net requestFn apiType st = (Throw e, st')) ∧
  (∀ st e st',
      tokens st ≠ [] →
      execute net requestFn apiType st = (Throw e, st') →
      ∃ st0 st1, attempt_body net requestFn apiType st0 = (Throw e, st1)).
Proof.
  split; [|split; [|split; [|split]]].
  - intros n attempt lastError st sel st1 e Hg Hr H4 Hrl.
    rewrite (attempts_step _ _ _ _ _ _ _ _ _ (attempt_body_request_fails _ _ _ _ _ _ _ Hg Hr)).
    rewrite (classify_client_error _ _ H4 Hrl). reflexivity.
  - intros n attempt lastError st st1 e Hb H5.
    rewrite (attempts_step _ _ _ _ _ _ _ _ _ Hb).
    rewrite (classify_server_error _ _ H5). reflexivity.
  - apply execute_requests_bound.
  - intros st errors st' Hne Hr. unfold execute.
    rewrite (attempts_exhausted _ _ _ _ _ _ _ _ Hr None).
    destruct errors as [|e0 errors].
    + inversion Hr as [? ? E|]. destruct (tokens st); [congruence|discriminate].
    + destruct (last (e0 :: errors)) as [e|] eqn:El.
      * exists e. auto.
      * apply last_None in El. discriminate.
  - intros st e st' Hne H. unfold execute in H.
    apply attempts_throw_observed in H as [[E _]|H]; [|exact H].
    destruct (tokens st); [congruence|discriminate].
Qed.

Lemma execute_retry_policy_witness :
  execute net_down (rejects 404 "Not Found") core two_fresh =
    (Throw (mkError (Some 404) "Not Found"),
     upstream_call (EvRequest 0) net_down
       (snd (getBestToken net_down core two_fresh))) ∧
  attempts net_down (rejects 503 "Service Unavailable") core 2 0 None two_fresh =
    attempts net_down (rejects 503 "Service Unavailable") core 1 1
      (Some (mkError (Some 503) "Service Unavailable"))
      (snd (sleep 2000
         (snd (attempt_body net_down (rejects 503 "Service Unavailable") core
                            two_fresh)))) ∧
  (requests_since two_fresh
     (snd (execute net_down (rejects 503 "Service Unavailable") core two_fresh)) <= 2)%nat ∧
  fst (execute net_down (rejects 503 "Service Unavailable") core two_fresh) =
    Throw (mkError (Some 503) "Service Unavailable").
Proof.
  destruct (execute_retry_policy net_down (rejects 404 "Not Found") core)
    as (H4 & _).
  destruct (execute_retry_policy net_down (rejects 503 "Service Unavailable") core)
    as (_ & H5 & Hbound & Hlast & _).
  split; [|split; [|split]].
  - apply (H4 1%nat 0 None two_fresh (mkSelection 0 10)); reflexivity.
  - apply (H5 1%nat 0 None two_fresh); reflexivity.
  - apply (Hbound two_fresh
             (fst (execute net_down (rejects 503 "Service Unavailable") core two_fresh))).
    vm_compute. reflexivity.
  - set (e := mkError (Some 503) "Service Unavailable").
    destruct (Hlast two_fresh [e; e]
                (snd (execute net_down (rejects 503 "Service Unavailable") core two_fresh)))
      as (e' & El & Hx).
    + discriminate.
    + eapply retried_again; [vm_compute; reflexivity | vm_compute; discriminate |].
      eapply retried_again; [vm_compute; reflexivity | vm_compute; discriminate |].
      vm_compute. apply retried_none.
    + rewrite Hx. simpl in El. inversion El; subst. reflexivity.
Defined.

(** C4 (failing input). Token 0 is unhealthy, token 1 is the only healthy
    one and is out of [core] quota until 2000 s. [getBestToken('core')]
    waits for token 1's reset (2 000 000 - 1 000 500 + 1000 ms), but then
    probes and returns token 0, the unhealthy one: the index it keeps is the
    position in the filtered array of healthy tokens, not in [this.tokens]. *)
Theorem getBestToken_wait_path_returns_wrong_token :
  let before := one_unhealthy in
  let result := getBestToken net_token0_revoked core before in
  ¬ healthy_at 0 before ∧ healthy_at 1 before ∧
  resetTimes core before = [(0%nat, 2000000)] ∧
  fst result = Ok (mkSelection 0 0) ∧
  events_since before (snd result) = [EvSleep 1000500; EvProbe 0] ∧
  ¬ healthy_at 0 (snd result) ∧
  tokens (snd result) !! 1%nat = tokens before !! 1%nat.
Proof.
  cbv zeta.
  split; [intros (t & Ht & Hh); vm_compute in Ht; inversion Ht; subst; discriminate|].
  split; [eexists; split; vm_compute; reflexivity|].
  split; [vm_compute; reflexivity|].
  split; [vm_compute; reflexivity|].
  split; [vm_compute; reflexivity|].
  split; [|vm_compute; reflexivity].
  intros (t & Ht & Hh). vm_compute in Ht. inversion Ht; subst. discriminate.
Qed.

End PoolTheorems.


Module HoareFacts.
Import Js JsFacts.

Section Rules.
Context {S : Type}.
Implicit Types P I : S → Prop.

Lemma hoare_conseq {A} P P' (m : M S A) (Q Q' : Res A → S → Prop) :
  hoare P' m Q' → (∀ st, P st → P' st) → (∀ r st, Q' r st → Q r st) →
  hoare P m Q.
Proof. unfold hoare. eauto. Qed.

Lemma hoare_ret {A} P (a : A) (Q : Res A → S → Prop) :
  (∀ st, P st → Q (Ok a) st) → hoare P (ret a) Q.
Proof. intros H st r st' HP E. inversion E; subst. auto. Qed.

Lemma hoare_throw {A} P e (Q : Res A → S → Prop) :
  (∀ st, P st → Q (Throw e) st) → hoare P (throw e) Q.
Proof. intros H st r st' HP E. inversion E; subst. auto. Qed.

Lemma hoare_hang {A} P (Q : Res A → S → Prop) :
  (∀ st, P st → Q Hang st) → hoare P hang Q.
Proof. intros H st r st' HP E. inversion E; subst. auto. Qed.

Lemma hoare_get P (Q : Res S → S → Prop) :
  (∀ st, P st → Q (Ok st) st) → hoare P get Q.
Proof. intros H st r st' HP E. inversion E; subst. auto. Qed.

Lemma hoare_modify P (f : S → S) (Q : Res unit → S → Prop) :
  (∀ st, P st → Q (Ok tt) (f st)) → hoare P (modify f) Q.
Proof. intros H st r st' HP E. inversion E; subst. auto. Qed.

Lemma hoare_bind {A B} P (m : M S A) (k : A → M S B) Q1 (Q : Res B → S → Prop) :
  hoare P m Q1 →
  (∀ a, hoare (Q1 (Ok a)) (k a) Q) →
  (∀ e st, Q1 (Throw e) st → Q (Throw e) st) →
  (∀ st, Q1 Hang st → Q Hang st) →
  hoare P (bind m k) Q.
Proof.
  intros Hm Hk He Hh st r st' HP E.
  apply bind_inv in E as [(a & st1 & E1 & E2)|[(e & E1 & ->)|[E1 ->]]].
  - eapply Hk; [|exact E2]. eapply Hm; eauto.
  - apply He. eapply Hm; eauto.
  - apply Hh. eapply Hm; eauto.
Qed.

Lemma hoare_try_catch {A} P (m : M S A) (h : Error → M S A) Q1 (Q : Res A → S → Prop) :
  hoare P m Q1 →
  (∀ e, hoare (Q1 (Throw e)) (h e) Q) →
  (∀ a st, Q1 (Ok a) st → Q (Ok a) st) →
  (∀ st, Q1 Hang st → Q Hang st) →
  hoare P (try_catch m h) Q.
Proof.
  intros Hm Hh Ha Hg st r st' HP E. unfold try_catch in E.
  destruct (m st) as [[a|e|] st1] eqn:E1.
  - inversion E; subst. apply Ha. eapply Hm; eauto.
  - eapply Hh; [|exact E]. eapply Hm; eauto.
  - inversion E; subst. apply Hg. eapply Hm; eauto.
Qed.

Lemma hoare_finally {A} P (m : M S A) (cleanup : S → S) Q1 (Q : Res A → S → Prop) :
  hoare P m Q1 → (∀ r st, Q1 r st → Q r (cleanup st)) →
  hoare P (finally m cleanup) Q.
Proof.
  intros Hm Hc st r st' HP E. unfold finally in E.
  destruct (m st) as [r1 st1] eqn:E1. inversion E; subst.
  apply Hc. eapply Hm; eauto.
Qed.

Lemma hoare_lift {T A} P (proj : S → T) (inj : T → S → S) (m : M T A)
      (P' : T → Prop) (Q' : Res A → T → Prop) (Q : Res A → S → Prop) :
  hoare P' m Q' →
  (∀ st, P st → P' (proj st)) →
  (∀ st r t', P st → Q' r t' → Q r (inj t' st)) →
  hoare P (lift proj inj m) Q.
Proof.
  intros Hm HP' HQ st r st' HP E. unfold lift in E.
  destruct (m (proj st)) as [r1 t1] eqn:E1. inversion E; subst.
  apply HQ; [exact HP|]. eapply Hm; eauto.
Qed.

(** Invariants. *)

Lemma preserves_ret {A} I (a : A) : preserves I (ret a).
Proof. apply hoare_ret. auto. Qed.

Lemma preserves_throw {A} I e : preserves I (throw (A:=A) e).
Proof. apply hoare_throw. auto. Qed.

Lemma preserves_hang {A} I : preserves I (hang (A:=A)).
Proof. apply hoare_hang. auto. Qed.

Lemma preserves_get I : preserves I get.
Proof. apply hoare_get. auto. Qed.

Lemma preserves_modify I (f : S → S) :
  (∀ st, I st → I (f st)) → preserves I (modify f).
Proof. intros H. apply hoare_modify. auto. Qed.

Lemma preserves_bind {A B} I (m : M S A) (k : A → M S B) :
  preserves I m → (∀ a, preserves I (k a)) → preserves I (bind m k).
Proof. intros Hm Hk. eapply hoare_bind; eauto. Qed.

Lemma preserves_try_catch {A} I (m : M S A) (h : Error → M S A) :
  preserves I m → (∀ e, preserves I (h e)) → preserves I (try_catch m h).
Proof. intros Hm Hh. eapply hoare_try_catch; eauto. Qed.

(** A method of a component preserves whatever does not depend on the
    component. *)
Lemma preserves_lift_frame {T A} I (proj : S → T) (inj : T → S → S) (m : M T A) :
  (∀ st t', I st → I (inj t' st)) → preserves I (lift proj inj m).
Proof.
  intros H. apply (hoare_lift I proj inj m (λ _, True) (λ _ _, True)); auto.
  intros st r st' _ _. exact Logic.I.
Qed.

End Rules.

(** One structural step of an invariant proof. *)
Ltac preserves_step :=
  lazymatch goal with
  | |- preserves _ (bind _ _) => apply preserves_bind; [|intros ?]
  | |- preserves _ (try_catch _ _) => apply preserves_try_catch; [|intros ?]
  | |- preserves _ (ret _) => apply preserves_ret
  | |- preserves _ (throw _) => apply preserves_throw
  | |- preserves _ hang => apply preserves_hang
  | |- preserves _ get => apply preserves_get
  | |- preserves _ (match ?x with _ => _ end) => destruct x
  | |- preserves _ (let _ := _ in _) => cbv zeta
  end.

End HoareFacts.


Module GitHubServiceFacts.
Import Js JsFacts HoareFacts TokenManager GitHubService PoolExamples ServiceExamples.

Section Service.
Context (up : Upstream).

(** A 404 never leaves [getContributorsActivity]: it becomes [null]. *)
Lemma getContributorsActivity_no_404 fuel owner repo st e st' :
  getContributorsActivity up fuel owner repo st = (Throw e, st') →
  status_is e 404 = false.
Proof.
  destruct fuel as [|fuel]; simpl; [discriminate|].
  unfold try_catch. destruct (bind _ _ st) as [[x|e0|] st1]; try discriminate.
  destruct (status_is e0 404) eqn:E; [discriminate|].
  intros H; inversion H; subst. exact E.
Qed.

Lemma getContributorsActivity_poll fuel owner repo st response st1 :
  execute up core (stats_api up owner repo) st = (Ok response, st1) →
  resp_status response = 202 →
  getContributorsActivity up (S fuel) owner repo st =
    getContributorsActivity up fuel owner repo (snd (sleep 2000 st1)).
Proof.
  intros Hx H202. simpl. unfold try_catch.
  rewrite (bind_ok _ _ _ _ _ Hx), H202. simpl.
  rewrite (bind_ok (sleep 2000) _ st1 tt (snd (sleep 2000 st1))) by reflexivity.
  destruct (getContributorsActivity up fuel owner repo _) as [[x|e|] st2] eqn:E;
    try reflexivity.
  apply getContributorsActivity_no_404 in E. rewrite E. reflexivity.
Qed.

Lemma getContributorsActivity_ready fuel owner repo st response st1 :
  execute up core (stats_api up owner repo) st = (Ok response, st1) →
  resp_status response ≠ 202 →
  getContributorsActivity up (S fuel) owner repo st =
    (Ok (Some (default [] (data response))), st1).
Proof.
  intros Hx H202. simpl. unfold try_catch.
  rewrite (bind_ok _ _ _ _ _ Hx).
  destruct (resp_status response =? 202) eqn:E; [lia|]. reflexivity.
Qed.

Lemma getContributorsActivity_not_found fuel owner repo st e st1 :
  execute up core (stats_api up owner repo) st = (Throw e, st1) →
  status_is e 404 = true →
  getContributorsActivity up (S fuel) owner repo st = (Ok None, st1).
Proof.
  intros Hx H404. simpl. unfold try_catch.
  rewrite (bind_throw _ _ _ _ _ Hx), H404. reflexivity.
Qed.

Lemma getContributorsActivity_polled owner repo k st st' :
  polled up owner repo k st st' →
  ∀ fuel, getContributorsActivity up (k + fuel) owner repo st =
          getContributorsActivity up fuel owner repo st'.
Proof.
  induction 1 as [st | k st response st1 st' Hx H202 Hp IH]; intros fuel.
  - reflexivity.
  - simpl plus. rewrite (getContributorsActivity_poll _ _ _ _ _ _ Hx H202). apply IH.
Qed.

End Service.

(** C9. In [getContributorsActivity]: (1) a 202 answer makes the method wait
    2000 ms and call itself with the same [owner] and [repo], whose outcome
    is the outcome of the call; (2) however many 202 answers have come in a
    row, the method is still polling: after [k] of them a budget of [k]
    calls is used up without a result, so no attempt cap ends the loop;
    (3) it returns as soon as an answer is not a 202: if the answer after
    [k] polls has another status, every budget above [k] yields its data. *)
Theorem getContributorsActivity_polls_without_cap up owner repo :
  (∀ fuel st response st1,
      execute up core (stats_api up owner repo) st = (Ok response, st1) →
      resp_status response = 202 →
      getContributorsActivity up (S fuel) owner repo st =
        getContributorsActivity up fuel owner repo (snd (sleep 2000 st1)) ∧
      trace (snd (sleep 2000 st1)) = trace st1 ++ [EvSleep 2000]) ∧
  (∀ k st st',
      polled up owner repo k st st' →
      getContributorsActivity up k owner repo st = (Hang, st')) ∧
  (∀ k st st' response st1 fuel,
      polled up owner repo k st st' →
      execute up core (stats_api up owner repo) st' = (Ok response, st1) →
      resp_status response ≠ 202 →
      (k < fuel)%nat →
      getContributorsActivity up fuel owner repo st =
        (Ok (Some (default [] (data response))), st1)).
Proof.
  split; [|split].
  - intros fuel st response st1 Hx H202. split; [|reflexivity].
    exact (getContributorsActivity_poll up fuel owner repo st response st1 Hx H202).
  - intros k st st' Hp.
    replace k with (k + 0)%nat by lia.
    rewrite (getContributorsActivity_polled _ _ _ _ _ _ Hp). reflexivity.
  - intros k st st' response st1 fuel Hp Hx H202 Hk.
    replace fuel with (k + S (fuel - k - 1))%nat by lia.
    rewrite (getContributorsActivity_polled _ _ _ _ _ _ Hp).
    apply getContributorsActivity_ready; auto.
Qed.

Lemma getContributorsActivity_polls_without_cap_witness :
  getContributorsActivity stats_ready_later 2 "acme" "gone" two_fresh =
    (Hang, snd (getContributorsActivity stats_ready_later 2 "acme" "gone" two_fresh)) ∧
  fst (getContributorsActivity stats_ready_later 3 "acme" "gone" two_fresh) =
    Ok (Some [mkContribution (Some "alice") alice_weeks]).
Proof.
  destruct (getContributorsActivity_polls_without_cap stats_ready_later "acme" "gone")
    as (_ & Hcap & Hready).
  set (st2 := snd (getContributorsActivity stats_ready_later 2 "acme" "gone" two_fresh)).
  assert (Hp : polled stats_ready_later "acme" "gone" 2 two_fresh st2).
  { eapply polled_again; [vm_compute; reflexivity | reflexivity |].
    eapply polled_again; [vm_compute; reflexivity | reflexivity |].
    vm_compute. apply polled_zero. }
  split.
  - apply (Hcap 2%nat two_fresh st2 Hp).
  - rewrite (Hready 2%nat two_fresh st2
               (mkResponse 200 (Some [mkContribution (Some "alice") alice_weeks]))
               (snd (execute stats_ready_later core
                       (stats_api stats_ready_later "acme" "gone") st2))
               3%nat Hp); [reflexivity | vm_compute; reflexivity | discriminate | lia].
Defined.

(** C10. Construction fails at once when there is no token: the manager
    rejects a missing and an empty list, the service (and with it both
    workers) rejects an empty [config.github.tokens]; with at least one token
    construction succeeds and the pool has one entry per token. *)
Theorem constructors_reject_empty_token_list clock calls trace db :
  TokenManager.constructor None clock calls trace =
    inl (mkError None "No GitHub tokens provided") ∧
  TokenManager.constructor (Some []) clock calls trace =
    inl (mkError None "No GitHub tokens provided") ∧
  GitHubService.constructor [] clock calls trace =
    inl (mkError None "No GitHub tokens configured") ∧
  DeveloperActivityWorker.constructor [] clock calls trace db =
    inl (mkError None "No GitHub tokens configured") ∧
  RepositoryDiscoveryWorker.constructor [] clock calls trace db =
    inl (mkError None "No GitHub tokens configured") ∧
  (∀ t ts, ∃ st,
      GitHubService.constructor (t :: ts) clock calls trace = inr st ∧
      TokenManager.constructor (Some (t :: ts)) clock calls trace = inr st ∧
      length (tokens st) = S (length ts) ∧
      TokenManager.trace st = trace ∧ TokenManager.calls st = calls).
Proof.
  repeat split; try reflexivity.
  intros t ts. eexists. repeat split; simpl; try reflexivity.
  rewrite length_imap. reflexivity.
Qed.

End GitHubServiceFacts.


Module DatabaseFacts.
Import Js JsFacts HoareFacts DatabaseService.

Lemma statement_preserves {A} db_error (J : DB → Prop) (f : DB → A * DB) :
  (∀ db n, J db →
     J (mkDB (repos db) (developers db) (activities db) (repoTypes db) n)) →
  (∀ db, J db → J (snd (f db))) →
  preserves J (statement db_error f).
Proof.
  intros Hn Hf db r db' HJ E. unfold statement in E.
  destruct (db_error (statements db)).
  - inversion E; subst. apply Hn, HJ.
  - destruct (f _) as [a db1] eqn:Ef. inversion E; subst.
    change db' with (snd (a, db')). rewrite <- Ef. apply Hf, Hn, HJ.
Qed.

End DatabaseFacts.

Module ActivityFacts.
Import Js JsFacts HoareFacts TokenManager GitHubService GitHubServiceFacts.
Import DatabaseService DatabaseFacts Config DeveloperActivityWorker.
Import PoolExamples ServiceExamples.

(** The methods of the worker below [run] preserve every property of the
    store that calls into the GitHub service preserve and that the reads
    and inserts of developers and activities preserve. *)
Section Invariant.
Context (env : Env) (fuel : nat) (I : State → Prop).
Hypothesis I_gh : ∀ st g, I st → I (set_githubService g st).
Hypothesis I_getDeveloper : ∀ u, preserves I (dbs (getDeveloper (db_error env) u)).
Hypothesis I_upsertDeveloper : ∀ x, preserves I (dbs (upsertDeveloper (db_error env) x)).
Hypothesis I_bulkCreateActivities :
  ∀ l, preserves I (dbs (bulkCreateActivities (db_error env) l)).

Lemma gh_preserves {A} (m : M TokenManager.State A) : preserves I (gh m).
Proof. apply preserves_lift_frame. intros st g. apply I_gh. Qed.

Lemma processContributor_preserves contribution repositoryId referenceTime :
  preserves I (processContributor env contribution repositoryId referenceTime).
Proof.
  unfold processContributor.
  repeat first [ apply gh_preserves | apply I_getDeveloper | apply I_upsertDeveloper
               | apply I_bulkCreateActivities | preserves_step ].
Qed.

(** The loop over the contributors preserves [I] and never throws. *)
Lemma process_contributors_spec contributorsData repositoryId referenceTime :
  hoare I (process_contributors env contributorsData repositoryId referenceTime)
        (λ r st, I st ∧ ∀ e, r ≠ Throw e).
Proof.
  induction contributorsData as [|x l IH]; simpl.
  - apply hoare_ret. split; [auto|discriminate].
  - eapply (hoare_bind _ _ _ (λ r st, I st ∧ ∀ e, r ≠ Throw e)).
    + eapply (hoare_try_catch _ _ _ (λ _, I)).
      * apply processContributor_preserves.
      * intros e. apply hoare_ret. split; [auto|discriminate].
      * intros [] st H. split; [auto|discriminate].
      * intros st H. split; [auto|discriminate].
    + intros []. eapply hoare_conseq; [exact IH| |]; simpl; tauto.
    + intros e st [_ H]. destruct (H e eq_refl).
    + intros st [H _]. split; [auto|discriminate].
Qed.

(** [processRepository] preserves [I], and the errors it throws are not 404s. *)
Lemma processRepository_spec repo referenceTime :
  hoare I (processRepository env fuel repo referenceTime)
        (λ r st, I st ∧ ∀ e, r = Throw e → status_is e 404 = false).
Proof.
  unfold processRepository.
  eapply (hoare_try_catch _ _ _
            (λ r st, I st ∧ ∀ e, r = Throw e → status_is e 404 = false)).
  - eapply (hoare_bind _ _ _
              (λ r st, I st ∧ ∀ e, r = Throw e → status_is e 404 = false)).
    + apply (hoare_lift I _ _ _ (λ _, True)
               (λ r _, ∀ e, r = Throw e → status_is e 404 = false)).
      * intros st r st' _ E e ->.
        eapply getContributorsActivity_no_404; eauto.
      * auto.
      * intros st r g HI Hr. split; [apply I_gh, HI | exact Hr].
    + intros [[|x l]|]; cbv beta iota;
        try (apply hoare_ret; intros st [HI _]; split; [auto|discriminate]).
      eapply hoare_conseq; [apply process_contributors_spec| |]; cbv beta.
      * tauto.
      * intros r st [HI Hr]. split; [auto|]. intros e ->. destruct (Hr e eq_refl).
    + intros e st [HI Hr]. split; [auto|].
      intros e0 E. inversion E; subst. apply Hr. reflexivity.
    + intros st [HI _]. split; [auto|discriminate].
  - intros e. apply hoare_throw. intros st [HI Hr]. split; [auto|].
    intros e' E. inversion E; subst. auto.
  - intros [] st [HI _]. split; [auto|discriminate].
  - intros st [HI _]. split; [auto|discriminate].
Qed.

(** The loop of [processBatch]: the branch that marks a repository as
    closed source is never taken. *)
Lemma process_repos_preserves repos referenceTime : ∀ processedCount errorCount,
  preserves I (process_repos env fuel repos referenceTime processedCount errorCount).
Proof.
  induction repos as [|repo rest IH]; intros processedCount errorCount; simpl.
  - apply preserves_ret.
  - apply preserves_bind; [|intros [p e]; apply IH].
    eapply (hoare_try_catch _ _ _
              (λ r st, I st ∧ ∀ e, r = Throw e → status_is e 404 = false)).
    + eapply hoare_bind; [apply processRepository_spec| | |]; cbv beta.
      * intros []. apply hoare_ret. intros st [HI _]. split; [auto|discriminate].
      * intros e st [HI Hr]. split; [auto|].
        intros e0 E. inversion E; subst. apply Hr. reflexivity.
      * intros st [HI _]. split; [auto|discriminate].
    + intros e st r st' [HI Hr]. rewrite (Hr e eq_refl).
      intros E. inversion E; subst. exact HI.
    + intros a st [HI _]. exact HI.
    + intros st [HI _]. exact HI.
Qed.

Lemma processBatch_preserves repos : preserves I (processBatch env fuel repos).
Proof.
  unfold processBatch. apply preserves_bind; [apply preserves_get|].
  intros st. apply process_repos_preserves.
Qed.

Hypothesis I_getRepositoriesForProcessing :
  ∀ eco limit offset,
    preserves I (dbs (getRepositoriesForProcessing (db_error env) eco limit offset)).
Hypothesis I_getRepositoriesWithoutActivities :
  ∀ limit, preserves I (dbs (getRepositoriesWithoutActivities (db_error env) limit)).

Lemma run_loop_preserves rounds : ∀ offset totalProcessed totalErrors,
  preserves I (run_loop env fuel rounds offset totalProcessed totalErrors).
Proof.
  induction rounds as [|rounds IH]; intros offset totalProcessed totalErrors; simpl.
  - apply preserves_hang.
  - apply preserves_bind; [apply I_getRepositoriesForProcessing|]. intros repos.
    destruct (bool_decide _); [apply preserves_ret|].
    apply preserves_bind; [apply processBatch_preserves|]. intros counts.
    apply preserves_bind; [apply gh_preserves|]. intros _. apply IH.
Qed.

Lemma backfill_loop_preserves rounds : ∀ totalProcessed totalErrors,
  preserves I (backfill_loop env fuel rounds totalProcessed totalErrors).
Proof.
  induction rounds as [|rounds IH]; intros totalProcessed totalErrors; simpl.
  - apply preserves_hang.
  - apply preserves_bind; [apply I_getRepositoriesWithoutActivities|]. intros repos.
    destruct (bool_decide _); [apply preserves_ret|].
    apply preserves_bind; [apply processBatch_preserves|]. intros counts.
    apply preserves_bind; [apply gh_preserves|]. intros _. apply IH.
Qed.

End Invariant.

(** Reads and inserts in other tables leave the repositories table alone. *)
Lemma dbs_keeps_repos {A} db_error (f : DB → A * DB) R :
  (∀ db, repos (snd (f db)) = repos db) →
  preserves (λ st, repos (dbService st) = R) (dbs (statement db_error f)).
Proof.
  intros Hf.
  apply (hoare_lift _ _ _ _ (λ db, repos db = R) (λ _ db, repos db = R)); auto.
  apply statement_preserves; [auto|]. intros db <-. apply Hf.
Qed.


(** [processBatch] never changes the repositories table: in particular it
    never sets [isClosedSource]. *)
Lemma processBatch_keeps_repos env fuel repos_ st r st' :
  processBatch env fuel repos_ st = (r, st') →
  repos (dbService st') = repos (dbService st).
Proof.
  intros E.
  apply (processBatch_preserves env fuel (λ x, repos (dbService x) = repos (dbService st)))
    in E; auto.
  - intros u. apply dbs_keeps_repos. reflexivity.
  - intros x. apply dbs_keeps_repos. intros db. simpl.
    destruct (head _); reflexivity.
  - intros l. apply dbs_keeps_repos. reflexivity.
Qed.

(** C5. The reference time is 26 weeks before the current time in seconds,
    and the activity filter of [processContributor] keeps, in their order,
    exactly the weekly entries with [c !== 0] and [w > referenceTime]: an
    entry with no commits, or whose week is at or before the reference time,
    is dropped. *)
Theorem recent_activities_exact now (weeks : list Week) :
  let referenceTime := referenceTime_at now in
  referenceTime = now / 1000 - 26 * 7 * 86400 ∧
  recent_activities referenceTime weeks `sublist_of` weeks ∧
  (∀ item, item ∈ recent_activities referenceTime weeks ↔
           item ∈ weeks ∧ c item ≠ 0 ∧ w item > referenceTime) ∧
  (∀ item, c item = 0 ∨ w item <= referenceTime →
           item ∉ recent_activities referenceTime weeks).
Proof.
  simpl. split; [|split; [|split]].
  - unfold referenceTime_at. lia.
  - apply sublist_filter.
  - intros item. unfold recent_activities. rewrite list_elem_of_filter. tauto.
  - intros item Hout Hin. unfold recent_activities in Hin.
    apply list_elem_of_filter in Hin as [[Hc Hw] _]. lia.
Qed.

End ActivityFacts.


Module ActivityTheorems.
Import Js JsFacts HoareFacts TokenManager GitHubService GitHubServiceFacts.
Import DatabaseService DatabaseFacts Config DeveloperActivityWorker ActivityFacts.
Import PoolExamples ServiceExamples.

(** C6 (failing input). The statistics request for the only repository of
    the batch answers 404. [getContributorsActivity] turns the 404 into
    [null], so [processRepository] returns normally: the batch counts the
    repository as processed, with no error, and [isClosedSource] stays
    [false]. In backfill mode the repository is then selected again by every
    following iteration: three rounds make three statistics requests for it.
    In general [processBatch] never changes the repositories table. *)
Theorem processBatch_ignores_not_found :
  let env := env_of stats_not_found in
  (∀ n tokenId, stats_api (up env) "acme" "gone" n tokenId = not_found) ∧
  fst (processBatch env 5 [gone_repo] activity_worker) = Ok (1, 0) ∧
  repos (dbService (snd (processBatch env 5 [gone_repo] activity_worker))) = [gone_repo] ∧
  isClosedSource (row gone_repo) = false ∧
  fst (runBackfill env 5 3 activity_worker) = Hang ∧
  trace (githubService (snd (runBackfill env 5 3 activity_worker))) =
    [EvRequest 0; EvSleep 5000; EvRequest 1; EvSleep 5000; EvRequest 0; EvSleep 5000] ∧
  (∀ env fuel batch st r st',
      processBatch env fuel batch st = (r, st') →
      repos (dbService st') = repos (dbService st)).
Proof.
  cbv zeta.
  split; [intros; reflexivity|].
  split; [vm_compute; reflexivity|].
  split; [vm_compute; reflexivity|].
  split; [reflexivity|].
  split; [vm_compute; reflexivity|].
  split; [vm_compute; reflexivity|].
  intros env fuel batch st r st'. apply processBatch_keeps_repos.
Qed.


End ActivityTheorems.


Module DiscoveryFacts.
Import Js JsFacts HoareFacts TokenManager GitHubService.
Import DatabaseService DatabaseFacts Config RepositoryDiscoveryWorker.
Import PoolExamples ServiceExamples.

(** *** Insert-ignore *)

Lemma insert_repo_ignore_app l r :
  ∃ added, insert_repo_ignore l r = l ++ added ∧ row <$> added `sublist_of` [r].
Proof.
  unfold insert_repo_ignore. destruct (existsb _ l).
  - exists []. rewrite app_nil_r. split; [auto|]. apply sublist_nil_l.
  - eexists. split; [reflexivity|]. reflexivity.
Qed.

Lemma bulk_insert_app reposData : ∀ l,
  ∃ added, fold_left insert_repo_ignore reposData l = l ++ added ∧
           row <$> added `sublist_of` reposData.
Proof.
  induction reposData as [|r rest IH]; intros l; simpl.
  - exists []. rewrite app_nil_r. split; [auto|]. constructor.
  - destruct (insert_repo_ignore_app l r) as (a1 & -> & S1).
    destruct (IH (l ++ a1)) as (a2 & -> & S2).
    exists (a1 ++ a2). rewrite <- app_assoc. split; [auto|].
    rewrite fmap_app. change (r :: rest) with ([r] ++ rest).
    apply sublist_app; auto.
Qed.

(** A row whose [repoId] is already stored is ignored. *)
Lemma insert_repo_ignore_duplicate l r :
  (∃ x, x ∈ l ∧ repoId (row x) = repoId r) → insert_repo_ignore l r = l.
Proof.
  intros (x & Hx & E). unfold insert_repo_ignore.
  destruct (existsb _ l) eqn:Ex; [reflexivity|].
  exfalso. apply not_true_iff_false in Ex. apply Ex.
  apply existsb_exists. exists x. split.
  - apply list_elem_of_In, Hx.
  - apply bool_decide_eq_true. exact E.
Qed.

(** *** The invariant *)

Section Dedup.
Context (env : Env) (fuel : nat) (before : list RepoRow).

Local Abbreviation Inv := (dedup_inv before).

Lemma inv_weaken pending st : Inv pending st → Inv [] st.
Proof.
  intros (new & E & N & K). exists new. rewrite app_nil_r. split; [auto|]. split.
  - rewrite fmap_app in N. apply NoDup_app in N as (N & _ & _). exact N.
  - intros r Hr. apply K. apply elem_of_app. auto.
Qed.

Lemma inv_prefix pending more st : Inv (pending ++ more) st → Inv pending st.
Proof.
  intros (new & E & N & K). exists new. split; [auto|]. split.
  - rewrite app_assoc, fmap_app in N. apply NoDup_app in N as (N & _ & _). exact N.
  - intros r Hr. apply K. rewrite app_assoc. apply elem_of_app. auto.
Qed.

Lemma inv_gh pending st g : Inv pending st → Inv pending (set_githubService g st).
Proof. intros (new & E & N & K). exists new. auto. Qed.

Lemma inv_add pending st k : Inv pending st → Inv pending (add_processedRepo k st).
Proof.
  intros (new & E & N & K). exists new. repeat split; auto.
  intros r Hr. simpl. apply elem_of_union. right. auto.
Qed.

Lemma inv_push pending st x :
  Inv pending st → key_of_row x ∉ processedRepos st →
  Inv (pending ++ [x]) (add_processedRepo (key_of_row x) st).
Proof.
  intros (new & E & N & K) Hx. exists new. split; [auto|]. split.
  - rewrite app_assoc, fmap_app. apply NoDup_app. split; [exact N|]. split.
    + intros k Hk Hk'. apply list_elem_of_singleton in Hk'. subst k.
      apply list_elem_of_fmap in Hk as (r & Er & Hr). apply Hx. rewrite Er. auto.
    + apply NoDup_singleton.
  - intros r Hr. simpl. apply elem_of_union.
    rewrite app_assoc in Hr. apply elem_of_app in Hr as [Hr|Hr].
    + right. auto.
    + left. apply list_elem_of_singleton in Hr. subst. apply elem_of_singleton. auto.
Qed.

Lemma inv_same_tables pending st st' :
  Inv pending st →
  repos (dbService st') = repos (dbService st) →
  processedRepos st' = processedRepos st →
  Inv pending st'.
Proof. intros (new & E & N & K) Er Ep. exists new. rewrite Er, Ep. auto. Qed.

(** Statements that leave the repositories table alone. *)
Lemma statement_read_repos {A} (f : DB → A * DB) db r db' :
  (∀ x, repos (snd (f x)) = repos x) →
  statement (db_error env) f db = (r, db') → repos db' = repos db.
Proof.
  intros Hf. unfold statement. destruct (db_error env (statements db)).
  - intros E; inversion E; subst. reflexivity.
  - destruct (f _) as [a db1] eqn:Ef. intros E; inversion E; subst.
    change db' with (snd (a, db')). rewrite <- Ef, Hf. reflexivity.
Qed.

Lemma inv_dbs_read {A} (f : DB → A * DB) pending :
  (∀ x, repos (snd (f x)) = repos x) →
  preserves (Inv pending) (dbs (statement (db_error env) f)).
Proof.
  intros Hf st r st' HI E. unfold dbs, lift in E.
  destruct (statement _ _ (dbService st)) as [r0 db'] eqn:Es. inversion E; subst.
  eapply inv_same_tables; [exact HI| |reflexivity]. simpl.
  eapply statement_read_repos; eauto.
Qed.

(** The batch insert stores a sublist of the pending rows. *)
Lemma bulkCreateRepositories_inv pending :
  hoare (Inv pending) (dbs (bulkCreateRepositories (db_error env) pending))
        (λ _, Inv []).
Proof.
  intros st r st' HI E. unfold dbs, lift, bulkCreateRepositories, statement in E.
  destruct (db_error env (statements (dbService st))).
  - inversion E; subst. apply inv_weaken in HI.
    eapply inv_same_tables; [exact HI| |]; reflexivity.
  - inversion E; subst. clear E. destruct HI as (new & E & N & K). simpl in *.
    destruct (bulk_insert_app pending (repos (dbService st))) as (added & Ea & Sa).
    exists (new ++ added). rewrite Ea, E, <- app_assoc, app_nil_r.
    split; [reflexivity|].
    assert (Hsub : row <$> (new ++ added) `sublist_of` (row <$> new) ++ pending)
      by (rewrite fmap_app; apply sublist_app; [reflexivity | exact Sa]).
    split.
    + apply (sublist_NoDup _ (key_of_row <$> (row <$> new) ++ pending));
        [exact N | apply fmap_sublist, Hsub].
    + intros r Hr. apply K. eapply sublist_subseteq; eauto.
Qed.

Lemma inv_gh_preserves {A} (P : State → Prop) (m : M TokenManager.State A) :
  (∀ st g, P st → P (set_githubService g st)) → preserves P (gh m).
Proof. intros H. apply preserves_lift_frame. exact H. Qed.

Local Abbreviation Post := (dedup_post fst before).
Local Abbreviation Post' := (dedup_post (λ x, x) before).

(** One item of a code search page. *)
Lemma process_code_items_spec items eco type : ∀ reposData repoTypesData,
  hoare (Inv reposData)
        (process_code_items env items eco type reposData repoTypesData) Post.
Proof.
  induction items as [|item rest IH]; intros rd rt; simpl.
  - apply hoare_ret. auto.
  - eapply (hoare_bind _ _ _ Post); [| intros [rd' rt']; apply IH | auto | auto].
    destruct (repository item) as [repo|]; [|apply hoare_ret; auto].
    destruct (_ || _); [apply hoare_ret; auto|].
    set (key := repoKey_of (repo_owner_login repo) (repo_name repo)).
    eapply (hoare_bind _ _ _ (λ r st, Inv rd st ∧ r = Ok st));
      [apply hoare_get; auto | | intros e st [_ H]; discriminate
      | intros st [_ H]; discriminate].
    intros st0. destruct (bool_decide (key ∈ processedRepos st0)) eqn:Hk.
    { apply hoare_ret. intros st [HI _]. exact HI. }
    apply bool_decide_eq_false in Hk.
    eapply (hoare_try_catch _ _ _
              (λ r st, match r with
                       | Ok data => Inv (fst data) st
                       | Throw _ => Inv rd st
                       | Hang => Inv [] st
                       end)).
    + eapply (hoare_bind _ _ _ (λ _ st, Inv rd st ∧ key ∉ processedRepos st)).
      * intros st r st' [HI E] Eg. inversion E; subst st0.
        apply (inv_gh_preserves (λ x, Inv rd x ∧ key ∉ processedRepos x)) in Eg;
          [exact Eg | | auto].
        intros x g [H1 H2]. split; [apply inv_gh, H1 | exact H2].
      * intros [details|]; [|apply hoare_ret; intros st [HI _]; exact HI].
        eapply (hoare_bind _ _ _ (λ _ st, Inv (rd ++ [_]) st)).
        -- apply hoare_modify. intros st [HI Hn].
           eapply (inv_push rd st (mkRepoData _ _ _ _ _ _ _ _ _)); [exact HI | exact Hn].
        -- intros []. apply hoare_ret. intros st HI. exact HI.
        -- intros e st HI. eapply inv_prefix, HI.
        -- intros st HI. eapply inv_weaken, HI.
      * intros e st [HI _]. exact HI.
      * intros st [HI _]. eapply inv_weaken, HI.
    + intros e. apply hoare_ret. auto.
    + intros [rd' rt'] st HI. exact HI.
    + intros st HI. exact HI.
Qed.


Lemma bulkCreateRepositories_step reposData :
  hoare (Inv reposData)
        (if bool_decide (0 < length reposData)%nat
         then try_catch (dbs (bulkCreateRepositories (db_error env) reposData))
                        (λ error, ret tt)
         else ret tt)
        (λ _, Inv []).
Proof.
  destruct (bool_decide _).
  - eapply hoare_try_catch; [apply bulkCreateRepositories_inv | | auto | auto].
    intros e. apply hoare_ret. auto.
  - apply hoare_ret. intros st. apply inv_weaken.
Qed.

Lemma processCodeSearchResults_preserves items eco type :
  preserves (Inv []) (processCodeSearchResults env items eco type).
Proof.
  unfold processCodeSearchResults.
  eapply (hoare_bind _ _ _ Post); [apply process_code_items_spec | | auto | auto].
  intros [rd rt]. simpl.
  eapply (hoare_bind _ _ _ (λ _, Inv [])); [apply bulkCreateRepositories_step | | auto | auto].
  intros _. apply preserves_bind; [|intros; apply preserves_ret].
  destruct (bool_decide _); [|apply preserves_ret].
  apply preserves_try_catch; [|intros; apply preserves_ret].
  apply inv_dbs_read. reflexivity.
Qed.

Lemma process_repo_items_spec items eco : ∀ reposData,
  hoare (Inv reposData) (process_repo_items env items eco reposData) Post'.
Proof.
  induction items as [|repo rest IH]; intros rd; simpl.
  - apply hoare_ret. auto.
  - set (key := repoKey_of (ri_owner_login repo) (ri_name repo)).
    eapply (hoare_bind _ _ _ (λ r st, Inv rd st ∧ r = Ok st));
      [apply hoare_get; auto | | intros e st [_ H]; discriminate
      | intros st [_ H]; discriminate].
    intros st0.
    eapply (hoare_bind _ _ _ Post'); [| intros rd'; apply IH | auto | auto].
    destruct (bool_decide (key ∈ processedRepos st0)) eqn:Hk.
    { apply hoare_ret. intros st [HI _]. exact HI. }
    apply bool_decide_eq_false in Hk.
    eapply (hoare_try_catch _ _ _
              (λ r st, match r with
                       | Ok data => Inv data st
                       | Throw _ => Inv rd st
                       | Hang => Inv [] st
                       end)).
    + eapply (hoare_bind _ _ _ (λ _ st, Inv rd st ∧ key ∉ processedRepos st)).
      * intros st r st' [HI E] Eg. inversion E; subst st0.
        unfold dbs, lift in Eg.
        destruct (repositoryExists _ _ (dbService st)) as [r0 db'] eqn:Es.
        inversion Eg; subst. split; [|exact Hk].
        eapply inv_same_tables; [exact HI| |reflexivity]. simpl.
        eapply statement_read_repos; [|exact Es]. reflexivity.
      * intros [|].
        -- eapply (hoare_bind _ _ _ (λ _ st, Inv rd st)).
           ++ apply hoare_modify. intros st [HI _]. apply inv_add, HI.
           ++ intros []. apply hoare_ret. auto.
           ++ auto.
           ++ intros st HI. eapply inv_weaken, HI.
        -- eapply (hoare_bind _ _ _ (λ _ st, Inv (rd ++ [_]) st)).
           ++ apply hoare_modify. intros st [HI Hn].
              eapply (inv_push rd st (mkRepoData _ _ _ _ _ _ _ _ _)); [exact HI | exact Hn].
           ++ intros []. apply hoare_ret. intros st HI. exact HI.
           ++ intros e st HI. eapply inv_prefix, HI.
           ++ intros st HI. eapply inv_weaken, HI.
      * intros e st [HI _]. exact HI.
      * intros st [HI _]. eapply inv_weaken, HI.
    + intros e. apply hoare_ret. auto.
    + intros rd' st HI. exact HI.
    + intros st HI. exact HI.
Qed.

Lemma processRepoSearchResults_preserves items eco :
  preserves (Inv []) (processRepoSearchResults env items eco).
Proof.
  unfold processRepoSearchResults.
  eapply (hoare_bind _ _ _ Post'); [apply process_repo_items_spec | | auto | auto].
  intros rd. simpl.
  eapply (hoare_bind _ _ _ (λ _, Inv [])); [apply bulkCreateRepositories_step | | auto | auto].
  intros _. apply preserves_ret.
Qed.

Lemma gh_inv {A} (m : M TokenManager.State A) : preserves (Inv []) (gh m).
Proof. apply preserves_lift_frame. intros st g. apply inv_gh. Qed.

Ltac discovery_step :=
  first [ apply gh_inv
        | apply processCodeSearchResults_preserves
        | apply processRepoSearchResults_preserves
        | preserves_step ].

Lemma code_pages_preserves query sizeRange pages : ∀ totalFound,
  preserves (Inv []) (code_pages env query sizeRange pages totalFound).
Proof.
  induction pages as [|page rest IH]; intros totalFound; simpl.
  - apply preserves_ret.
  - apply preserves_bind.
    + repeat discovery_step.
    + intros [total more]. simpl. destruct more; [apply IH | apply preserves_ret].
Qed.

Lemma code_ranges_preserves query sizeRanges : ∀ totalFound,
  preserves (Inv []) (code_ranges env query sizeRanges totalFound).
Proof.
  induction sizeRanges as [|sizeRange rest IH]; intros totalFound.
  - apply preserves_ret.
  - change (code_ranges env query (sizeRange :: rest) totalFound)
      with (bind (code_pages env query sizeRange (seqZ 1 10) totalFound)
                 (λ totalFound, code_ranges env query rest totalFound)).
    apply preserves_bind; [apply code_pages_preserves | intros; apply IH].
Qed.

Lemma code_queries_preserves queries sizeRanges : ∀ totalFound,
  preserves (Inv []) (code_queries env queries sizeRanges totalFound).
Proof.
  induction queries as [|query rest IH]; intros totalFound; simpl.
  - apply preserves_ret.
  - apply preserves_bind; [apply code_ranges_preserves | intros; apply IH].
Qed.

Lemma repo_pages_preserves keyword pages : ∀ totalFound,
  preserves (Inv []) (repo_pages env keyword pages totalFound).
Proof.
  induction pages as [|page rest IH]; intros totalFound; simpl.
  - apply preserves_ret.
  - apply preserves_bind.
    + repeat discovery_step.
    + intros [total more]. simpl. destruct more; [apply IH | apply preserves_ret].
Qed.

Lemma repo_keywords_preserves keywords : ∀ totalFound,
  preserves (Inv []) (repo_keywords env keywords totalFound).
Proof.
  induction keywords as [|keyword rest IH]; intros totalFound.
  - apply preserves_ret.
  - change (repo_keywords env (keyword :: rest) totalFound)
      with (bind (repo_pages env keyword (seqZ 1 10) totalFound)
                 (λ totalFound, repo_keywords env rest totalFound)).
    apply preserves_bind; [apply repo_pages_preserves | intros; apply IH].
Qed.

Lemma strategies_preserves : preserves (Inv []) (strategies env fuel).
Proof.
  unfold strategies, searchByCode, searchByRepository, searchTrending.
  apply preserves_bind.
  { destruct (SizeRanges.generateSizeRanges fuel);
      [apply code_queries_preserves | apply preserves_hang]. }
  intros _. apply preserves_bind; [apply repo_keywords_preserves|].
  intros _. apply preserves_bind; [|intros; apply preserves_ret].
  repeat discovery_step.
Qed.

Lemma run_preserves : preserves (Inv []) (run env fuel).
Proof.
  intros st r st' HI E. unfold run in E. destruct (isRunning st).
  - inversion E; subst. exact HI.
  - unfold finally in E.
    destruct (try_catch _ _ (set_isRunning true st)) as [r0 st0] eqn:Eb.
    inversion E; subst.
    assert (H0 : Inv [] st0).
    { eapply (preserves_try_catch (Inv []) (strategies env fuel) (λ _, ret tt));
        [apply strategies_preserves | intros; apply preserves_ret | | exact Eb].
      destruct HI as (new & HI). exists new. exact HI. }
    destruct H0 as (new & H0). exists new. exact H0.
Qed.

End Dedup.

(** Rows with pairwise different keys hold at most one row per owner and
    name. *)
Lemma count_rows_le_1 owner_ name_ rows :
  NoDup (key_of_row <$> rows) → (count_rows owner_ name_ rows <= 1)%nat.
Proof.
  unfold count_rows. intros N.
  set (mine := filter (λ r, owner r = owner_ ∧ name r = name_) rows).
  assert (Hs : mine `sublist_of` rows) by apply sublist_filter.
  assert (Hk : ∀ r, r ∈ mine → key_of_row r = repoKey_of owner_ name_).
  { intros r Hr. apply list_elem_of_filter in Hr as [[<- <-] _]. reflexivity. }
  apply (sublist_NoDup (key_of_row <$> mine)) in N; [|apply fmap_sublist, Hs].
  destruct mine as [|x [|y l]]; simpl; try lia.
  exfalso. rewrite !fmap_cons in N. apply NoDup_cons in N as [N _]. apply N.
  rewrite (Hk x), (Hk y); [left | right; left | left].
Qed.

End DiscoveryFacts.


Module DiscoveryTheorems.
Import Js JsFacts HoareFacts TokenManager GitHubService.
Import DatabaseService DatabaseFacts Config RepositoryDiscoveryWorker DiscoveryFacts.
Import PoolExamples ServiceExamples.

(** *** The flag while a discovery run is in progress *)

Section Frame.
Context (env : Env) (fuel : nat) (I : State → Prop).
Hypothesis I_gh : ∀ st g, I st → I (set_githubService g st).
Hypothesis I_add : ∀ st k, I st → I (add_processedRepo k st).
Hypothesis I_repositoryExists :
  ∀ id, preserves I (dbs (repositoryExists (db_error env) id)).
Hypothesis I_bulkCreateRepositories :
  ∀ l, preserves I (dbs (bulkCreateRepositories (db_error env) l)).
Hypothesis I_bulkCreateRepoTypes :
  ∀ l, preserves I (dbs (bulkCreateRepoTypes (db_error env) l)).

Lemma gh_frame {A} (m : M TokenManager.State A) : preserves I (gh m).
Proof. apply preserves_lift_frame. intros st g. apply I_gh. Qed.

Ltac frame_step :=
  first [ apply gh_frame | apply I_repositoryExists
        | apply I_bulkCreateRepositories | apply I_bulkCreateRepoTypes
        | apply preserves_modify; intros; apply I_add; assumption
        | preserves_step ].

Lemma process_code_items_frame items eco type : ∀ reposData repoTypesData,
  preserves I (process_code_items env items eco type reposData repoTypesData).
Proof.
  induction items as [|item rest IH]; intros rd rt; simpl.
  - apply preserves_ret.
  - apply preserves_bind; [|intros [rd' rt']; apply IH]. repeat frame_step.
Qed.

Lemma process_repo_items_frame items eco : ∀ reposData,
  preserves I (process_repo_items env items eco reposData).
Proof.
  induction items as [|item rest IH]; intros rd; simpl.
  - apply preserves_ret.
  - apply preserves_bind; [apply preserves_get|]. intros st.
    apply preserves_bind; [|intros rd'; apply IH]. repeat frame_step.
Qed.

Lemma processCodeSearchResults_frame items eco type :
  preserves I (processCodeSearchResults env items eco type).
Proof.
  unfold processCodeSearchResults.
  apply preserves_bind; [apply process_code_items_frame|]. intros data.
  repeat frame_step.
Qed.

Lemma processRepoSearchResults_frame items eco :
  preserves I (processRepoSearchResults env items eco).
Proof.
  unfold processRepoSearchResults.
  apply preserves_bind; [apply process_repo_items_frame|]. intros data.
  repeat frame_step.
Qed.

Ltac frame_step' :=
  first [ apply processCodeSearchResults_frame
        | apply processRepoSearchResults_frame
        | frame_step ].

Lemma code_pages_frame query sizeRange pages : ∀ totalFound,
  preserves I (code_pages env query sizeRange pages totalFound).
Proof.
  induction pages as [|page rest IH]; intros totalFound; simpl.
  - apply preserves_ret.
  - apply preserves_bind; [repeat frame_step'|].
    intros [total more]. simpl. destruct more; [apply IH | apply preserves_ret].
Qed.

Lemma repo_pages_frame keyword pages : ∀ totalFound,
  preserves I (repo_pages env keyword pages totalFound).
Proof.
  induction pages as [|page rest IH]; intros totalFound; simpl.
  - apply preserves_ret.
  - apply preserves_bind; [repeat frame_step'|].
    intros [total more]. simpl. destruct more; [apply IH | apply preserves_ret].
Qed.

Lemma code_queries_frame queries sizeRanges : ∀ totalFound,
  preserves I (code_queries env queries sizeRanges totalFound).
Proof.
  induction queries as [|query rest IH]; intros totalFound; simpl.
  - apply preserves_ret.
  - apply preserves_bind; [|intros; apply IH]. clear IH. revert totalFound.
    induction sizeRanges as [|sizeRange more IH]; intros totalFound.
    + apply preserves_ret.
    + change (code_ranges env query (sizeRange :: more) totalFound)
        with (bind (code_pages env query sizeRange (seqZ 1 10) totalFound)
                   (λ totalFound, code_ranges env query more totalFound)).
      apply preserves_bind; [apply code_pages_frame | intros; apply IH].
Qed.

Lemma repo_keywords_frame keywords : ∀ totalFound,
  preserves I (repo_keywords env keywords totalFound).
Proof.
  induction keywords as [|keyword rest IH]; intros totalFound.
  - apply preserves_ret.
  - change (repo_keywords env (keyword :: rest) totalFound)
      with (bind (repo_pages env keyword (seqZ 1 10) totalFound)
                 (λ totalFound, repo_keywords env rest totalFound)).
    apply preserves_bind; [apply repo_pages_frame | intros; apply IH].
Qed.

Lemma strategies_frame : preserves I (strategies env fuel).
Proof.
  unfold strategies, searchByCode, searchByRepository, searchTrending.
  apply preserves_bind.
  { destruct (SizeRanges.generateSizeRanges fuel);
      [apply code_queries_frame | apply preserves_hang]. }
  intros _. apply preserves_bind; [apply repo_keywords_frame|].
  intros _. apply preserves_bind; [|intros; apply preserves_ret].
  repeat frame_step'.
Qed.

Hypothesis I_flag : ∀ st b, I st → I (set_isRunning b st).

Lemma run_frame : preserves I (run env fuel).
Proof.
  intros st r st' HI E. unfold run in E. destruct (isRunning st).
  - inversion E; subst. exact HI.
  - unfold finally in E.
    destruct (try_catch _ _ (set_isRunning true st)) as [r0 st0] eqn:Eb.
    inversion E; subst. apply I_flag.
    eapply (preserves_try_catch I (strategies env fuel) (λ _, ret tt));
      [apply strategies_frame | intros; apply preserves_ret | | exact Eb].
    apply I_flag, HI.
Qed.

End Frame.


(** *** Uniqueness of [repoId] in the table *)

Lemma insert_repo_ignore_unique l r :
  unique_repoIds l → unique_repoIds (insert_repo_ignore l r).
Proof.
  unfold unique_repoIds, insert_repo_ignore. intros N.
  destruct (existsb _ l) eqn:Ex; [exact N|].
  rewrite fmap_app. apply NoDup_app. split; [exact N|]. split; [|apply NoDup_singleton].
  intros id Hid Hr. apply list_elem_of_singleton in Hr. subst id.
  apply list_elem_of_fmap in Hid as (x & Ex' & Hx).
  apply not_true_iff_false in Ex. apply Ex. apply existsb_exists.
  exists x. split; [apply list_elem_of_In, Hx|]. apply bool_decide_eq_true. auto.
Qed.

Lemma bulk_insert_unique reposData : ∀ l,
  unique_repoIds l → unique_repoIds (fold_left insert_repo_ignore reposData l).
Proof.
  induction reposData as [|r rest IH]; intros l N; simpl; [exact N|].
  apply IH, insert_repo_ignore_unique, N.
Qed.

Lemma run_keeps_repoIds_unique env fuel :
  preserves (λ st, unique_repoIds (repos (dbService st))) (run env fuel).
Proof.
  apply run_frame; auto.
  - intros id st r st' HI E. unfold dbs, lift in E.
    destruct (repositoryExists _ _ (dbService st)) as [r0 db'] eqn:Es.
    inversion E; subst. simpl.
    erewrite statement_read_repos; [exact HI | | exact Es]. reflexivity.
  - intros l st r st' HI E.
    unfold dbs, lift, bulkCreateRepositories, statement in E.
    destruct (db_error env (statements (dbService st)));
      inversion E; subst; simpl; [exact HI|].
    apply bulk_insert_unique, HI.
  - intros l st r st' HI E. unfold dbs, lift in E.
    destruct (bulkCreateRepoTypes _ _ (dbService st)) as [r0 db'] eqn:Es.
    inversion E; subst. simpl.
    erewrite statement_read_repos; [exact HI | | exact Es]. reflexivity.
Qed.

(** An item whose key is already in [processedRepos] is skipped: no lookup,
    no row, no change of the store. *)
Lemma process_code_items_skips env item repo rest eco type reposData repoTypesData st :
  repository item = Some repo →
  repoKey_of (repo_owner_login repo) (repo_name repo) ∈ processedRepos st →
  process_code_items env (item :: rest) eco type reposData repoTypesData st =
    process_code_items env rest eco type reposData repoTypesData st.
Proof.
  intros Hr Hk. cbn [process_code_items]. rewrite Hr.
  destruct (_ || _); [reflexivity|].
  unfold bind at 1. unfold bind at 1. unfold get at 1.
  rewrite (bool_decide_eq_true_2 _ Hk). reflexivity.
Qed.

(** C7. In every discovery run the repositories table only grows, the rows
    stored during the run contain at most one row for any owner and name,
    and the key of every stored row is in the dedup set. This rests on two
    mechanisms: an item whose ["owner/name"] key is in the set is skipped
    without a lookup, and the batch insert ignores a row whose [repoId] is
    already stored, so that a table without two rows of the same [repoId]
    stays so. *)
Theorem discovery_run_stores_each_repository_once env fuel st r st' :
  run env fuel st = (r, st') →
  (∃ new, repos (dbService st') = repos (dbService st) ++ new) ∧
  (∀ owner_ name_, (count_rows owner_ name_ (rows_since st st') <= 1)%nat) ∧
  (∀ x, x ∈ rows_since st st' → key_of_row x ∈ processedRepos st') ∧
  (∀ item repo rest eco type reposData repoTypesData w,
      repository item = Some repo →
      repoKey_of (repo_owner_login repo) (repo_name repo) ∈ processedRepos w →
      process_code_items env (item :: rest) eco type reposData repoTypesData w =
        process_code_items env rest eco type reposData repoTypesData w) ∧
  (∀ l x, (∃ y, y ∈ l ∧ repoId (row y) = repoId x) → insert_repo_ignore l x = l) ∧
  (unique_repoIds (repos (dbService st)) → unique_repoIds (repos (dbService st'))).
Proof.
  intros E.
  assert (Hu : unique_repoIds (repos (dbService st)) →
               unique_repoIds (repos (dbService st')))
    by (intros Hu; exact (run_keeps_repoIds_unique env fuel st r st' Hu E)).
  assert (H0 : dedup_inv (repos (dbService st)) [] st).
  { exists []. rewrite app_nil_r. split; [auto|]. split; [constructor|].
    intros x Hx. inversion Hx. }
  apply (run_preserves env fuel (repos (dbService st))) in E; [|exact H0].
  destruct E as (new & En & N & K). rewrite app_nil_r in N, K.
  assert (Hrows : rows_since st st' = row <$> new).
  { unfold rows_since. rewrite En, drop_app_length. reflexivity. }
  split; [eauto|]. split; [|split; [|split; [|split]]].
  - intros owner_ name_. rewrite Hrows. apply count_rows_le_1, N.
  - intros x Hx. rewrite Hrows in Hx. auto.
  - intros. eapply process_code_items_skips; eauto.
  - apply insert_repo_ignore_duplicate.
  - exact Hu.
Qed.

Lemma discovery_run_stores_each_repository_once_witness :
  (count_rows "acme" "prog"
     (rows_since discovery_worker (snd (run discovery_env 8 discovery_worker))) <= 1)%nat ∧
  length (repos (dbService (snd (run discovery_env 8 discovery_worker)))) = 1%nat.
Proof.
  split.
  - apply (discovery_run_stores_each_repository_once discovery_env 8 discovery_worker
             (fst (run discovery_env 8 discovery_worker))
             (snd (run discovery_env 8 discovery_worker))).
    vm_compute. reflexivity.
  - vm_compute. reflexivity.
Defined.

End DiscoveryTheorems.


Module RunGuardFacts.
Import RunGuard.



End RunGuardFacts.

Module GuardTheorems.
Import Js JsFacts HoareFacts RunGuard RunGuardFacts.
Import PoolExamples ServiceExamples.




End GuardTheorems.


(** ** More on the credential pool *)

Module PoolHealthFacts.
Import Js JsFacts TokenManager TokenManagerFacts PoolVocabulary.

Lemma alter_as_insert {X} (f : X → X) i (l : list X) x :
  l !! i = Some x → alter f i l = <[i := f x]> l.
Proof.
  intros H. apply list_eq. intros j.
  destruct (decide (j = i)) as [->|Hne].
  - rewrite list_lookup_alter_eq, H, list_lookup_insert_eq by (eapply lookup_lt_Some; eauto).
    reflexivity.
  - rewrite list_lookup_alter_ne, list_lookup_insert_ne by auto. reflexivity.
Qed.

Lemma after_failures_0 t : after_failures 0 t = t.
Proof.
  destruct t. unfold after_failures. simpl.
  rewrite andb_true_r, Z.add_0_r. reflexivity.
Qed.

Lemma after_failures_S k t :
  after_failures k (after_failures 1 t) = after_failures (S k) t.
Proof.
  destruct t as [i tk rl lu h e]. unfold after_failures.
  cbn [id token rateLimits lastUsed isHealthy consecutiveErrors].
  f_equal; [|lia].
  destruct h; [|reflexivity].
  destruct (e + Z.of_nat 1 <? 3) eqn:E1,
           (e + Z.of_nat 1 + Z.of_nat k <? 3) eqn:E2,
           (e + Z.of_nat (S k) <? 3) eqn:E3;
    repeat case_bool_decide; try reflexivity; exfalso;
    repeat match goal with
           | H : (_ <? _) = true |- _ => apply Z.ltb_lt in H
           | H : (_ <? _) = false |- _ => apply Z.ltb_ge in H
           end; lia.
Qed.

Section Pool.
Context (net : Net).

(** The [catch] block of a probe, on the entry it finds. *)
Lemma note_probe_failure_insert idx st t :
  tokens st !! idx = Some t →
  tokens (note_probe_failure idx st) = <[idx := after_failures 1 t]> (tokens st).
Proof.
  intros Ht. unfold note_probe_failure, update_token. simpl.
  rewrite (alter_as_insert _ _ _ _ Ht). f_equal.
  destruct t as [i tk rl lu h e]. unfold after_failures.
  cbn [id token rateLimits lastUsed isHealthy consecutiveErrors set_consecutiveErrors
       set_isHealthy].
  change (Z.of_nat 1) with 1. rewrite bool_decide_eq_false_2 by lia. rewrite orb_false_l.
  destruct (3 <=? e + 1) eqn:E.
  - apply Z.leb_le in E. rewrite (proj2 (Z.ltb_ge _ _)) by lia.
    rewrite andb_false_r. reflexivity.
  - apply Z.leb_gt in E. rewrite (proj2 (Z.ltb_lt _ _)) by lia.
    rewrite andb_true_r. reflexivity.
Qed.

Lemma updateRateLimits_rejected idx st t :
  tokens st !! idx = Some t →
  rate_limit_api net (calls st) idx = None →
  ∃ st', updateRateLimits net idx st = (Ok None, st') ∧
         tokens st' = <[idx := after_failures 1 t]> (tokens st) ∧
         calls st' = S (calls st).
Proof.
  intros Ht Hn. unfold updateRateLimits. rewrite Ht, Hn.
  eexists. split; [reflexivity|]. split; [|reflexivity].
  rewrite (note_probe_failure_insert idx _ t) by exact Ht. reflexivity.
Qed.

Lemma updateRateLimits_answered idx st t resources :
  tokens st !! idx = Some t →
  rate_limit_api net (calls st) idx = Some resources →
  ∃ st',
    updateRateLimits net idx st =
      (Ok (if debug_fields_present resources then Some resources else None), st') ∧
    tokens st' =
      <[idx := mkToken (id t) (token t) resources (lastUsed t) true
                       (if debug_fields_present resources then 0 else 1)]> (tokens st) ∧
    trace st' = trace st ++ [EvProbe idx] ∧
    calls st' = S (calls st).
Proof.
  intros Ht Hres. unfold updateRateLimits. rewrite Ht, Hres.
  destruct (debug_fields_present resources); eexists;
    (split; [reflexivity|]); (split; [|split; reflexivity]).
  - unfold update_token. simpl. rewrite (alter_as_insert _ _ _ _ Ht). reflexivity.
  - erewrite note_probe_failure_insert.
    2:{ unfold update_token. simpl. rewrite (alter_as_insert _ _ _ _ Ht).
        apply list_lookup_insert_eq. eapply lookup_lt_Some; eauto. }
    unfold update_token. simpl. rewrite (alter_as_insert _ _ _ _ Ht).
    rewrite list_insert_insert_eq. reflexivity.
Qed.

End Pool.

(** X1. Rejected probes are counted, and the third one in a row retires the
    token: after [k] probes of a token that all reject, its
    [consecutiveErrors] has grown by [k], its [isHealthy] is what it was
    unless [k > 0] and the count has reached 3, in which case it is [false],
    and nothing else in the pool has changed. *)
Theorem rejected_probes_retire_token net k : ∀ idx st t,
  tokens st !! idx = Some t →
  (∀ n, (calls st <= n < calls st + k)%nat → rate_limit_api net n idx = None) →
  ∃ st', probe_times net k idx st = (Ok tt, st') ∧
         tokens st' = <[idx := after_failures k t]> (tokens st) ∧
         calls st' = (calls st + k)%nat.
Proof.
  induction k as [|k IH]; intros idx st t Ht Hrej.
  - exists st. split; [reflexivity|]. split; [|lia].
    rewrite after_failures_0, list_insert_id by exact Ht. reflexivity.
  - destruct (updateRateLimits_rejected net idx st t Ht) as (st1 & Hu & Htok & Hcalls).
    { apply Hrej. lia. }
    destruct (IH idx st1 (after_failures 1 t)) as (st' & Hp & Htok' & Hcalls').
    { rewrite Htok. apply list_lookup_insert_eq. eapply lookup_lt_Some; eauto. }
    { intros n Hn. apply Hrej. lia. }
    exists st'. split; [|split].
    + change (probe_times net (S k) idx) with
        (bind (updateRateLimits net idx) (λ _, probe_times net k idx)).
      rewrite (bind_ok _ _ _ _ _ Hu). exact Hp.
    + rewrite Htok', Htok, list_insert_insert_eq, after_failures_S. reflexivity.
    + lia.
Qed.

(** Two rejected probes leave a fresh token in service, the third retires it. *)
Lemma rejected_probes_retire_token_witness :
  ∃ st', probe_times PoolExamples.net_down 3 0 PoolExamples.two_fresh = (Ok tt, st') ∧
         (isHealthy <$> tokens st') = [false; true] ∧
         (consecutiveErrors <$> tokens st') = [3; 0].
Proof.
  destruct (rejected_probes_retire_token PoolExamples.net_down 3 0 PoolExamples.two_fresh
              (mkToken 0 "ghp_a" (PoolExamples.quota 10 2000) 1000000 true 0))
    as (st' & H & Htok & _).
  - reflexivity.
  - intros n _. reflexivity.
  - exists st'. split; [exact H|]. rewrite Htok. split; reflexivity.
Defined.

(** X2. A probe that is answered puts the token back in service whatever
    its state was: [rateLimits] is replaced by the answer and [isHealthy] is
    [true]. When the answer holds the [core], [search] and [code_search]
    buckets the probe resolves to it and the error count is 0; when one of
    them is missing the probe still replaces [rateLimits], but it resolves to
    [null] and the error count is 1. *)
Theorem answered_probe_restores_token net idx st t resources :
  tokens st !! idx = Some t →
  rate_limit_api net (calls st) idx = Some resources →
  ∃ st',
    updateRateLimits net idx st =
      (Ok (if debug_fields_present resources then Some resources else None), st') ∧
    tokens st' =
      <[idx := mkToken (id t) (token t) resources (lastUsed t) true
                       (if debug_fields_present resources then 0 else 1)]> (tokens st).
Proof.
  intros Ht Hres.
  destruct (updateRateLimits_answered net idx st t resources Ht Hres)
    as (st' & Hu & Htok & _).
  exists st'. auto.
Qed.

(** A retired token is back in service after one answered probe. *)
Lemma answered_probe_restores_token_witness :
  ∃ st',
    updateRateLimits ServiceExamples.net_up 0 PoolExamples.one_unhealthy
      = (Ok (Some (PoolExamples.quota 5000 5600)), st') ∧
    tokens st' =
      [ mkToken 0 "ghp_a" (PoolExamples.quota 5000 5600) 1000000 true 0;
        mkToken 1 "ghp_b" (PoolExamples.quota 0 2000) 1000000 true 0 ].
Proof.
  apply (answered_probe_restores_token ServiceExamples.net_up 0 PoolExamples.one_unhealthy
           (mkToken 0 "ghp_a" (PoolExamples.quota 0 1500) 1000000 false 3)
           (PoolExamples.quota 5000 5600)); reflexivity.
Defined.

End PoolHealthFacts.


(** ** The selection lock *)

Module PoolLockFacts.
Import Js JsFacts HoareFacts TokenManager TokenManagerFacts PoolVocabulary.

(** The lock has the value [b]. *)
Local Abbreviation lock_is b := (λ st : State, rotationLock st = b).
(** The method settled and left the lock at [b]. *)
Local Abbreviation settled_with b :=
  (λ (r : Res _) (st : State), settled r ∧ rotationLock st = b).

Lemma lock_bind {A B} b (m : M State A) (k : A → M State B) :
  hoare (lock_is b) m (settled_with b) →
  (∀ a, hoare (lock_is b) (k a) (settled_with b)) →
  hoare (lock_is b) (bind m k) (settled_with b).
Proof.
  intros Hm Hk. eapply hoare_bind; [exact Hm| | |].
  - intros a. eapply hoare_conseq; [apply Hk| |auto]. intros st [_ H]. exact H.
  - intros e st [_ H]. split; [discriminate|exact H].
  - intros st [H _]. destruct H. reflexivity.
Qed.

Lemma lock_ret {A} b (a : A) : hoare (lock_is b) (ret a) (settled_with b).
Proof. apply hoare_ret. intros st H. split; [discriminate|exact H]. Qed.

Lemma lock_throw {A} b e : hoare (lock_is b) (throw (A:=A) e) (settled_with b).
Proof. apply hoare_throw. intros st H. split; [discriminate|exact H]. Qed.

Lemma lock_get b : hoare (lock_is b) get (settled_with b).
Proof. apply hoare_get. intros st H. split; [discriminate|exact H]. Qed.

Lemma lock_modify b (f : State → State) :
  (∀ st, rotationLock (f st) = rotationLock st) →
  hoare (lock_is b) (modify f) (settled_with b).
Proof.
  intros Hf. apply hoare_modify. intros st H. split; [discriminate|].
  rewrite Hf. exact H.
Qed.

Section Pool.
Context (net : Net).

Lemma updateRateLimits_lock b tokenIndex :
  hoare (lock_is b) (updateRateLimits net tokenIndex) (settled_with b).
Proof.
  intros st r st' HP E. unfold updateRateLimits in E.
  destruct (tokens st !! tokenIndex);
    [destruct (rate_limit_api net (calls st) tokenIndex) as [res|];
     [destruct (debug_fields_present res)|]|];
    injection E as <- <-; (split; [discriminate|exact HP]).
Qed.

Lemma sleep_lock b ms : hoare (lock_is b) (sleep ms) (settled_with b).
Proof. apply lock_modify. reflexivity. Qed.

Lemma select_lock b index now rem :
  hoare (lock_is b) (select index now rem) (settled_with b).
Proof.
  apply lock_bind; [apply lock_modify; reflexivity|]. intros _. apply lock_ret.
Qed.

Ltac lock_step :=
  lazymatch goal with
  | |- hoare _ (bind _ _) _ => apply lock_bind; [|intros ?]
  | |- hoare _ (ret _) _ => apply lock_ret
  | |- hoare _ (throw _) _ => apply lock_throw
  | |- hoare _ get _ => apply lock_get
  | |- hoare _ (updateRateLimits _ _) _ => apply updateRateLimits_lock
  | |- hoare _ (select _ _ _) _ => apply select_lock
  | |- hoare _ (sleep _) _ => apply sleep_lock
  | |- hoare _ (modify _) _ => apply lock_modify; reflexivity
  | |- hoare _ (match ?x with _ => _ end) _ => destruct x
  | |- hoare _ (let _ := _ in _) _ => cbv zeta
  end.

Lemma scan_step_lock b apiType i :
  hoare (lock_is b) (scan_step net apiType i) (settled_with b).
Proof.
  unfold scan_step, refresh_if_stale, check_quota. repeat lock_step.
Qed.

Lemma scan_lock b apiType todo :
  hoare (lock_is b) (scan net apiType todo) (settled_with b).
Proof.
  induction todo as [|i todo IH]; simpl.
  - apply lock_ret.
  - apply lock_bind; [apply scan_step_lock|]. intros [s|]; [apply lock_ret|exact IH].
Qed.

Lemma wait_for_reset_lock b apiType :
  hoare (lock_is b) (wait_for_reset net apiType) (settled_with b).
Proof. unfold wait_for_reset. repeat lock_step. Qed.

(** A selection that finds the lock free settles and leaves it free. *)
Lemma getBestToken_lock apiType :
  hoare (lock_is false) (getBestToken net apiType) (settled_with false).
Proof.
  intros st r st' HP E. unfold getBestToken in E. simpl in HP. rewrite HP in E.
  unfold finally in E.
  destruct (bind _ _ (set_rotationLock true st)) as [r1 st1] eqn:E1.
  inversion E; subst r st'; clear E. split; [|reflexivity].
  assert (H : hoare (lock_is true)
                (let* found := scan net apiType (seq 0 (length (tokens st))) in
                 match found with
                 | Some s => ret s
                 | None => wait_for_reset net apiType
                 end)%js (settled_with true)).
  { apply lock_bind; [apply scan_lock|]. intros [s|];
      [apply lock_ret|apply wait_for_reset_lock]. }
  eapply H; [|exact E1]. reflexivity.
Qed.

Section Execute.
Context {A : Type} (requestFn : nat → nat → Res A).
Hypothesis requestFn_settles : ∀ n tokenId, settled (requestFn n tokenId).

Lemma call_requestFn_lock b tokenId :
  hoare (lock_is b) (call_requestFn net requestFn tokenId) (settled_with b).
Proof.
  intros st r st' HP E. unfold call_requestFn in E. injection E as <- <-.
  split; [apply requestFn_settles|exact HP].
Qed.

Lemma attempt_body_lock apiType :
  hoare (lock_is false) (attempt_body net requestFn apiType) (settled_with false).
Proof.
  unfold attempt_body. apply lock_bind; [apply getBestToken_lock|]. intros sel.
  apply lock_bind; [apply call_requestFn_lock|]. intros result.
  repeat lock_step.
Qed.

Lemma attempts_lock apiType n : ∀ attempt lastError,
  hoare (lock_is false) (attempts net requestFn apiType n attempt lastError)
        (settled_with false).
Proof.
  induction n as [|n IH]; intros attempt lastError; simpl.
  - apply lock_throw.
  - eapply hoare_try_catch; [apply attempt_body_lock| | |].
    + intros e. eapply hoare_conseq with (P' := lock_is false) (Q' := settled_with false);
        [|intros st [_ H]; exact H|auto].
      destruct (classify attempt e).
      * apply IH.
      * apply lock_bind; [apply sleep_lock|]. intros _. apply IH.
      * apply lock_throw.
    + intros a st [_ H]. split; [discriminate|exact H].
    + intros st [H _]. destruct H. reflexivity.
Qed.

End Execute.
End Pool.



End PoolLockFacts.


(** ** Which token is selected *)

Module PoolSelectionFacts.
Import Js JsFacts TokenManager TokenManagerFacts ExecuteFacts PoolVocabulary.

Lemma unlock_lock st :
  rotationLock st = false → set_rotationLock false (set_rotationLock true st) = st.
Proof. destruct st. simpl. intros ->. reflexivity. Qed.

Lemma mod_index_lt (c i : nat) (l : list Token) :
  l ≠ [] → ((c + i) mod length l < length l)%nat.
Proof.
  intros H. apply Nat.mod_upper_bound. destruct l; [congruence|simpl; lia].
Qed.

Lemma filter_healthy_none (l : list Token) :
  Forall (λ t, isHealthy t = false) l → filter (λ t, isHealthy t = true) l = [].
Proof.
  induction 1 as [|t l Ht _ IH]; [reflexivity|].
  rewrite filter_cons_False by congruence. exact IH.
Qed.

Lemma filter_healthy_all (l : list Token) :
  Forall (λ t, isHealthy t = true) l → filter (λ t, isHealthy t = true) l = l.
Proof.
  induction 1 as [|t l Ht _ IH]; [reflexivity|].
  rewrite filter_cons_True by exact Ht. rewrite IH. reflexivity.
Qed.

(** *** The stable sort and its first element *)

Lemma insert_sorted_cons x l : ∃ y l', insert_sorted x l = y :: l'.
Proof. destruct l as [|y l]; simpl; [eauto|]. destruct (snd x <=? snd y); eauto. Qed.

Lemma sort_by_resetTime_nil l : sort_by_resetTime l = [] → l = [].
Proof.
  destruct l as [|x l]; [auto|]. unfold sort_by_resetTime. simpl.
  destruct (insert_sorted_cons x (foldr insert_sorted [] l)) as (y & l' & ->).
  discriminate.
Qed.

(** The sorted array starts with an entry of the least [resetTime]. *)
Lemma sort_by_resetTime_head l : ∀ x rest,
  sort_by_resetTime l = x :: rest →
  x ∈ l ∧ ∀ y, y ∈ l → snd x <= snd y.
Proof.
  induction l as [|a l IH]; intros x rest H; [discriminate|].
  unfold sort_by_resetTime in H. simpl in H.
  fold (sort_by_resetTime l) in H.
  destruct (sort_by_resetTime l) as [|b s] eqn:Es.
  - apply sort_by_resetTime_nil in Es as ->. simpl in H. inversion H; subst.
    split; [left|]. intros y Hy. apply list_elem_of_singleton in Hy as ->. lia.
  - destruct (IH b s eq_refl) as [Hb Hmin]. simpl in H.
    destruct (snd a <=? snd b) eqn:E; inversion H; subst.
    + apply Z.leb_le in E. split; [left|]. intros y Hy.
      apply elem_of_cons in Hy as [->|Hy]; [lia|]. specialize (Hmin y Hy). lia.
    + apply Z.leb_gt in E. split; [right; exact Hb|]. intros y Hy.
      apply elem_of_cons in Hy as [->|Hy]; [lia|]. exact (Hmin y Hy).
Qed.

Section Pool.
Context (net : Net).

(** *** Unhealthy tokens and the scan *)

Lemma scan_step_skips_unhealthy apiType i st r st' j t :
  scan_step net apiType i st = (r, st') →
  tokens st !! j = Some t → isHealthy t = false →
  tokens st' !! j = Some t.
Proof.
  intros H Ht Hu. apply scan_step_spec in H as [[E|[(t' & Ht' & Hh) [f Hf]]] _].
  - rewrite E. exact Ht.
  - rewrite Hf, list_lookup_alter_ne; [exact Ht|].
    intros <-. rewrite Ht in Ht'. inversion Ht'; subst. congruence.
Qed.

Lemma scan_skips_unhealthy apiType todo : ∀ st r st' j t,
  scan net apiType todo st = (r, st') →
  tokens st !! j = Some t → isHealthy t = false →
  tokens st' !! j = Some t.
Proof.
  induction todo as [|i todo IH]; intros st r st' j t H Ht Hu; simpl in H.
  - inversion H; subst. exact Ht.
  - apply bind_inv in H as [(found & st1 & Hs & H)|[(e & Hs & _)|[Hs _]]];
      try (eapply scan_step_skips_unhealthy; eauto; fail).
    pose proof (scan_step_skips_unhealthy _ _ _ _ _ _ _ Hs Ht Hu) as Ht1.
    destruct found as [s|]; [inversion H; subst; exact Ht1|].
    eapply IH; eauto.
Qed.

Lemma scan_all_unhealthy apiType st : ∀ todo,
  Forall (λ t, isHealthy t = false) (tokens st) →
  (tokens st = [] → todo = []) →
  scan net apiType todo st = (Ok None, st).
Proof.
  intros todo Hall Hne. induction todo as [|i todo IH]; [reflexivity|].
  assert (Hnn : tokens st ≠ []) by (intros E; specialize (Hne E); discriminate).
  change (scan net apiType (i :: todo)) with
    (bind (scan_step net apiType i) (λ found,
       match found with Some s => ret (Some s) | None => scan net apiType todo end)).
  assert (Hs : scan_step net apiType i st = (Ok None, st)).
  { unfold scan_step. rewrite (bind_ok get _ st st st) by reflexivity.
    destruct (lookup_lt_is_Some_2 (tokens st) _ (mod_index_lt (currentIndex st) i _ Hnn))
      as [t Ht].
    cbv zeta. rewrite Ht.
    rewrite Forall_lookup in Hall. rewrite (Hall _ _ Ht). reflexivity. }
  rewrite (bind_ok _ _ _ _ _ Hs). apply IH. intros E. contradiction.
Qed.

(** *** The wait path *)

Lemma wait_for_reset_unfold apiType st soonest rest :
  resetTimes apiType st = soonest :: rest →
  is_Some (tokens st !! fst soonest) →
  ∃ r st',
    wait_for_reset net apiType st = (r, st') ∧
    trace st' = trace st
                ++ [EvSleep (Z.max 0 (snd soonest - clock st) + 1000);
                    EvProbe (fst soonest)] ∧
    (∀ sel, r = Ok sel → tokenId sel = fst soonest).
Proof.
  intros Hr Hsome. unfold wait_for_reset.
  rewrite (bind_ok get _ st st st) by reflexivity. rewrite Hr.
  set (w := Z.max 0 (snd soonest - clock st) + 1000).
  rewrite (bind_ok (sleep w) _ st tt (snd (sleep w st))) by reflexivity.
  destruct (updateRateLimits_resolves net (fst soonest) (snd (sleep w st)))
    as (o & st2 & Hu); [exact Hsome|].
  rewrite (bind_ok _ _ _ _ _ Hu).
  rewrite (bind_ok get _ st2 st2 st2) by reflexivity.
  rewrite (bind_ok (modify _) _ st2 tt _ eq_refl).
  rewrite (bind_ok get _ _ _ _ eq_refl).
  assert (Htr : trace st2 = trace st ++ [EvSleep w; EvProbe (fst soonest)]).
  { unfold updateRateLimits in Hu. destruct Hsome as [t Ht].
    change (tokens (snd (sleep w st))) with (tokens st) in Hu. rewrite Ht in Hu.
    destruct (rate_limit_api net _ _) as [res|];
      [destruct (debug_fields_present res)|];
      injection Hu as _ <-; simpl; rewrite <- app_assoc; reflexivity. }
  destruct (_ ≫= _) as [rl|]; eexists _, _; (split; [reflexivity|]);
    (split; [exact Htr|]); intros sel E; inversion E; subst; reflexivity.
Qed.

End Pool.

(** X4. With no healthy token in the pool nothing is attempted:
    [getBestToken] rejects with 'No healthy tokens available' and
    [execute] passes that error on at the first attempt; neither probes,
    sleeps, calls [requestFn] or changes the pool, and the lock is free
    again. *)
Theorem no_healthy_token_fails_at_once net {A} (requestFn : nat → nat → Res A)
    apiType st :
  rotationLock st = false →
  tokens st ≠ [] →
  Forall (λ t, isHealthy t = false) (tokens st) →
  getBestToken net apiType st
    = (Throw (mkError None "No healthy tokens available"), st) ∧
  execute net requestFn apiType st
    = (Throw (mkError None "No healthy tokens available"), st).
Proof.
  intros Hfree Hne Hall.
  assert (Hg : getBestToken net apiType st
               = (Throw (mkError None "No healthy tokens available"), st)).
  { unfold getBestToken. rewrite Hfree. unfold finally.
    rewrite (bind_ok _ _ _ _ _
               (scan_all_unhealthy net apiType (set_rotationLock true st) _ Hall
                  (λ E, False_ind _ (Hne E)))).
    unfold wait_for_reset. rewrite (bind_ok get _ _ _ _ eq_refl).
    unfold resetTimes. change (tokens (set_rotationLock true st)) with (tokens st).
    rewrite (filter_healthy_none _ Hall). simpl.
    unfold throw. rewrite (unlock_lock st Hfree). reflexivity. }
  split; [exact Hg|].
  unfold execute. destruct (tokens st) as [|t0 l] eqn:El; [congruence|].
  simpl length.
  assert (Hb : attempt_body net requestFn apiType st
               = (Throw (mkError None "No healthy tokens available"), st))
    by (unfold attempt_body; apply bind_throw; exact Hg).
  rewrite (attempts_step net requestFn apiType _ 0 None st _ st Hb). reflexivity.
Qed.

Lemma no_healthy_token_fails_at_once_witness :
  let st := mkState [mkToken 0 "ghp_a" initialRateLimits 0 false 3] 0 false 5000 0 [] in
  execute PoolExamples.net_down (PoolExamples.rejects 500 "Server Error") core st
    = (Throw (mkError None "No healthy tokens available"), st).
Proof.
  intros st.
  apply (no_healthy_token_fails_at_once PoolExamples.net_down
           (PoolExamples.rejects 500 "Server Error") core st).
  - reflexivity.
  - discriminate.
  - repeat constructor.
Defined.

(** X5. The scan does not touch a token that is out of service: when
    [getBestToken] settles without having slept, every token that was
    unhealthy when it was called is exactly as it was, neither probed back
    into service nor marked as used. *)
Theorem selection_leaves_unhealthy_tokens net apiType st r st' j t :
  getBestToken net apiType st = (r, st') →
  slept_since st st' = false →
  tokens st !! j = Some t → isHealthy t = false →
  tokens st' !! j = Some t.
Proof.
  unfold getBestToken. destruct (rotationLock st);
    [intros H; inversion H; subst; auto|].
  unfold finally.
  destruct (bind _ _ (set_rotationLock true st)) as [r0 st1] eqn:Hb.
  intros H; injection H as <- <-. intros Hquiet Ht Hu.
  change (tokens (set_rotationLock false st1)) with (tokens st1).
  apply bind_inv in Hb as [(found & st2 & Hs & H)|[(e & Hs & _)|[Hs _]]];
    try (eapply (scan_skips_unhealthy net); eauto; fail).
  pose proof (scan_skips_unhealthy net _ _ _ _ _ _ _ Hs Ht Hu) as Ht2.
  destruct found as [s|]; [inversion H; subst; exact Ht2|].
  apply (scan_silent net is_sleep (λ _, eq_refl)) in Hs as (evs1 & Hs & _).
  simpl in Hs.
  unfold wait_for_reset in H. rewrite (bind_ok get _ _ _ _ eq_refl) in H.
  destruct (resetTimes apiType st2) as [|soonest rest];
    [inversion H; subst; exact Ht2|].
  exfalso.
  rewrite (bind_ok (sleep _) _ st2 tt _ eq_refl) in H.
  assert (Hw : ∃ evs, trace st1 = trace st2 ++ EvSleep
                        (Z.max 0 (snd soonest - clock st2) + 1000) :: evs).
  { match type of H with ?m ?s = _ => assert (Hsil : silent (λ _, false) s st1) end.
    { apply bind_inv in H as [(o & st3 & Hu3 & H)|[(e & Hu3 & _)|[Hu3 _]]];
        try (eapply (updateRateLimits_silent net); eauto; fail).
      eapply silent_trans; [eapply (updateRateLimits_silent net); eauto|].
      rewrite (bind_ok get _ _ _ _ eq_refl) in H.
      rewrite (bind_ok (modify _) _ _ tt _ eq_refl) in H.
      rewrite (bind_ok get _ _ _ _ eq_refl) in H.
      apply silent_same_trace.
      destruct (_ ≫= _); inversion H; subst; reflexivity. }
    destruct Hsil as (evs & E & _). simpl in E. rewrite <- app_assoc in E. eauto. }
  destruct Hw as (evs & Hw).
  unfold slept_since, events_since in Hquiet. simpl in Hquiet.
  rewrite Hw, Hs, <- app_assoc, drop_app_length, existsb_app in Hquiet.
  simpl in Hquiet. rewrite orb_true_r in Hquiet. discriminate.
Qed.

Lemma selection_leaves_unhealthy_tokens_witness :
  ∃ r st', getBestToken PoolExamples.net_down core
             (set_currentIndex 0 (update_token 0 (set_isHealthy false)
                                               PoolExamples.two_fresh)) = (r, st') ∧
           tokens st' !! 0%nat
             = Some (mkToken 0 "ghp_a" (PoolExamples.quota 10 2000) 1000000 false 0).
Proof.
  eexists _, _. split; [vm_compute; reflexivity|].
  eapply (selection_leaves_unhealthy_tokens PoolExamples.net_down core
            (set_currentIndex 0 (update_token 0 (set_isHealthy false)
                                              PoolExamples.two_fresh))).
  - vm_compute. reflexivity.
  - vm_compute. reflexivity.
  - reflexivity.
  - reflexivity.
Defined.

(** X6. When every token of the pool is healthy, the wait after a fruitless
    scan does pick the token whose bucket resets first: it sleeps until that
    token's reset time plus one second (one second when the time is past),
    then probes that token and, if it returns, returns that token. *)
Theorem wait_path_picks_earliest_reset_when_all_healthy net apiType st :
  tokens st ≠ [] →
  Forall (λ t, isHealthy t = true) (tokens st) →
  ∃ i t r st',
    tokens st !! i = Some t ∧
    (∀ t', t' ∈ tokens st →
           resetTime_of apiType (clock st) t <= resetTime_of apiType (clock st) t') ∧
    wait_for_reset net apiType st = (r, st') ∧
    trace st' = trace st
      ++ [EvSleep (Z.max 0 (resetTime_of apiType (clock st) t - clock st) + 1000);
          EvProbe i] ∧
    (∀ sel, r = Ok sel → tokenId sel = i).
Proof.
  intros Hne Hall.
  destruct (resetTimes apiType st) as [|soonest rest] eqn:Hr.
  { unfold resetTimes in Hr. apply sort_by_resetTime_nil in Hr.
    rewrite (filter_healthy_all _ Hall) in Hr.
    destruct (tokens st); [congruence|discriminate]. }
  pose proof Hr as Hr'. unfold resetTimes in Hr'.
  rewrite (filter_healthy_all _ Hall) in Hr'.
  apply sort_by_resetTime_head in Hr' as [Hin Hmin].
  apply elem_of_lookup_imap in Hin as (i & t & E & Ht).
  destruct (wait_for_reset_unfold net apiType st soonest rest Hr)
    as (r & st' & Hw & Htr & Hsel).
  { rewrite E. simpl. eauto. }
  rewrite E in *. simpl in *.
  exists i, t, r, st'. split; [exact Ht|]. split; [|auto].
  intros t' Ht'. apply list_elem_of_lookup in Ht' as [j Hj].
  apply (Hmin (j, resetTime_of apiType (clock st) t')).
  apply elem_of_lookup_imap. eauto.
Qed.

Lemma wait_path_picks_earliest_reset_when_all_healthy_witness :
  ∃ r st',
    wait_for_reset PoolExamples.net_down core
      (update_token 0 (set_rateLimits (PoolExamples.quota 0 3000))
         (update_token 1 (set_rateLimits (PoolExamples.quota 0 2000))
            PoolExamples.two_fresh)) = (r, st') ∧
    trace st' = [EvSleep 1000500; EvProbe 1].
Proof.
  destruct (wait_path_picks_earliest_reset_when_all_healthy PoolExamples.net_down core
              (update_token 0 (set_rateLimits (PoolExamples.quota 0 3000))
                 (update_token 1 (set_rateLimits (PoolExamples.quota 0 2000))
                    PoolExamples.two_fresh)))
    as (i & t & r & st' & Ht & Hmin & Hw & Htr & _).
  - discriminate.
  - repeat constructor.
  - exists r, st'. split; [exact Hw|].
    vm_compute in Hw. injection Hw as _ <-. reflexivity.
Defined.

(** X7. A 403 whose message mentions a secondary rate limit is handled as
    an ordinary rate limit: the next attempt starts at once from the state
    the failed one left, without the 60 s pause. *)
Theorem secondary_rate_limit_retries_without_pause net {A}
    (requestFn : nat → nat → Res A) apiType n attempt lastError st e st1 :
  attempt_body net requestFn apiType st = (Throw e, st1) →
  status e = Some 403 →
  includes "secondary rate limit" (message e) = true →
  attempts net requestFn apiType (S n) attempt lastError st
    = attempts net requestFn apiType n (attempt + 1) (Some e) st1.
Proof.
  intros Hb Hs Hm.
  rewrite (attempts_step net requestFn apiType n attempt lastError st e st1 Hb).
  unfold classify, status_is. rewrite Hs. simpl.
  rewrite (includes_secondary _ Hm). reflexivity.
Qed.

Lemma secondary_rate_limit_retries_without_pause_witness :
  let requestFn := PoolExamples.rejects 403 "You have exceeded a secondary rate limit" in
  ∃ st1,
    attempts PoolExamples.net_down requestFn core 2 0 None PoolExamples.two_fresh
      = attempts PoolExamples.net_down requestFn core 1 1
          (Some (mkError (Some 403) "You have exceeded a secondary rate limit")) st1 ∧
    trace st1 = [EvRequest 0].
Proof.
  intros requestFn. eexists. split.
  - apply (secondary_rate_limit_retries_without_pause PoolExamples.net_down requestFn
             core 1 0 None PoolExamples.two_fresh).
    + vm_compute. reflexivity.
    + reflexivity.
    + vm_compute. reflexivity.
  - reflexivity.
Defined.

End PoolSelectionFacts.


(** ** Rotation *)

Module PoolRotationFacts.
Import Js JsFacts TokenManager TokenManagerFacts PoolVocabulary PoolSelectionFacts.

Section Pool.
Context (net : Net).

(** The token under the cursor is returned at once when it is ready. *)
Lemma getBestToken_ready apiType st t rl :
  rotationLock st = false →
  tokens st !! (currentIndex st mod length (tokens st))%nat = Some t →
  isHealthy t = true → clock st - lastUsed t <= 60000 →
  bucket (rateLimits t) apiType = Some rl → 0 < remaining rl →
  let index := (currentIndex st mod length (tokens st))%nat in
  getBestToken net apiType st
    = (Ok (mkSelection index (remaining rl)),
       set_currentIndex ((index + 1) mod length (tokens st))
                        (update_token index (set_lastUsed (clock st)) st)).
Proof.
  intros Hfree Ht Hh Hfresh Hb Hpos index. subst index.
  assert (Hseq : ∃ todo, seq 0 (length (tokens st)) = 0%nat :: todo).
  { apply lookup_lt_Some in Ht.
    destruct (length (tokens st)); [lia|eexists; reflexivity]. }
  destruct Hseq as [todo Hseq].
  unfold getBestToken. rewrite Hfree, Hseq. unfold finally.
  set (stl := set_rotationLock true st).
  assert (Hs : scan_step net apiType 0 stl
               = (Ok (Some (mkSelection (currentIndex st mod length (tokens st))
                                        (remaining rl))),
                  set_currentIndex
                    ((currentIndex st mod length (tokens st) + 1) mod length (tokens st))
                    (update_token (currentIndex st mod length (tokens st))
                                  (set_lastUsed (clock st)) stl))).
  { unfold scan_step. rewrite (bind_ok get _ stl stl stl) by reflexivity.
    cbv zeta. change (tokens stl) with (tokens st).
    change (currentIndex stl) with (currentIndex st).
    rewrite Nat.add_0_r, Ht, Hh. change (negb true) with false. cbv iota.
    unfold refresh_if_stale. change (clock stl) with (clock st).
    rewrite (proj2 (Z.ltb_ge _ _)) by lia. cbv iota.
    rewrite (bind_ok (ret tt) _ stl tt stl) by reflexivity.
    unfold check_quota. rewrite (bind_ok get _ stl stl stl) by reflexivity.
    cbv zeta. change (tokens stl) with (tokens st). rewrite Ht. simpl. rewrite Hb.
    rewrite (proj2 (Z.ltb_lt _ _)) by lia. cbv iota.
    reflexivity. }
  change (scan net apiType (0%nat :: todo)) with
    (bind (scan_step net apiType 0) (λ found,
       match found with
       | Some s => ret (Some s)
       | None => scan net apiType todo
       end)).
  rewrite (bind_ok _ _ _ _ _ (bind_ok _ _ _ _ _ Hs)).
  unfold ret. subst stl. destruct st; simpl in *. subst. reflexivity.
Qed.

End Pool.

Lemma rotate_shift (c n : nat) (k : nat) :
  (λ i, ((c mod n + 1) mod n + i) mod n)%nat <$> seq 0 k
  = (λ i, (c + i) mod n)%nat <$> seq 1 k.
Proof.
  rewrite <- (fmap_S_seq 0 k), <- list_fmap_compose.
  apply list_fmap_ext. intros _ i _. simpl.
  rewrite Nat.Div0.add_mod_idemp_l, <- Nat.add_assoc, Nat.Div0.add_mod_idemp_l.
  f_equal.
Qed.

(** X8. Selection is round-robin: from a pool in which every token is
    healthy, was probed or used within the last minute and has quota left,
    [k] calls of [getBestToken] in a row return the tokens in cyclic order
    starting at the cursor, one after the other, without any upstream call
    or sleep. *)
Theorem selections_rotate net apiType k : ∀ st,
  rotationLock st = false →
  tokens st ≠ [] →
  Forall (ready apiType (clock st)) (tokens st) →
  ∃ st',
    select_times net apiType k st
      = (Ok ((λ i, (currentIndex st + i) mod length (tokens st))%nat <$> seq 0 k), st') ∧
    trace st' = trace st ∧ calls st' = calls st.
Proof.
  induction k as [|k IH]; intros st Hfree Hne Hall.
  - exists st. auto.
  - set (n := length (tokens st)). set (index := (currentIndex st mod n)%nat).
    assert (Hlt : (index < n)%nat).
    { apply Nat.mod_upper_bound. unfold n. destruct (tokens st); [congruence|simpl; lia]. }
    destruct (lookup_lt_is_Some_2 _ _ Hlt) as [t Ht].
    pose proof (proj1 (Forall_lookup _ _) Hall _ _ Ht) as (Hh & Hfresh & rl & Hb & Hpos).
    pose proof (getBestToken_ready net apiType st t rl Hfree Ht Hh Hfresh Hb Hpos) as Hg.
    cbv zeta in Hg. fold n index in Hg.
    set (st1 := set_currentIndex ((index + 1) mod n)
                  (update_token index (set_lastUsed (clock st)) st)) in *.
    destruct (IH st1) as (st' & Hsel & Htr & Hcalls).
    { subst st1. simpl. exact Hfree. }
    { subst st1. simpl. intros E. apply (f_equal length) in E.
      rewrite length_alter in E. simpl in E. fold n in E. lia. }
    { subst st1. simpl. apply Forall_alter; [exact Hall|].
      intros x _ (Hxh & _ & Hxq). split; [exact Hxh|]. split; [simpl; lia|exact Hxq]. }
    exists st'. split; [|split].
    + change (select_times net apiType (S k)) with
        (bind (getBestToken net apiType) (λ sel,
           bind (select_times net apiType k) (λ rest, ret (tokenId sel :: rest)))).
      rewrite (bind_ok _ _ _ _ _ Hg), (bind_ok _ _ _ _ _ Hsel). unfold ret. f_equal.
      f_equal. change (seq 0 (S k)) with (0%nat :: seq 1 k). rewrite fmap_cons.
      f_equal.
      * simpl. rewrite Nat.add_0_r. reflexivity.
      * subst st1. simpl. rewrite length_alter. fold n. apply rotate_shift.
    + rewrite Htr. reflexivity.
    + rewrite Hcalls. reflexivity.
Qed.

Lemma selections_rotate_witness :
  ∃ st', select_times PoolExamples.net_down core 5 PoolExamples.two_fresh
           = (Ok [0; 1; 0; 1; 0]%nat, st') ∧
         trace st' = [] ∧ calls st' = 0%nat.
Proof.
  apply (selections_rotate PoolExamples.net_down core 5 PoolExamples.two_fresh).
  - reflexivity.
  - discriminate.
  - repeat constructor; simpl; try lia; eexists; (split; [reflexivity|simpl; lia]).
Defined.

End PoolRotationFacts.


(** ** Storage *)

Module StorageFacts.
Import Js JsFacts DatabaseService DatabaseFacts DiscoveryFacts StorageVocabulary.

(** The store as a statement finds it: the same tables, one more statement
    counted. *)
Local Abbreviation counted db :=
  (mkDB (repos db) (developers db) (activities db) (repoTypes db) (S (statements db))).

Section Statements.
Context (db_error : nat → option Error).

Lemma statement_ok_inv {A} (f : DB → A * DB) db a db' :
  statement db_error f db = (Ok a, db') → f (counted db) = (a, db').
Proof.
  unfold statement. destruct (db_error (statements db)); [discriminate|].
  destruct (f _) as [a0 db0]. intros E. inversion E; subst. reflexivity.
Qed.


Lemma statement_fails {A} (f : DB → A * DB) db e db' :
  statement db_error f db = (Throw e, db') → db' = counted db.
Proof.
  unfold statement. destruct (db_error (statements db)).
  - intros E. inversion E; subst. reflexivity.
  - destruct (f _). discriminate.
Qed.

Lemma statement_settles {A} (f : DB → A * DB) db db' :
  statement db_error f db ≠ (Hang, db').
Proof.
  unfold statement. destruct (db_error (statements db)); [discriminate|].
  destruct (f _). discriminate.
Qed.

End Statements.

(** *** Insert-ignore on the repositories table *)

Lemma existsb_repoId l id :
  existsb (λ x, bool_decide (repoId (row x) = id)) l = true ↔ id ∈ repoIds l.
Proof.
  rewrite existsb_exists. unfold repoIds. rewrite list_elem_of_fmap. split.
  - intros (x & Hx & E). apply bool_decide_eq_true in E.
    exists x. split; [auto|]. apply list_elem_of_In, Hx.
  - intros (x & E & Hx). exists x. split; [apply list_elem_of_In, Hx|].
    apply bool_decide_eq_true. auto.
Qed.

Lemma insert_repo_ignore_ids l r id :
  id ∈ repoIds (insert_repo_ignore l r) ↔ id ∈ repoIds l ∨ id = repoId r.
Proof.
  unfold insert_repo_ignore.
  destruct (existsb _ l) eqn:Ex.
  - apply existsb_repoId in Ex. split; [auto|]. intros [H| ->]; auto.
  - unfold repoIds. rewrite fmap_app, elem_of_app. simpl.
    rewrite list_elem_of_singleton. reflexivity.
Qed.

Lemma bulk_insert_ids reposData : ∀ l id,
  id ∈ repoIds (fold_left insert_repo_ignore reposData l) ↔
  id ∈ repoIds l ∨ id ∈ (repoId <$> reposData).
Proof.
  induction reposData as [|r rest IH]; intros l id; simpl.
  - rewrite elem_of_nil. tauto.
  - rewrite IH, insert_repo_ignore_ids, elem_of_cons. tauto.
Qed.

(** A batch all of whose [repoId]s are stored changes nothing. *)
Lemma bulk_insert_stored reposData : ∀ l,
  (∀ r, r ∈ reposData → repoId r ∈ repoIds l) →
  fold_left insert_repo_ignore reposData l = l.
Proof.
  induction reposData as [|r rest IH]; intros l H; simpl; [reflexivity|].
  assert (E : insert_repo_ignore l r = l).
  { unfold insert_repo_ignore.
    rewrite (proj2 (existsb_repoId l (repoId r))); [reflexivity|].
    apply H. left. }
  rewrite E. apply IH. intros x Hx. apply H. right. exact Hx.
Qed.

(** X9. The batch insert of repositories is idempotent and never touches
    what is stored: after a successful [bulkCreateRepositories(batch)] the
    rows stored before are still there, unchanged and in place, and a second
    call with the same batch, whether it succeeds or fails, leaves the table
    as the first one left it. *)
Theorem bulkCreateRepositories_idempotent db_error reposData db db1 :
  bulkCreateRepositories db_error reposData db = (Ok tt, db1) →
  (∃ added, repos db1 = repos db ++ added) ∧
  (∀ r db2, bulkCreateRepositories db_error reposData db1 = (r, db2) →
            repos db2 = repos db1).
Proof.
  intros E. apply statement_ok_inv in E. inversion E as [E1]; clear E.
  simpl. split.
  - destruct (bulk_insert_app reposData (repos db)) as (added & -> & _). eauto.
  - intros r db2 E2. unfold bulkCreateRepositories, statement in E2. simpl in E2.
    destruct (db_error _); inversion E2; subst; clear E2; simpl; [reflexivity|].
    apply bulk_insert_stored. intros x Hx.
    apply bulk_insert_ids. right. apply list_elem_of_fmap. eauto.
Qed.

Lemma bulkCreateRepositories_idempotent_witness :
  let batch := [row ServiceExamples.gone_repo; row ServiceExamples.gone_repo] in
  let db1 := snd (bulkCreateRepositories (λ _, None) batch (mkDB [] [] [] [] 0)) in
  (∃ added, repos db1 = [] ++ added) ∧
  (∀ r db2, bulkCreateRepositories (λ _, None) batch db1 = (r, db2) →
            repos db2 = [ServiceExamples.gone_repo]).
Proof.
  intros batch db1.
  apply (bulkCreateRepositories_idempotent (λ _, None) batch (mkDB [] [] [] [] 0) db1).
  reflexivity.
Defined.

(** X10. Insert and lookup agree: after a successful
    [bulkCreateRepositories(batch)], a [repositoryExists(id)] that does not
    fail answers [true] exactly for the ids that were stored before or occur
    in the batch, and it changes no table. *)
Theorem repositoryExists_after_bulkCreate db_error reposData db db1 id b db2 :
  bulkCreateRepositories db_error reposData db = (Ok tt, db1) →
  repositoryExists db_error id db1 = (Ok b, db2) →
  (b = true ↔ id ∈ repoIds (repos db) ∨ id ∈ (repoId <$> reposData)) ∧
  repos db2 = repos db1.
Proof.
  intros E1 E2. apply statement_ok_inv in E1. inversion E1 as [H1]; clear E1.
  apply statement_ok_inv in E2. inversion E2 as [[H2 H3]]; clear E2.
  subst db1. simpl. split; [|reflexivity].
  rewrite existsb_repoId. apply bulk_insert_ids.
Qed.

Lemma repositoryExists_after_bulkCreate_witness :
  let db1 := snd (bulkCreateRepositories (λ _, None) [row ServiceExamples.gone_repo]
                    (mkDB [] [] [] [] 0)) in
  (true = true ↔ "42" ∈ repoIds [] ∨ "42" ∈ (repoId <$> [row ServiceExamples.gone_repo])) ∧
  (false = true ↔ "43" ∈ repoIds [] ∨ "43" ∈ (repoId <$> [row ServiceExamples.gone_repo])).
Proof.
  intros db1. split.
  - apply (repositoryExists_after_bulkCreate (λ _, None) [row ServiceExamples.gone_repo]
             (mkDB [] [] [] [] 0) db1 "42" true
             (snd (repositoryExists (λ _, None) "42" db1))); reflexivity.
  - apply (repositoryExists_after_bulkCreate (λ _, None) [row ServiceExamples.gone_repo]
             (mkDB [] [] [] [] 0) db1 "43" false
             (snd (repositoryExists (λ _, None) "43" db1))); reflexivity.
Defined.

(** *** Marking a repository as closed source *)

Lemma close_source_other id (l : list RepoRow) :
  filter (λ x, repoId (row x) ≠ id)
    (map (λ x, if bool_decide (repoId (row x) = id)
               then mkRepoRow (row_id x) (close_source (row x)) else x) l)
  = filter (λ x, repoId (row x) ≠ id) l.
Proof.
  induction l as [|x l IH]; [reflexivity|]. simpl.
  case_bool_decide as E.
  - rewrite !filter_cons_False by (simpl; intros H; apply H; exact E). exact IH.
  - rewrite !filter_cons_True by exact E. rewrite IH. reflexivity.
Qed.

(** X11. [markRepositoryClosedSource(id)] takes the repository out of the
    backfill and touches nothing else: after it succeeded, no row that
    [getRepositoriesWithoutActivities] returns has that [repoId], and the
    rows with another [repoId] are what they were, in the same order. *)
Theorem closed_source_leaves_backfill db_error id db db1 :
  markRepositoryClosedSource db_error id db = (Ok tt, db1) →
  filter (λ x, repoId (row x) ≠ id) (repos db1)
    = filter (λ x, repoId (row x) ≠ id) (repos db) ∧
  (∀ limit l db2,
      getRepositoriesWithoutActivities db_error limit db1 = (Ok l, db2) →
      ∀ x, x ∈ l → repoId (row x) ≠ id ∧ x ∈ repos db).
Proof.
  intros E. apply statement_ok_inv in E. inversion E as [E1]; clear E. simpl.
  split; [apply close_source_other|].
  intros limit l db2 E2. apply statement_ok_inv in E2. inversion E2 as [[H2 H3]]; clear E2.
  simpl. intros x Hx. simpl in Hx.
  apply elem_of_take in Hx as (i & Hx & _).
  apply list_elem_of_lookup_2 in Hx. rewrite elem_of_reverse in Hx.
  apply list_elem_of_filter in Hx as [[Hopen _] Hx].
  apply list_elem_of_In, in_map_iff in Hx as (y & Ey & Hy).
  apply list_elem_of_In in Hy.
  case_bool_decide as Eid.
  - subst x. simpl in Hopen. discriminate.
  - subst x. auto.
Qed.

Lemma closed_source_leaves_backfill_witness :
  let db1 := snd (markRepositoryClosedSource (λ _, None) "42" ServiceExamples.one_repo_db) in
  fst (getRepositoriesWithoutActivities (λ _, None) 50 ServiceExamples.one_repo_db)
    = Ok [ServiceExamples.gone_repo] ∧
  ∀ limit l db2,
    getRepositoriesWithoutActivities (λ _, None) limit db1 = (Ok l, db2) →
    ∀ x, x ∈ l → repoId (row x) ≠ "42" ∧ x ∈ repos ServiceExamples.one_repo_db.
Proof.
  intros db1. split; [reflexivity|].
  apply (closed_source_leaves_backfill (λ _, None) "42" ServiceExamples.one_repo_db db1).
  reflexivity.
Defined.

(** *** Developers *)






(** *** Paging *)





End StorageFacts.


(** ** What the activity worker stores *)

Module ActivityStoreFacts.
Import Js JsFacts HoareFacts TokenManager GitHubService GitHubServiceFacts.
Import DatabaseService DatabaseFacts Config DeveloperActivityWorker ActivityFacts.
Import StorageVocabulary StorageFacts.

(** *** Insert-ignore on the activities table *)

Lemma existsb_activity_key l r :
  existsb (λ x, bool_decide (repositoryId x = repositoryId r ∧
                             developerId x = developerId r ∧ date x = date r)) l = true
  ↔ activity_key r ∈ (activity_key <$> l).
Proof.
  rewrite existsb_exists, list_elem_of_fmap. unfold activity_key. split.
  - intros (x & Hx & E). apply bool_decide_eq_true in E as (E1 & E2 & E3).
    exists x. split; [congruence|apply list_elem_of_In, Hx].
  - intros (x & E & Hx). exists x. split; [apply list_elem_of_In, Hx|].
    apply bool_decide_eq_true. inversion E. auto.
Qed.

Lemma insert_activity_ignore_unique l r :
  unique_activities l → unique_activities (insert_activity_ignore l r).
Proof.
  unfold unique_activities, insert_activity_ignore. intros N.
  destruct (existsb _ l) eqn:Ex; [exact N|].
  rewrite fmap_app. apply NoDup_app. split; [exact N|]. split; [|apply NoDup_singleton].
  intros k Hk Hr. apply list_elem_of_singleton in Hr. subst k.
  apply existsb_activity_key in Hk. congruence.
Qed.

Lemma bulk_activities_unique activitiesData : ∀ l,
  unique_activities l →
  unique_activities (fold_left insert_activity_ignore activitiesData l).
Proof.
  induction activitiesData as [|r rest IH]; intros l N; simpl; [exact N|].
  apply IH, insert_activity_ignore_unique, N.
Qed.

Lemma insert_activity_ignore_elem l r x :
  x ∈ insert_activity_ignore l r → x ∈ l ∨ x = r.
Proof.
  unfold insert_activity_ignore. destruct (existsb _ l); [auto|].
  rewrite elem_of_app, list_elem_of_singleton. auto.
Qed.

Lemma bulk_activities_elem activitiesData : ∀ l x,
  x ∈ fold_left insert_activity_ignore activitiesData l → x ∈ l ∨ x ∈ activitiesData.
Proof.
  induction activitiesData as [|r rest IH]; intros l x H; simpl in H; [auto|].
  apply IH in H as [H|H]; [|right; right; exact H].
  apply insert_activity_ignore_elem in H as [H| ->]; [auto|right; left].
Qed.

(** Statements on the other tables leave the activities alone. *)
Lemma dbs_keeps_activities {A} db_error (f : DB → A * DB) (J : list ActivityData → Prop) :
  (∀ db, activities (snd (f db)) = activities db) →
  preserves (λ st, J (activities (dbService st))) (dbs (statement db_error f)).
Proof.
  intros Hf.
  apply (hoare_lift _ _ _ _ (λ db, J (activities db)) (λ _ db, J (activities db))); auto.
  apply statement_preserves; [auto|]. intros db H. rewrite Hf. exact H.
Qed.

Lemma upsertDeveloper_keeps_activities db_error x J :
  preserves (λ st, J (activities (dbService st))) (dbs (upsertDeveloper db_error x)).
Proof.
  apply dbs_keeps_activities. intros db. simpl. destruct (head _); reflexivity.
Qed.

(** *** No duplicate activity rows *)

Section Unique.
Context (env : Env) (fuel : nat).

Local Abbreviation Unique :=
  (λ st : State, unique_activities (activities (dbService st))).

Lemma bulkCreateActivities_unique l :
  preserves Unique (dbs (bulkCreateActivities (db_error env) l)).
Proof.
  apply (hoare_lift _ _ _ _ (λ db, unique_activities (activities db))
           (λ _ db, unique_activities (activities db))); auto.
  apply statement_preserves; [auto|]. intros db H. simpl.
  apply bulk_activities_unique, H.
Qed.

Lemma processBatch_unique repos :
  preserves Unique (processBatch env fuel repos).
Proof.
  apply processBatch_preserves; auto.
  - intros u. apply (dbs_keeps_activities _ _ unique_activities). reflexivity.
  - intros x. apply (upsertDeveloper_keeps_activities _ _ unique_activities).
  - apply bulkCreateActivities_unique.
Qed.

Lemma run_loop_unique rounds offset p e :
  preserves Unique (run_loop env fuel rounds offset p e).
Proof.
  apply run_loop_preserves; auto.
  - intros u. apply (dbs_keeps_activities _ _ unique_activities). reflexivity.
  - intros x. apply (upsertDeveloper_keeps_activities _ _ unique_activities).
  - apply bulkCreateActivities_unique.
  - intros eco limit offset'. apply (dbs_keeps_activities _ _ unique_activities).
    reflexivity.
Qed.

Lemma backfill_loop_unique rounds p e :
  preserves Unique (backfill_loop env fuel rounds p e).
Proof.
  apply backfill_loop_preserves; auto.
  - intros u. apply (dbs_keeps_activities _ _ unique_activities). reflexivity.
  - intros x. apply (upsertDeveloper_keeps_activities _ _ unique_activities).
  - apply bulkCreateActivities_unique.
  - intros limit. apply (dbs_keeps_activities _ _ unique_activities). reflexivity.
Qed.

Lemma guarded_unique (body : M State unit) :
  preserves Unique body →
  preserves Unique (λ st,
    if isRunning st then (Ok tt, st)
    else finally (try_catch body (λ error, ret tt)) (set_isRunning false)
                 (set_isRunning true st)).
Proof.
  intros Hb st r st' HI E. destruct (isRunning st); [inversion E; subst; exact HI|].
  unfold finally in E.
  destruct (try_catch body _ (set_isRunning true st)) as [r1 st1] eqn:E1.
  inversion E; subst. simpl.
  assert (H : preserves Unique (try_catch body (λ _, ret tt)))
    by (apply preserves_try_catch; [exact Hb|intros; apply preserves_ret]).
  exact (H (set_isRunning true st) _ _ HI E1).
Qed.

End Unique.

(** X14. The activity worker never stores a week twice: if the activities
    table holds at most one row for any repository, developer and week, it
    still does after [processBatch], after [run] and after [runBackfill],
    however they end. Collecting the same repository again adds no row for a
    week that is already stored. *)
Theorem activity_rows_stay_unique env fuel :
  (∀ repos, preserves (λ st, unique_activities (activities (dbService st)))
                      (processBatch env fuel repos)) ∧
  (∀ rounds, preserves (λ st, unique_activities (activities (dbService st)))
                       (run env fuel rounds)) ∧
  (∀ rounds, preserves (λ st, unique_activities (activities (dbService st)))
                       (runBackfill env fuel rounds)).
Proof.
  split; [|split].
  - apply processBatch_unique.
  - intros rounds. apply guarded_unique, run_loop_unique.
  - intros rounds. apply guarded_unique, backfill_loop_unique.
Qed.

Lemma activity_rows_stay_unique_witness :
  let env := ServiceExamples.env_of ActivityExamples.alice_contributes in
  let st1 := snd (processBatch env 5 [ServiceExamples.gone_repo]
                    ServiceExamples.activity_worker) in
  let st2 := snd (processBatch env 5 [ServiceExamples.gone_repo] st1) in
  activities (dbService st1) = [ActivityExamples.alice_row] ∧
  unique_activities (activities (dbService st2)).
Proof.
  intros env st1 st2. split; [vm_compute; reflexivity|].
  destruct (activity_rows_stay_unique env 5) as [H _].
  apply (H [ServiceExamples.gone_repo] st1
           (fst (processBatch env 5 [ServiceExamples.gone_repo] st1)) st2).
  - assert (E : activities (dbService st1) = [ActivityExamples.alice_row])
      by (vm_compute; reflexivity).
    rewrite E. apply NoDup_singleton.
  - subst st2. destruct (processBatch env 5 _ st1); reflexivity.
Defined.

(** *** Only recent, non-empty weeks are stored *)

Section Recent.
Context (env : Env) (fuel : nat).
Context (referenceTime : Z) (ids : list Z) (before : list ActivityData).

(** A row the batch may add. *)
Local Abbreviation fresh_row :=
  (λ act : ActivityData,
     commits act ≠ 0 ∧ date act > referenceTime ∧ repositoryId act ∈ ids).

Local Abbreviation Inv :=
  (λ st : State,
     ∀ act, act ∈ activities (dbService st) → act ∈ before ∨ fresh_row act).

Lemma recent_gh {A} (m : M TokenManager.State A) : preserves Inv (gh m).
Proof. apply preserves_lift_frame. auto. Qed.

Lemma recent_read {A} (f : DB → A * DB) :
  (∀ db, activities (snd (f db)) = activities db) →
  preserves Inv (dbs (statement (db_error env) f)).
Proof.
  intros Hf.
  apply (dbs_keeps_activities _ _ (λ l, ∀ act, act ∈ l → act ∈ before ∨ fresh_row act)).
  exact Hf.
Qed.

Lemma recent_bulk l :
  Forall fresh_row l →
  preserves Inv (dbs (bulkCreateActivities (db_error env) l)).
Proof.
  intros Hl.
  apply (hoare_lift _ _ _ _
           (λ db, ∀ act, act ∈ activities db → act ∈ before ∨ fresh_row act)
           (λ _ db, ∀ act, act ∈ activities db → act ∈ before ∨ fresh_row act)); auto.
  apply statement_preserves; [auto|]. intros db H act Hact. simpl in Hact.
  apply bulk_activities_elem in Hact as [Hact|Hact]; [auto|].
  right. rewrite Forall_forall in Hl. apply Hl, Hact.
Qed.

Lemma recent_rows (developer : DeveloperRow) repositoryId (weeks : list Week) :
  repositoryId ∈ ids →
  Forall fresh_row
    (map (λ activity, mkActivityData (c activity) (a activity) (d activity)
                                     (w activity) (dev_id developer) repositoryId)
         (recent_activities referenceTime weeks)).
Proof.
  intros Hid. apply Forall_forall. intros act Hact.
  apply list_elem_of_In, in_map_iff in Hact as (wk & <- & Hwk).
  apply list_elem_of_In in Hwk. unfold recent_activities in Hwk.
  apply list_elem_of_filter in Hwk as [[Hc Hw] _]. simpl. auto.
Qed.

Lemma processContributor_recent contribution repositoryId :
  repositoryId ∈ ids →
  preserves Inv (processContributor env contribution repositoryId referenceTime).
Proof.
  intros Hid. unfold processContributor.
  repeat first [ apply recent_gh
               | apply recent_bulk, recent_rows, Hid
               | apply recent_read; reflexivity
               | apply recent_read; intros db; simpl; destruct (head _); reflexivity
               | preserves_step ].
Qed.

Lemma process_contributors_recent contributorsData repositoryId :
  repositoryId ∈ ids →
  hoare Inv (process_contributors env contributorsData repositoryId referenceTime)
        (λ r st, Inv st ∧ ∀ e, r ≠ Throw e).
Proof.
  intros Hid. induction contributorsData as [|x l IH]; simpl.
  - apply hoare_ret. split; [auto|discriminate].
  - eapply (hoare_bind _ _ _ (λ r st, Inv st ∧ ∀ e, r ≠ Throw e)).
    + eapply (hoare_try_catch _ _ _ (λ _, Inv)).
      * apply processContributor_recent, Hid.
      * intros e. apply hoare_ret. split; [auto|discriminate].
      * intros [] st H. split; [auto|discriminate].
      * intros st H. split; [auto|discriminate].
    + intros []. eapply hoare_conseq; [exact IH| |]; simpl; tauto.
    + intros e st [_ H]. destruct (H e eq_refl).
    + intros st [H _]. split; [auto|discriminate].
Qed.

(** [processRepository] keeps the invariant, and what it throws is not a
    404. *)
Lemma processRepository_recent repo :
  row_id repo ∈ ids →
  hoare Inv (processRepository env fuel repo referenceTime)
        (λ r st, Inv st ∧ ∀ e, r = Throw e → status_is e 404 = false).
Proof.
  intros Hid. unfold processRepository.
  eapply (hoare_try_catch _ _ _
            (λ r st, Inv st ∧ ∀ e, r = Throw e → status_is e 404 = false)).
  - eapply (hoare_bind _ _ _
              (λ r st, Inv st ∧ ∀ e, r = Throw e → status_is e 404 = false)).
    + apply (hoare_lift Inv _ _ _ (λ _, True)
               (λ r _, ∀ e, r = Throw e → status_is e 404 = false)).
      * intros st r st' _ E e ->.
        eapply getContributorsActivity_no_404; eauto.
      * auto.
      * intros st r g HI Hr. split; [exact HI | exact Hr].
    + intros [[|x l]|]; cbv beta iota;
        try (apply hoare_ret; intros st [HI _]; split; [auto|discriminate]).
      eapply hoare_conseq; [apply process_contributors_recent, Hid| |]; cbv beta.
      * tauto.
      * intros r st [HI Hr]. split; [auto|]. intros e ->. destruct (Hr e eq_refl).
    + intros e st [HI Hr]. split; [auto|].
      intros e0 E. inversion E; subst. apply Hr. reflexivity.
    + intros st [HI _]. split; [auto|discriminate].
  - intros e. apply hoare_throw. intros st [HI Hr]. split; [auto|].
    intros e' E. inversion E; subst. auto.
  - intros [] st [HI _]. split; [auto|discriminate].
  - intros st [HI _]. split; [auto|discriminate].
Qed.

(** The loop of [processBatch]: it keeps the invariant, it does not throw,
    and every repository is counted once, as processed or as an error. *)
Lemma process_repos_recent repos : ∀ processedCount errorCount,
  Forall (λ repo, row_id repo ∈ ids) repos →
  hoare Inv (process_repos env fuel repos referenceTime processedCount errorCount)
        (λ r st, Inv st ∧ (∀ e, r ≠ Throw e) ∧
                 ∀ p e, r = Ok (p, e) →
                        p + e = processedCount + errorCount + Z.of_nat (length repos) ∧
                        processedCount <= p ∧ errorCount <= e).
Proof.
  induction repos as [|repo rest IH]; intros processedCount errorCount Hids.
  - apply hoare_ret. intros st HI. split; [exact HI|]. split; [discriminate|].
    intros p e E. inversion E; subst. simpl. lia.
  - apply Forall_cons in Hids as [Hid Hids]. simpl process_repos.
    eapply (hoare_bind _ _ _
              (λ r st, Inv st ∧ (∀ e, r ≠ Throw e) ∧
                       ∀ counts, r = Ok counts →
                         fst counts + snd counts = processedCount + errorCount + 1 ∧
                         processedCount <= fst counts ∧ errorCount <= snd counts)).
    + eapply (hoare_try_catch _ _ _
                (λ r st, Inv st ∧
                         (∀ e, r = Throw e → status_is e 404 = false) ∧
                         ∀ counts, r = Ok counts →
                                   counts = (processedCount + 1, errorCount))).
      * eapply hoare_bind; [apply processRepository_recent, Hid| | |]; cbv beta.
        -- intros []. apply hoare_ret. intros st [HI _]. split; [auto|].
           split; [discriminate|]. intros counts E. inversion E; subst. reflexivity.
        -- intros e st [HI Hr]. split; [auto|]. split; [|discriminate].
           intros e0 E. inversion E; subst. apply Hr. reflexivity.
        -- intros st [HI _]. split; [auto|]. split; discriminate.
      * intros e st r st' (HI & Hr & _). rewrite (Hr e eq_refl).
        intros E. inversion E; subst. split; [exact HI|]. split; [discriminate|].
        intros counts Ec. inversion Ec; subst. simpl. lia.
      * intros counts st (HI & _ & Hc). split; [exact HI|]. split; [discriminate|].
        intros counts' E. inversion E; subst. rewrite (Hc _ eq_refl). simpl. lia.
      * intros st (HI & _). split; [exact HI|]. split; discriminate.
    + intros counts.
      intros st r st' (HI & _ & Hc) E.
      destruct (Hc counts eq_refl) as (Hsum & Hp & He).
      destruct (IH (fst counts) (snd counts) Hids st r st' HI E) as (HI' & Hnt & Hcount).
      split; [exact HI'|]. split; [exact Hnt|].
      intros p e Er. destruct (Hcount p e Er) as (Hs' & Hp' & He').
      simpl length. lia.
    + intros e st (_ & H & _). destruct (H e eq_refl).
    + intros st (HI & _). split; [exact HI|]. split; discriminate.
Qed.

End Recent.

(** X15. [processBatch] does not throw and counts every repository once:
    when it returns, [processedCount + errorCount] is the size of the batch
    and neither counter is negative. *)
Theorem processBatch_counts_every_repository env fuel repos st r st' :
  processBatch env fuel repos st = (r, st') →
  (∀ e, r ≠ Throw e) ∧
  (∀ processedCount errorCount,
      r = Ok (processedCount, errorCount) →
      processedCount + errorCount = Z.of_nat (length repos) ∧
      0 <= processedCount ∧ 0 <= errorCount).
Proof.
  unfold processBatch. rewrite (bind_ok get _ st st st) by reflexivity. intros E.
  destruct (process_repos_recent env fuel
              (referenceTime_at (clock (githubService st)))
              (row_id <$> repos) (activities (dbService st)) repos 0 0) with
    (st := st) (r := r) (st' := st') as (_ & Hnt & Hc).
  - apply Forall_forall. intros repo Hr. apply list_elem_of_fmap. eauto.
  - intros act Hact. auto.
  - exact E.
  - split; [exact Hnt|]. intros p e Er. destruct (Hc p e Er). lia.
Qed.

Lemma processBatch_counts_every_repository_witness :
  (∀ e, Ok (1, 0) ≠ Throw e) ∧
  (∀ processedCount errorCount,
     Ok (1, 0) = Ok (processedCount, errorCount) →
     processedCount + errorCount = Z.of_nat (length [ServiceExamples.gone_repo]) ∧
     0 <= processedCount ∧ 0 <= errorCount).
Proof.
  apply (processBatch_counts_every_repository
           (ServiceExamples.env_of ServiceExamples.stats_not_found) 5
           [ServiceExamples.gone_repo] ServiceExamples.activity_worker (Ok (1, 0))
           (snd (processBatch (ServiceExamples.env_of ServiceExamples.stats_not_found) 5
                   [ServiceExamples.gone_repo] ServiceExamples.activity_worker))).
  vm_compute. reflexivity.
Defined.

(** X16. [processBatch] stores only what the filter lets through: every
    activity row present after the call was there before it, or has
    [commits ≠ 0], a week after the reference time of the call (26 weeks
    before its start), and the [id] of a repository of the batch as
    [repositoryId]. *)
Theorem processBatch_stores_recent_weeks_only env fuel repos st r st' act :
  processBatch env fuel repos st = (r, st') →
  act ∈ activities (dbService st') →
  act ∈ activities (dbService st) ∨
  (commits act ≠ 0 ∧
   date act > referenceTime_at (clock (githubService st)) ∧
   ∃ repo, repo ∈ repos ∧ repositoryId act = row_id repo).
Proof.
  unfold processBatch. rewrite (bind_ok get _ st st st) by reflexivity. intros E Hact.
  destruct (process_repos_recent env fuel
              (referenceTime_at (clock (githubService st)))
              (row_id <$> repos) (activities (dbService st)) repos 0 0) with
    (st := st) (r := r) (st' := st') as (HI & _).
  - apply Forall_forall. intros repo Hr. apply list_elem_of_fmap. eauto.
  - intros x Hx. auto.
  - exact E.
  - destruct (HI act Hact) as [H|(Hc & Hd & Hid)]; [auto|right].
    split; [exact Hc|]. split; [exact Hd|].
    apply list_elem_of_fmap in Hid as (repo & -> & Hr). eauto.
Qed.

Lemma processBatch_stores_recent_weeks_only_witness :
  let env := ServiceExamples.env_of ActivityExamples.alice_contributes in
  activities (dbService (snd (processBatch env 5 [ServiceExamples.gone_repo]
                                ServiceExamples.activity_worker)))
    = [ActivityExamples.alice_row] ∧
  (ActivityExamples.alice_row ∈ activities (dbService ServiceExamples.activity_worker) ∨
   (commits ActivityExamples.alice_row ≠ 0 ∧
    date ActivityExamples.alice_row
      > referenceTime_at (clock (githubService ServiceExamples.activity_worker)) ∧
    ∃ repo, repo ∈ [ServiceExamples.gone_repo] ∧
            repositoryId ActivityExamples.alice_row = row_id repo)).
Proof.
  intros env. split; [vm_compute; reflexivity|].
  apply (processBatch_stores_recent_weeks_only env 5 [ServiceExamples.gone_repo]
           ServiceExamples.activity_worker
           (fst (processBatch env 5 [ServiceExamples.gone_repo]
                   ServiceExamples.activity_worker))
           (snd (processBatch env 5 [ServiceExamples.gone_repo]
                   ServiceExamples.activity_worker))).
  - destruct (processBatch env 5 _ _); reflexivity.
  - assert (E : activities (dbService (snd (processBatch env 5 [ServiceExamples.gone_repo]
                                ServiceExamples.activity_worker)))
                = [ActivityExamples.alice_row]) by (vm_compute; reflexivity).
    rewrite E. left.
Defined.

End ActivityStoreFacts.


(** ** More on the service *)

Module ServiceLookupFacts.
Import Js JsFacts TokenManager TokenManagerFacts ExecuteFacts GitHubService.
Import QueryVocabulary.

(** *** Lookups and 404 *)

Lemma classify_not_found attempt e :
  status e = Some 404 → classify attempt e = Rethrow.
Proof.
  intros H. apply classify_client_error; unfold status_ge, status_lt, status_is;
    rewrite H; reflexivity.
Qed.

Section Lookup.
Context (up : Upstream) {A B : Type}.
Context (requestFn : nat → nat → Res (Response A)) (read : Response A → B).
Context (missing : B).

(** The shape shared by [getRepository] and [getUser]. *)
Local Abbreviation lookup :=
  (try_catch
     (let* response := execute up core requestFn in ret (read response))%js
     (λ error, if status_is error 404 then ret missing else throw error)).

Lemma lookup_not_found st sel st1 e :
  tokens st ≠ [] →
  getBestToken (net up) core st = (Ok sel, st1) →
  requestFn (calls st1) (tokenId sel) = Throw e →
  status e = Some 404 →
  lookup st = (Ok missing, upstream_call (EvRequest (tokenId sel)) (net up) st1).
Proof.
  intros Hne Hg Hr H404.
  assert (Hx : execute up core requestFn st
               = (Throw e, upstream_call (EvRequest (tokenId sel)) (net up) st1)).
  { unfold execute, TokenManager.execute.
    destruct (tokens st) as [|t0 l] eqn:El; [congruence|]. simpl length.
    rewrite (attempts_step _ _ _ _ _ _ _ _ _
               (attempt_body_request_fails _ _ _ _ _ _ _ Hg Hr)).
    rewrite (classify_not_found _ _ H404). reflexivity. }
  unfold try_catch. rewrite (bind_throw _ _ _ _ _ Hx).
  unfold status_is. rewrite H404. reflexivity.
Qed.

Lemma lookup_never_404 st e st' :
  lookup st = (Throw e, st') → status e ≠ Some 404.
Proof.
  unfold try_catch. destruct (bind _ _ st) as [[x|e0|] st1]; try discriminate.
  destruct (status_is e0 404) eqn:E; [discriminate|].
  intros H; inversion H; subst. unfold status_is in E. intros H404.
  rewrite H404 in E. discriminate.
Qed.

End Lookup.

(** X17. A missing repository or user is an answer, not an error: when
    the request of [getRepository] or [getUser] is rejected with a 404, the
    method resolves to [null] after that one request, without another
    attempt, pause or probe; and neither method ever rejects with a 404. *)
Theorem lookups_resolve_not_found_to_null up st sel st1 :
  tokens st ≠ [] →
  getBestToken (net up) core st = (Ok sel, st1) →
  (∀ owner repo e,
      repo_api up owner repo (calls st1) (tokenId sel) = Throw e →
      status e = Some 404 →
      getRepository up owner repo st
        = (Ok None, upstream_call (EvRequest (tokenId sel)) (net up) st1)) ∧
  (∀ username e,
      user_api up username (calls st1) (tokenId sel) = Throw e →
      status e = Some 404 →
      getUser up username st
        = (Ok None, upstream_call (EvRequest (tokenId sel)) (net up) st1)) ∧
  (∀ owner repo e st',
      getRepository up owner repo st = (Throw e, st') → status e ≠ Some 404) ∧
  (∀ username e st',
      getUser up username st = (Throw e, st') → status e ≠ Some 404).
Proof.
  intros Hne Hg. split; [|split; [|split]].
  - intros owner repo e Hr H404.
    exact (lookup_not_found up (repo_api up owner repo) data None st sel st1 e
             Hne Hg Hr H404).
  - intros username e Hr H404.
    exact (lookup_not_found up (user_api up username) data None st sel st1 e
             Hne Hg Hr H404).
  - intros owner repo e st'.
    exact (lookup_never_404 up (repo_api up owner repo) data None st e st').
  - intros username e st'.
    exact (lookup_never_404 up (user_api up username) data None st e st').
Qed.

Lemma lookups_resolve_not_found_to_null_witness :
  getRepository ServiceExamples.stats_not_found "acme" "gone" PoolExamples.two_fresh
    = (Ok None,
       upstream_call (EvRequest 0) ServiceExamples.net_up
         (snd (getBestToken ServiceExamples.net_up core PoolExamples.two_fresh))).
Proof.
  destruct (lookups_resolve_not_found_to_null ServiceExamples.stats_not_found
              PoolExamples.two_fresh (mkSelection 0 10)
              (snd (getBestToken ServiceExamples.net_up core PoolExamples.two_fresh)))
    as (H & _).
  - discriminate.
  - vm_compute. reflexivity.
  - apply (H "acme" "gone" (mkError (Some 404) "Not Found")); reflexivity.
Defined.

(** *** The query of a code search *)

Lemma concat_snoc (l : list string) (t : string) :
  String.concat "+" (l ++ [t])
  = match l with
    | [] => t
    | _ => String.concat "+" l +:+ "+" +:+ t
    end.
Proof.
  induction l as [|x l IH]; [reflexivity|].
  destruct l as [|y l]; [reflexivity|].
  change (String.concat "+" ((x :: y :: l) ++ [t]))
    with (x +:+ "+" +:+ String.concat "+" ((y :: l) ++ [t])).
  rewrite IH.
  change (String.concat "+" (x :: y :: l))
    with (x +:+ "+" +:+ String.concat "+" (y :: l)).
  rewrite !string_app_assoc. reflexivity.
Qed.

Lemma append_nonempty (a b : string) : b ≠ ""%string → (a +:+ b ≠ "")%string.
Proof. destruct a; [auto|discriminate]. Qed.

Lemma concat_nonempty (l : list string) :
  Forall (λ t, t ≠ ""%string) l → l ≠ [] → String.concat "+" l ≠ ""%string.
Proof.
  intros Hall Hne. destruct l as [|x l]; [congruence|].
  apply Forall_cons in Hall as [Hx _].
  destruct l as [|y l]; [exact Hx|].
  change (String.concat "+" (x :: y :: l))
    with (x +:+ "+" +:+ String.concat "+" (y :: l)).
  destruct x; [congruence|discriminate].
Qed.

Lemma truthy_nonempty v x : truthy v = Some x → x ≠ ""%string.
Proof. destruct v as [[|c s]|]; simpl; intros E; inversion E; subst; discriminate. Qed.

Lemma term_nonempty label v : Forall (λ t, t ≠ ""%string) (term label v).
Proof.
  unfold term. destruct (truthy v) as [x|] eqn:E; [|constructor].
  repeat constructor. apply append_nonempty. eapply truthy_nonempty; eauto.
Qed.

Lemma add_term_snoc label v (terms : list string) :
  Forall (λ t, t ≠ ""%string) terms →
  add_term label v (String.concat "+" terms) = String.concat "+" (terms ++ term label v).
Proof.
  intros Hall. unfold add_term, term. destruct (truthy v) as [x|];
    [|rewrite app_nil_r; reflexivity].
  rewrite concat_snoc. destruct terms as [|y l]; [reflexivity|].
  rewrite bool_decide_eq_false_2; [reflexivity|].
  apply concat_nonempty; [exact Hall|discriminate].
Qed.

(** X18. The query of [searchCode] is its terms joined by ["+"]: the
    present and non-empty parameters contribute, in the order filename,
    extension, keyword, size, in, the terms [filename:…], [extension:…], the
    bare keyword, [size:…] and [in:…]; an absent or empty parameter
    contributes nothing, and no separator is left over. *)
Theorem searchCode_query_joins_terms up filename extension keyword sizeRange inLocation
    perPage page :
  searchCode up filename extension keyword sizeRange inLocation perPage page
  = try_catch
      (let* response :=
         execute up code_search
           (search_code_api up
              (String.concat "+"
                 (code_terms filename extension keyword sizeRange inLocation))
              perPage page) in
       ret (mkSearchResult (default [] (items (data response)))
                           (default 0 (total_count (data response)))
                           (default false (incomplete_results (data response)))))%js
      throw.
Proof.
  unfold searchCode. cbv zeta.
  assert (E : add_term "in:" inLocation
                (add_term "size:" sizeRange
                   (add_term "" keyword
                      (add_term "extension:" extension
                         (add_term "filename:" filename ""))))
              = String.concat "+"
                  (code_terms filename extension keyword sizeRange inLocation)).
  { unfold code_terms.
    change (add_term "filename:" filename "")
      with (add_term "filename:" filename (String.concat "+" [])).
    rewrite (add_term_snoc "filename:" filename [] (Forall_nil_2 _)), app_nil_l.
    rewrite add_term_snoc by apply term_nonempty.
    rewrite add_term_snoc by (apply Forall_app; split; apply term_nonempty).
    rewrite add_term_snoc
      by (repeat (apply Forall_app; split); apply term_nonempty).
    rewrite add_term_snoc
      by (repeat (apply Forall_app; split); apply term_nonempty).
    rewrite <- !app_assoc. reflexivity. }
  rewrite E. reflexivity.
Qed.

End ServiceLookupFacts.


(** ** A discovery run comes to an end *)

Module DiscoveryProgressFacts.
Import Js JsFacts HoareFacts TokenManager GitHubService DatabaseService Config.
Import PoolVocabulary QueryVocabulary PoolLockFacts StorageFacts SizeRangesFacts.
Import RepositoryDiscoveryWorker.

(** *** Methods that settle and keep an invariant *)

Section Settle.
Context {S : Type} (I : S → Prop).

Local Abbreviation settles m := (hoare I m (λ r st, settled r ∧ I st)).

Lemma settle_bind {A B} (m : M S A) (k : A → M S B) :
  settles m → (∀ a, settles (k a)) → settles (bind m k).
Proof.
  intros Hm Hk. eapply hoare_bind; [exact Hm| | |].
  - intros a. eapply hoare_conseq; [apply Hk| |auto]. intros st [_ H]. exact H.
  - intros e st [_ H]. split; [discriminate|exact H].
  - intros st [H _]. destruct H. reflexivity.
Qed.

Lemma settle_try_catch {A} (m : M S A) (h : Error → M S A) :
  settles m → (∀ e, settles (h e)) → settles (try_catch m h).
Proof.
  intros Hm Hh. eapply hoare_try_catch; [exact Hm| | |].
  - intros e. eapply hoare_conseq; [apply Hh| |auto]. intros st [_ H]. exact H.
  - intros a st [_ H]. split; [discriminate|exact H].
  - intros st [H _]. destruct H. reflexivity.
Qed.

Lemma settle_ret {A} (a : A) : settles (ret a).
Proof. apply hoare_ret. intros st H. split; [discriminate|exact H]. Qed.

Lemma settle_throw {A} e : settles (throw (A:=A) e).
Proof. apply hoare_throw. intros st H. split; [discriminate|exact H]. Qed.

Lemma settle_get : settles get.
Proof. apply hoare_get. intros st H. split; [discriminate|exact H]. Qed.

Lemma settle_modify (f : S → S) : (∀ st, I st → I (f st)) → settles (modify f).
Proof. intros Hf. apply hoare_modify. intros st H. split; [discriminate|auto]. Qed.

End Settle.

(** *** The service *)

Section Service.
Context (up : Upstream).
Hypothesis up_responsive : responsive up.

Local Abbreviation free := (λ st : TokenManager.State, rotationLock st = false).

Lemma execute_lock {A} apiType (requestFn : nat → nat → Res A) :
  (∀ n tokenId, settled (requestFn n tokenId)) →
  hoare free (execute up apiType requestFn) (λ r st, settled r ∧ free st).
Proof.
  intros Hreq st r st' HP E. unfold execute, TokenManager.execute in E.
  exact (attempts_lock (net up) requestFn Hreq apiType _ _ _ st r st' HP E).
Qed.

Lemma searchCode_settles filename extension keyword sizeRange inLocation perPage page :
  hoare free (searchCode up filename extension keyword sizeRange inLocation perPage page)
        (λ r st, settled r ∧ free st).
Proof.
  unfold searchCode. cbv zeta.
  apply settle_try_catch; [|intros e; apply settle_throw].
  apply settle_bind; [|intros response; apply settle_ret].
  apply execute_lock. intros n tokenId. apply up_responsive.
Qed.

Lemma searchRepositories_settles keywords language stars pushed perPage page :
  hoare free (searchRepositories up keywords language stars pushed perPage page)
        (λ r st, settled r ∧ free st).
Proof.
  unfold searchRepositories. cbv zeta.
  apply settle_try_catch; [|intros e; apply settle_throw].
  apply settle_bind; [|intros response; apply settle_ret].
  apply execute_lock. intros n tokenId. apply up_responsive.
Qed.

Lemma getRepository_settles owner repo :
  hoare free (getRepository up owner repo) (λ r st, settled r ∧ free st).
Proof.
  unfold getRepository.
  apply settle_try_catch;
    [|intros e; destruct (status_is e 404); [apply settle_ret|apply settle_throw]].
  apply settle_bind; [|intros response; apply settle_ret].
  apply execute_lock. intros n tokenId. apply up_responsive.
Qed.

Lemma getTrendingRepositories_settles language days perPage :
  hoare free (getTrendingRepositories up language days perPage)
        (λ r st, settled r ∧ free st).
Proof.
  unfold getTrendingRepositories.
  apply settle_bind; [apply settle_get|]. intros st. cbv zeta.
  apply searchRepositories_settles.
Qed.

End Service.

(** *** The worker *)

Section Worker.
Context (env : Env) (fuel : nat).
Hypothesis up_responsive : responsive (up env).

Local Abbreviation unlocked :=
  (λ st : State, rotationLock (githubService st) = false).
Local Abbreviation ends m := (hoare unlocked m (λ r st, settled r ∧ unlocked st)).

Lemma gh_ends {A} (m : M TokenManager.State A) :
  hoare (λ st, rotationLock st = false) m
        (λ r st, settled r ∧ rotationLock st = false) →
  ends (gh m).
Proof.
  intros Hm.
  apply (hoare_lift _ _ _ _ (λ st, rotationLock st = false)
           (λ r st, settled r ∧ rotationLock st = false)); auto.
Qed.

Lemma dbs_ends {A} (f : DB → A * DB) : ends (dbs (statement (db_error env) f)).
Proof.
  intros st r st' HP E. unfold dbs, lift in E.
  destruct (statement _ _ (dbService st)) as [r0 db'] eqn:Es.
  injection E as <- <-. split; [|exact HP].
  intros ->. exact (statement_settles _ _ _ _ Es).
Qed.

Ltac ends_step :=
  lazymatch goal with
  | |- hoare _ (bind _ _) _ => apply settle_bind; [|intros ?]
  | |- hoare _ (try_catch _ _) _ => apply settle_try_catch; [|intros ?]
  | |- hoare _ (ret _) _ => apply settle_ret
  | |- hoare _ (throw _) _ => apply settle_throw
  | |- hoare _ get _ => apply settle_get
  | |- hoare _ (modify _) _ => apply settle_modify; intros ? H; exact H
  | |- hoare _ (dbs _) _ => apply dbs_ends
  | |- hoare _ (gh (getRepository _ _ _)) _ =>
      apply gh_ends, getRepository_settles, up_responsive
  | |- hoare _ (gh (searchCode _ _ _ _ _ _ _ _)) _ =>
      apply gh_ends, searchCode_settles, up_responsive
  | |- hoare _ (gh (searchRepositories _ _ _ _ _ _ _)) _ =>
      apply gh_ends, searchRepositories_settles, up_responsive
  | |- hoare _ (gh (getTrendingRepositories _ _ _ _)) _ =>
      apply gh_ends, getTrendingRepositories_settles, up_responsive
  | |- hoare _ (match ?x with _ => _ end) _ => destruct x
  | |- hoare _ (let _ := _ in _) _ => cbv zeta
  end.

Lemma process_code_items_ends items eco type : ∀ reposData repoTypesData,
  ends (process_code_items env items eco type reposData repoTypesData).
Proof.
  induction items as [|item rest IH]; intros reposData repoTypesData.
  - apply settle_ret.
  - change (process_code_items env (item :: rest) eco type reposData repoTypesData)
      with (bind
              match repository item return M State (list RepoData * list RepoTypeData) with
              | None => ret (reposData, repoTypesData)
              | Some repository =>
                  if (repo_id repository =? 0) || bool_decide (repo_name repository = "")
                  then ret (reposData, repoTypesData)
                  else
                    let repoKey :=
                      repoKey_of (repo_owner_login repository) (repo_name repository) in
                    (let* st := get in
                     if bool_decide (repoKey ∈ processedRepos st)
                     then ret (reposData, repoTypesData)
                     else
                       try_catch
                         (let* repoDetails :=
                            gh (getRepository (up env) (repo_owner_login repository)
                                              (repo_name repository)) in
                          match repoDetails
                                return M State (list RepoData * list RepoTypeData) with
                          | None => ret (reposData, repoTypesData)
                          | Some repoDetails =>
                              let repoData :=
                                mkRepoData (String_of (repo_id repository))
                                           (repo_name repository)
                                           (repo_html_url repository)
                                           (repo_owner_login repository)
                                           (rd_created_at repoDetails / 1000)
                                           eco false
                                           (default 0 (rd_open_issues_count repoDetails))
                                           (default 0 (rd_stargazers_count repoDetails)) in
                              modify (add_processedRepo repoKey);;
                              ret (reposData ++ [repoData],
                                   match truthy type with
                                   | Some type =>
                                       repoTypesData ++
                                         [mkRepoTypeData (String_of (repo_id repository)) type]
                                   | None => repoTypesData
                                   end)
                          end)
                         (λ error, ret (reposData, repoTypesData)))%js
              end
              (λ data, process_code_items env rest eco type (fst data) (snd data))).
    apply settle_bind; [|intros data; apply IH].
    repeat ends_step.
Qed.

Lemma processCodeSearchResults_ends items eco type :
  ends (processCodeSearchResults env items eco type).
Proof.
  unfold processCodeSearchResults.
  apply settle_bind; [apply process_code_items_ends|]. intros data.
  repeat ends_step.
Qed.

Lemma process_repo_items_ends items eco : ∀ reposData,
  ends (process_repo_items env items eco reposData).
Proof.
  induction items as [|repo rest IH]; intros reposData.
  - apply settle_ret.
  - simpl process_repo_items. cbv zeta.
    apply settle_bind; [apply settle_get|]. intros st.
    apply settle_bind; [|intros data; apply IH].
    repeat ends_step.
Qed.

Lemma processRepoSearchResults_ends items eco :
  ends (processRepoSearchResults env items eco).
Proof.
  unfold processRepoSearchResults.
  apply settle_bind; [apply process_repo_items_ends|]. intros data.
  repeat ends_step.
Qed.

Lemma code_pages_ends query sizeRange pages : ∀ totalFound,
  ends (code_pages env query sizeRange pages totalFound).
Proof.
  induction pages as [|page rest IH]; intros totalFound.
  - apply settle_ret.
  - change (code_pages env query sizeRange (page :: rest) totalFound)
      with (bind
              (try_catch
                 (let* result :=
                    gh (searchCode (up env) (filename query) (extension query)
                                   (keyword query) (Some sizeRange) None 100 page) in
                  if bool_decide (length (sr_items result) = 0%nat)
                  then ret (totalFound, false)
                  else
                    let* reposData :=
                      processCodeSearchResults env (sr_items result)
                                               (ecosystem (config env)) (type query) in
                    ret (totalFound + Z.of_nat (length reposData),
                         negb (bool_decide (length (sr_items result) < 100)%nat)))%js
                 (λ error, ret (totalFound, false)))
              (λ next, if snd next then code_pages env query sizeRange rest (fst next)
                       else ret (fst next))).
    apply settle_bind.
    + apply settle_try_catch; [|intros e; apply settle_ret].
      apply settle_bind; [apply gh_ends, searchCode_settles, up_responsive|].
      intros result. destruct (bool_decide _); [apply settle_ret|].
      apply settle_bind; [apply processCodeSearchResults_ends|].
      intros reposData. apply settle_ret.
    + intros next. destruct (snd next); [apply IH|apply settle_ret].
Qed.

Lemma code_ranges_ends query sizeRanges : ∀ totalFound,
  ends (code_ranges env query sizeRanges totalFound).
Proof.
  induction sizeRanges as [|sizeRange rest IH]; intros totalFound.
  - apply settle_ret.
  - change (code_ranges env query (sizeRange :: rest) totalFound)
      with (bind (code_pages env query sizeRange (seqZ 1 10) totalFound)
                 (λ totalFound, code_ranges env query rest totalFound)).
    apply settle_bind; [apply code_pages_ends|]. intros total. apply IH.
Qed.

Lemma code_queries_ends queries sizeRanges : ∀ totalFound,
  ends (code_queries env queries sizeRanges totalFound).
Proof.
  induction queries as [|query rest IH]; intros totalFound.
  - apply settle_ret.
  - change (code_queries env (query :: rest) sizeRanges totalFound)
      with (bind (code_ranges env query sizeRanges totalFound)
                 (λ totalFound, code_queries env rest sizeRanges totalFound)).
    apply settle_bind; [apply code_ranges_ends|]. intros total. apply IH.
Qed.

Lemma repo_pages_ends keyword pages : ∀ totalFound,
  ends (repo_pages env keyword pages totalFound).
Proof.
  induction pages as [|page rest IH]; intros totalFound.
  - apply settle_ret.
  - change (repo_pages env keyword (page :: rest) totalFound)
      with (bind
              (try_catch
                 (let* result :=
                    gh (searchRepositories (up env) keyword (Some "rust") (Some ">=5")
                                           None 100 page) in
                  if bool_decide (length (sr_items result) = 0%nat)
                  then ret (totalFound, false)
                  else
                    let* reposData :=
                      processRepoSearchResults env (sr_items result)
                                               (ecosystem (config env)) in
                    ret (totalFound + Z.of_nat (length reposData),
                         negb (bool_decide (length (sr_items result) < 100)%nat)))%js
                 (λ error, ret (totalFound, false)))
              (λ next, if snd next then repo_pages env keyword rest (fst next)
                       else ret (fst next))).
    apply settle_bind.
    + apply settle_try_catch; [|intros e; apply settle_ret].
      apply settle_bind; [apply gh_ends, searchRepositories_settles, up_responsive|].
      intros result. destruct (bool_decide _); [apply settle_ret|].
      apply settle_bind; [apply processRepoSearchResults_ends|].
      intros reposData. apply settle_ret.
    + intros next. destruct (snd next); [apply IH|apply settle_ret].
Qed.

Lemma repo_keywords_ends keywords : ∀ totalFound,
  ends (repo_keywords env keywords totalFound).
Proof.
  induction keywords as [|keyword rest IH]; intros totalFound.
  - apply settle_ret.
  - change (repo_keywords env (keyword :: rest) totalFound)
      with (bind (repo_pages env keyword (seqZ 1 10) totalFound)
                 (λ totalFound, repo_keywords env rest totalFound)).
    apply settle_bind; [apply repo_pages_ends|]. intros total. apply IH.
Qed.

Lemma searchTrending_ends : ends (searchTrending env).
Proof.
  unfold searchTrending.
  apply settle_try_catch; [|intros e; apply settle_ret].
  apply settle_bind; [apply gh_ends, getTrendingRepositories_settles, up_responsive|].
  intros result.
  apply settle_bind; [apply processRepoSearchResults_ends|].
  intros reposData. apply settle_ret.
Qed.

Lemma strategies_ends :
  (8 <= fuel)%nat → ends (strategies env fuel).
Proof.
  intros Hfuel. unfold strategies.
  apply settle_bind; [|intros codeResults].
  - unfold searchByCode.
    assert (Hg : SizeRanges.generateSizeRanges fuel
                 = Some (map SizeRanges.render SizeRanges.expected_bounds)).
    { replace fuel with (8 + (fuel - 8))%nat by lia.
      exact (generate_more_fuel SizeRanges.template 8 (fuel - 8) _ strings_at_8). }
    rewrite Hg. apply code_queries_ends.
  - apply settle_bind.
    + unfold searchByRepository. apply repo_keywords_ends.
    + intros repoResults.
      apply settle_bind; [apply searchTrending_ends|]. intros trendingResults.
      apply settle_ret.
Qed.

End Worker.

(** X19. A discovery run comes to an end: when the selection lock is free,
    every request to the upstream is answered or rejected, and the size
    ranges are given the eight iterations they need, [run] returns
    normally, however many results the searches report and whatever fails on
    the way; the lock is free again and [isRunning] is what it was. *)
Theorem discovery_run_ends env fuel st :
  responsive (up env) →
  (8 <= fuel)%nat →
  rotationLock (githubService st) = false →
  ∃ st', run env fuel st = (Ok tt, st') ∧
         rotationLock (githubService st') = false ∧
         isRunning st' = isRunning st.
Proof.
  intros Hup Hfuel Hfree. unfold run.
  destruct (isRunning st) eqn:Hrun; [exists st; auto|].
  unfold finally.
  destruct (try_catch (strategies env fuel) (λ _, ret tt) (set_isRunning true st))
    as [r st1] eqn:E.
  assert (H : hoare (λ st, rotationLock (githubService st) = false)
                (try_catch (strategies env fuel) (λ _, ret tt))
                (λ r st, settled r ∧ rotationLock (githubService st) = false))
    by (apply settle_try_catch; [apply strategies_ends; auto|intros; apply settle_ret]).
  destruct (H (set_isRunning true st) r st1 Hfree E) as [Hs Hl].
  assert (Hr : r = Ok tt).
  { unfold try_catch in E.
    destruct (strategies env fuel (set_isRunning true st)) as [[[]|e|] st2];
      inversion E; subst; [reflexivity|reflexivity|destruct Hs; reflexivity]. }
  subst r. exists (set_isRunning false st1). auto.
Qed.

Lemma discovery_run_ends_witness :
  ∃ st', run ServiceExamples.discovery_env 8 ServiceExamples.discovery_worker
           = (Ok tt, st') ∧
         rotationLock (githubService st') = false ∧
         isRunning st' = false.
Proof.
  apply (discovery_run_ends ServiceExamples.discovery_env 8
           ServiceExamples.discovery_worker).
  - repeat split; intros; simpl; try discriminate.
    destruct (_ && _); discriminate.
  - lia.
  - reflexivity.
Defined.

End DiscoveryProgressFacts.


(** ** The configured tokens *)

Module ConfigTokensFacts.
Import Js GitHubService ConfigTokens.

Lemma numbered_inj prefix i j : numbered prefix i = numbered prefix j → i = j.
Proof.
  unfold numbered. intros H. apply String.app_inj in H.
  apply (inj pretty) in H. exact H.
Qed.

Lemma env_var_Some env name value :
  env_var env name = Some value → env !! name = Some value.
Proof.
  unfold env_var, truthy. destruct (env !! name) as [[|c s]|]; intros E;
    inversion E; subst; reflexivity.
Qed.

(** The loop reads only the variables numbered from [index] on. *)
Lemma read_numbered_ext fuel prefix : ∀ env1 env2 index tokens,
  (∀ j, (index <= j)%nat → env1 !! numbered prefix j = env2 !! numbered prefix j) →
  read_numbered fuel env1 prefix index tokens = read_numbered fuel env2 prefix index tokens.
Proof.
  induction fuel as [|fuel IH]; intros env1 env2 index tokens H; simpl;
    unfold env_var; rewrite (H index) by lia;
    destruct (truthy (env2 !! numbered prefix index)); try reflexivity.
  apply IH. intros j Hj. apply H. lia.
Qed.

(** The loop ends within as many iterations as there are variables. *)
Lemma read_numbered_terminates prefix fuel : ∀ env index tokens,
  (size env <= fuel)%nat → is_Some (read_numbered fuel env prefix index tokens).
Proof.
  induction fuel as [|fuel IH]; intros env index tokens Hsize; simpl;
    destruct (env_var env (numbered prefix index)) as [value|] eqn:E; eauto.
  - apply env_var_Some in E.
    assert (size env = 0%nat) as Hz by lia. apply map_size_empty_inv in Hz. subst env.
    rewrite lookup_empty in E. discriminate.
  - apply env_var_Some in E.
    rewrite (read_numbered_ext fuel prefix env (delete (numbered prefix index) env)).
    + apply IH.
      pose proof (map_size_delete_Some (numbered prefix index) env (mk_is_Some _ _ E)).
      lia.
    + intros j Hj. rewrite lookup_delete_ne; [reflexivity|].
      intros Hn. apply numbered_inj in Hn. lia.
Qed.

(** What the loop returns: the tokens it was given, then the run of
    variables from [index]. *)
Lemma read_numbered_spec prefix fuel : ∀ env index tokens result,
  read_numbered fuel env prefix index tokens = Some result →
  ∃ more, result = tokens ++ more ∧
          (∀ i value, more !! i = Some value →
                      env_var env (numbered prefix (index + i)) = Some value) ∧
          env_var env (numbered prefix (index + length more)) = None.
Proof.
  induction fuel as [|fuel IH]; intros env index tokens result; simpl;
    destruct (env_var env (numbered prefix index)) as [value|] eqn:E;
    intros H; try discriminate.
  - inversion H; subst. exists []. rewrite app_nil_r, Nat.add_0_r.
    split; [reflexivity|]. split; [|exact E]. intros i v Hv. discriminate.
  - apply IH in H as (more & -> & Hmore & Hend).
    exists (value :: more). rewrite <- app_assoc. split; [reflexivity|]. split.
    + intros [|i] v Hv; simpl in Hv.
      * inversion Hv; subst. rewrite Nat.add_0_r. exact E.
      * replace (index + S i)%nat with (S index + i)%nat by lia. apply Hmore, Hv.
    + simpl length. replace (index + S (length more))%nat
        with (S index + length more)%nat by lia. exact Hend.
  - inversion H; subst. exists []. rewrite app_nil_r, Nat.add_0_r.
    split; [reflexivity|]. split; [|exact E]. intros i v Hv. discriminate.
Qed.

Lemma read_numbered_run prefix fuel env result :
  read_numbered fuel env prefix 1 [] = Some result → reads_run env prefix result.
Proof.
  intros H. apply read_numbered_spec in H as (more & -> & Hmore & Hend).
  split; [exact Hmore|exact Hend].
Qed.

(** X20. [github.tokens] is read from consecutively numbered variables:
    given as many iterations as the environment has variables, the function
    returns; its result is the run [GITHUB_TOKEN_1], [GITHUB_TOKEN_2], ... up
    to the first variable that is unset or empty, so that a token numbered
    after a gap is not read; the variables [GITHUB_ACCESS_TOKEN_1], ... are
    read, in the same way, only when [GITHUB_TOKEN_1] is unset or empty; and
    when both runs are empty the list is empty and [new GitHubService()]
    throws. *)
Theorem github_tokens_reads_consecutive_variables fuel env :
  (size env <= fuel)%nat →
  ∃ tokens,
    github_tokens fuel env = Some tokens ∧
    (reads_run env "GITHUB_TOKEN_" tokens ∧ tokens ≠ [] ∨
     env_var env "GITHUB_TOKEN_1" = None ∧ reads_run env "GITHUB_ACCESS_TOKEN_" tokens) ∧
    (env_var env "GITHUB_TOKEN_1" = None →
     env_var env "GITHUB_ACCESS_TOKEN_1" = None →
     tokens = [] ∧
     ∀ clock calls trace,
       GitHubService.constructor tokens clock calls trace
       = inl (mkError None "No GitHub tokens configured")).
Proof.
  intros Hfuel. unfold github_tokens.
  destruct (read_numbered_terminates "GITHUB_TOKEN_" fuel env 1 [] Hfuel) as [new Hnew].
  rewrite Hnew. pose proof (read_numbered_run _ _ _ _ Hnew) as Hrun.
  case_bool_decide as Hlen.
  - destruct (read_numbered_terminates "GITHUB_ACCESS_TOKEN_" fuel env 1 [] Hfuel)
      as [old Hold].
    rewrite Hold. pose proof (read_numbered_run _ _ _ _ Hold) as Hrun'.
    exists old. split; [reflexivity|].
    destruct new; [|discriminate]. destruct Hrun as [_ Hgap].
    split; [right; split; [exact Hgap|exact Hrun']|].
    intros _ Hnone. destruct old as [|v old].
    + split; [reflexivity|]. intros. reflexivity.
    + destruct Hrun' as [Hv _]. specialize (Hv 0%nat v eq_refl).
      change (numbered "GITHUB_ACCESS_TOKEN_" 1) with "GITHUB_ACCESS_TOKEN_1"%string in Hv.
      congruence.
  - exists new. split; [reflexivity|].
    assert (Hne : new ≠ []) by (intros ->; apply Hlen; reflexivity).
    split; [left; split; [exact Hrun|exact Hne]|].
    intros Hnone _. destruct new as [|v new]; [congruence|].
    destruct Hrun as [Hv _]. specialize (Hv 0%nat v eq_refl).
    change (numbered "GITHUB_TOKEN_" 1) with "GITHUB_TOKEN_1"%string in Hv.
    congruence.
Qed.

(** Token 3 follows a gap and is not read; the old names are ignored. *)
Lemma github_tokens_reads_consecutive_variables_witness :
  let env : gmap string string :=
    {[ "GITHUB_TOKEN_1" := "ghp_a"; "GITHUB_TOKEN_3" := "ghp_c";
       "GITHUB_ACCESS_TOKEN_1" := "ghp_old" ]}%string in
  github_tokens 3 env = Some ["ghp_a"%string] ∧
  ∃ tokens, github_tokens 3 env = Some tokens ∧
            (reads_run env "GITHUB_TOKEN_" tokens ∧ tokens ≠ [] ∨
             env_var env "GITHUB_TOKEN_1" = None ∧
             reads_run env "GITHUB_ACCESS_TOKEN_" tokens).
Proof.
  intros env. split; [vm_compute; reflexivity|].
  destruct (github_tokens_reads_consecutive_variables 3 env) as (tokens & H & Hrun & _).
  - vm_compute. lia.
  - exists tokens. auto.
Defined.

End ConfigTokensFacts.


(** ** The health report *)

Module HealthCheckFacts.
Import Js JsFacts TokenManager TokenManagerFacts PoolVocabulary PoolHealthFacts.
Import HealthCheck.

Section Pool.
Context (net : Net).

(** One probe, seen from every token. *)
Lemma updateRateLimits_effect index st t :
  tokens st !! index = Some t →
  ∃ o st' t',
    updateRateLimits net index st = (Ok o, st') ∧
    tokens st' = <[index := t']> (tokens st) ∧
    trace st' = trace st ++ [EvProbe index] ∧
    calls st' = S (calls st) ∧
    (∀ res, rate_limit_api net (calls st) index = Some res →
            debug_fields_present res = true → t' = after_success res t).
Proof.
  intros Ht.
  destruct (rate_limit_api net (calls st) index) as [res|] eqn:Hres.
  - destruct (updateRateLimits_answered net index st t res Ht Hres)
      as (st' & Hu & Htok & Htr & Hc).
    eexists _, st', _. split; [exact Hu|]. split; [exact Htok|].
    split; [exact Htr|]. split; [exact Hc|].
    intros res' E Hd. inversion E; subst. rewrite Hd. reflexivity.
  - unfold updateRateLimits. rewrite Ht, Hres.
    eexists _, _, _. split; [reflexivity|].
    split; [apply (note_probe_failure_insert index
                     (upstream_call (EvProbe index) net st) t); exact Ht|].
    split; [reflexivity|]. split; [reflexivity|]. intros res' E. discriminate.
Qed.

Lemma probe_each_spec k : ∀ a st,
  (a + k <= length (tokens st))%nat →
  ∃ statuses st',
    probe_each net (seq a k) st = (Ok statuses, st') ∧
    trace st' = trace st ++ (EvProbe <$> seq a k) ∧
    calls st' = (calls st + k)%nat ∧
    length (tokens st') = length (tokens st) ∧
    (∀ j, (j < a ∨ a + k <= j)%nat → tokens st' !! j = tokens st !! j) ∧
    length statuses = k ∧
    (∀ i t', (i < k)%nat → tokens st' !! (a + i)%nat = Some t' →
             statuses !! i = Some (status_of (a + i) t')) ∧
    (∀ i t res, (i < k)%nat → tokens st !! (a + i)%nat = Some t →
                rate_limit_api net (calls st + i) (a + i) = Some res →
                debug_fields_present res = true →
                tokens st' !! (a + i)%nat = Some (after_success res t)).
Proof.
  induction k as [|k IH]; intros a st Hlen.
  - exists [], st. split; [reflexivity|]. simpl. rewrite app_nil_r.
    repeat split; auto; try lia; intros; lia.
  - destruct (lookup_lt_is_Some_2 (tokens st) a) as [t Ht]; [lia|].
    destruct (updateRateLimits_effect a st t Ht) as (o & st1 & t1 & Hu & Htok & Htr & Hc & Hok).
    assert (Hlen1 : length (tokens st1) = length (tokens st))
      by (rewrite Htok; apply length_insert).
    assert (Ht1 : tokens st1 !! a = Some t1).
    { rewrite Htok. apply list_lookup_insert_eq. eapply lookup_lt_Some; eauto. }
    destruct (IH (S a) st1) as
      (statuses & st' & Hp & Htr' & Hc' & Hlen' & Hout & Hsl & Hst & Hres);
      [lia|].
    exists (status_of a t1 :: statuses), st'.
    split; [|split; [|split; [|split; [|split; [|split; [|split]]]]]].
    + change (probe_each net (seq a (S k))) with
        (bind (updateRateLimits net a) (λ _,
           bind get (λ st,
             match tokens st !! a with
             | None => throw (TypeError "isHealthy")
             | Some token =>
                 bind (probe_each net (seq (S a) k)) (λ statuses,
                   ret (status_of a token :: statuses))
             end))).
      rewrite (bind_ok _ _ _ _ _ Hu), (bind_ok get _ st1 st1 st1) by reflexivity.
      rewrite Ht1, (bind_ok _ _ _ _ _ Hp). reflexivity.
    + rewrite Htr', Htr, <- app_assoc. reflexivity.
    + lia.
    + lia.
    + intros j Hj. rewrite Hout by lia. rewrite Htok.
      apply list_lookup_insert_ne. lia.
    + simpl. lia.
    + intros [|i] t' Hi Ht'.
      * rewrite !Nat.add_0_r in Ht' |- *. rewrite Hout in Ht' by lia.
        rewrite Ht1 in Ht'. injection Ht' as ->. reflexivity.
      * simpl. replace (a + S i)%nat with (S a + i)%nat in * by lia.
        apply Hst; [lia|exact Ht'].
    + intros [|i] t0 res Hi Ht0 Hr Hd.
      * replace (calls st + 0)%nat with (calls st) in Hr by lia.
        replace (a + 0)%nat with a in Ht0, Hr |- * by lia.
        rewrite Hout by lia. rewrite Ht1.
        rewrite Ht in Ht0. injection Ht0 as ->. f_equal.
        apply (Hok res Hr Hd).
      * replace (a + S i)%nat with (S a + i)%nat in * by lia.
        apply (Hres i t0 res); [lia| |rewrite Hc; rewrite <- Hr; f_equal; lia|exact Hd].
        rewrite Htok, list_lookup_insert_ne by lia. exact Ht0.
Qed.

End Pool.

(** X21. The health report probes every token, the retired ones as well:
    [getHealthStatus] never rejects; it sends one probe per token, in index
    order; its report has one entry per token, which shows the token as the
    call leaves it; and a token whose probe is answered with the three logged
    buckets is in service afterwards, with no errors counted and the fresh
    limits, whatever its state was. *)
Theorem health_report_probes_every_token net st :
  ∃ statuses st',
    getHealthStatus net st = (Ok statuses, st') ∧
    trace st' = trace st ++ (EvProbe <$> seq 0 (length (tokens st))) ∧
    length (tokens st') = length (tokens st) ∧
    length statuses = length (tokens st) ∧
    (∀ i t', tokens st' !! i = Some t' → statuses !! i = Some (status_of i t')) ∧
    (∀ i t res, tokens st !! i = Some t →
                rate_limit_api net (calls st + i) i = Some res →
                debug_fields_present res = true →
                tokens st' !! i = Some (after_success res t)).
Proof.
  destruct (probe_each_spec net (length (tokens st)) 0 st)
    as (statuses & st' & Hp & Htr & Hc & Hlen & Hout & Hsl & Hst & Hres); [lia|].
  eexists statuses, _. unfold getHealthStatus. cbv zeta. rewrite Hp.
  split; [reflexivity|]. simpl.
  split; [exact Htr|]. split; [exact Hlen|]. split; [exact Hsl|]. split.
  - intros i t' Ht'. apply (Hst i t'); [|exact Ht'].
    apply lookup_lt_Some in Ht'. lia.
  - intros i t res Ht Hr Hd. apply (Hres i t res); auto.
    apply lookup_lt_Some in Ht. lia.
Qed.

End HealthCheckFacts.


(** ** What a request costs *)

Module RequestCostFacts.
Import Js JsFacts HoareFacts TokenManager TokenManagerFacts ExecuteFacts.
Import HealthCheckFacts.

Section Pool.
Context (net : Net).

Lemma wait_for_reset_pool_token apiType st sel st' :
  wait_for_reset net apiType st = (Ok sel, st') →
  is_Some (tokens st' !! tokenId sel).
Proof.
  unfold wait_for_reset. rewrite (bind_ok get _ st st st) by reflexivity.
  destruct (resetTimes apiType st) as [|soonest rest]; [discriminate|].
  intros H. apply bind_inv in H as [([] & st1 & Hs & H)|[(e & _ & ?)|[_ ?]]];
    try discriminate.
  apply bind_inv in H as [(o & st2 & Hu & H)|[(e & _ & ?)|[_ ?]]]; try discriminate.
  rewrite (bind_ok get _ st2 st2 st2) in H by reflexivity.
  apply bind_inv in H as [([] & st3 & Hm & H)|[(e & _ & ?)|[_ ?]]]; try discriminate.
  unfold modify in Hm. inversion Hm; subst st3; clear Hm.
  rewrite (bind_ok get _ _ _ _ eq_refl) in H.
  destruct (tokens _ !! fst soonest) as [t|] eqn:Ht; [|discriminate].
  simpl in H. destruct (bucket _ _); inversion H; subst. simpl. eauto.
Qed.

(** The token [getBestToken] returns is one of the pool. *)
Lemma getBestToken_pool_token apiType st sel st' :
  getBestToken net apiType st = (Ok sel, st') →
  is_Some (tokens st' !! tokenId sel).
Proof.
  unfold getBestToken. destruct (rotationLock st); [discriminate|].
  unfold finally.
  destruct (bind _ _ (set_rotationLock true st)) as [r st1] eqn:Hb.
  intros H; inversion H; subst r st'; clear H.
  change (tokens (set_rotationLock false st1)) with (tokens st1).
  apply bind_inv in Hb as [(found & st2 & Hs & H)|[(e & _ & ?)|[_ ?]]];
    try discriminate.
  destruct found as [s|].
  - inversion H; subst s st2.
    destruct (scan_spec _ _ _ _ _ _ Hs) as [_ (t & rl & Ht & _)]. eauto.
  - eapply wait_for_reset_pool_token; eauto.
Qed.

End Pool.

(** X22. A request that succeeds costs a second upstream call: when the
    token is selected and [requestFn] fulfils, [execute] returns its result
    at the first attempt, and between the selection and the return it has
    made exactly the request and one probe of the token that served it. *)
Theorem execute_success_costs_one_probe net {A} (requestFn : nat → nat → Res A)
    apiType st sel st1 a :
  tokens st ≠ [] →
  getBestToken net apiType st = (Ok sel, st1) →
  requestFn (calls st1) (tokenId sel) = Ok a →
  ∃ st', execute net requestFn apiType st = (Ok a, st') ∧
         trace st' = trace st1 ++ [EvRequest (tokenId sel); EvProbe (tokenId sel)] ∧
         calls st' = S (S (calls st1)).
Proof.
  intros Hne Hg Hr.
  destruct (getBestToken_pool_token net _ _ _ _ Hg) as [t Ht].
  destruct (updateRateLimits_effect net (tokenId sel)
              (upstream_call (EvRequest (tokenId sel)) net st1) t Ht)
    as (o & st' & t' & Hu & _ & Htr & Hc & _).
  exists st'. split; [|split].
  - unfold execute. destruct (tokens st) as [|t0 l]; [congruence|]. simpl length.
    simpl attempts. unfold try_catch, attempt_body.
    rewrite (bind_ok _ _ _ _ _ Hg).
    assert (Hcall : call_requestFn net requestFn (tokenId sel) st1
                    = (Ok a, upstream_call (EvRequest (tokenId sel)) net st1))
      by (unfold call_requestFn; rewrite Hr; reflexivity).
    rewrite (bind_ok _ _ _ _ _ Hcall), (bind_ok _ _ _ _ _ Hu). reflexivity.
  - rewrite Htr. simpl. rewrite <- app_assoc. reflexivity.
  - rewrite Hc. reflexivity.
Qed.

Lemma execute_success_costs_one_probe_witness :
  ∃ st', execute ServiceExamples.net_up (λ _ _, Ok 7) core PoolExamples.two_fresh
           = (Ok 7, st') ∧
         trace st' = [EvRequest 0; EvProbe 0] ∧ calls st' = 2%nat.
Proof.
  apply (execute_success_costs_one_probe ServiceExamples.net_up (λ _ _, Ok 7) core
           PoolExamples.two_fresh (mkSelection 0 10)
           (snd (getBestToken ServiceExamples.net_up core PoolExamples.two_fresh)) 7).
  - discriminate.
  - vm_compute. reflexivity.
  - reflexivity.
Defined.

End RequestCostFacts.

(** ** Developers that are already stored *)

Module KnownDeveloperFacts.
Import Js JsFacts HoareFacts GitHubService DatabaseService Config.
Import DeveloperActivityWorker StorageFacts.

Section Worker.
Context (env : Env) (G : TokenManager.State).

Local Abbreviation same_service := (λ st : State, githubService st = G).

Lemma dbs_same_service {A} (m : M DB A) : preserves same_service (dbs m).
Proof. apply preserves_lift_frame. auto. Qed.

(** A lookup keeps finding a developer that is stored. *)
Lemma getDeveloper_finds login (found : DeveloperRow) :
  hoare (λ st, same_service st ∧
               head (filter (λ x, username (dev x) = login)
                            (developers (dbService st))) = Some found)
        (dbs (getDeveloper (db_error env) login))
        (λ r st, same_service st ∧ ∀ o, r = Ok o → o = Some found).
Proof.
  intros st r st' [HG Hf] E. unfold dbs, lift in E.
  destruct (getDeveloper _ _ (dbService st)) as [r0 db'] eqn:Es.
  injection E as <- <-. split; [exact HG|].
  intros o ->. apply statement_ok_inv in Es. simpl in Es.
  injection Es as <- _. exact Hf.
Qed.

End Worker.

(** X23. A developer that is already stored is not fetched again: when
    the developers table has a row for the contributor's login,
    [processContributor] makes no upstream call and does not touch the
    token pool, whatever happens in the database. *)
Theorem known_developer_is_not_fetched env contribution repositoryId referenceTime
    login found st r st' :
  truthy (author contribution) = Some login →
  head (filter (λ x, username (dev x) = login) (developers (dbService st))) = Some found →
  processContributor env contribution repositoryId referenceTime st = (r, st') →
  githubService st' = githubService st.
Proof.
  intros Hlogin Hfound E.
  assert (H : hoare (λ x, githubService x = githubService st ∧
                          head (filter (λ y, username (dev y) = login)
                                       (developers (dbService x))) = Some found)
                (processContributor env contribution repositoryId referenceTime)
                (λ _ x, githubService x = githubService st)).
  { unfold processContributor. rewrite Hlogin. cbv zeta.
    destruct (bool_decide _); [apply hoare_ret; tauto|].
    eapply hoare_bind; [apply getDeveloper_finds| | |]; cbv beta.
    - intros developer st0 r0 st0' [HG Hd] E0.
      rewrite (Hd developer eq_refl) in E0.
      rewrite (bind_ok (ret (Some (Some found))) _ st0 (Some (Some found)) st0 eq_refl) in E0.
      rewrite (bind_ok (ret (Some found)) _ st0 (Some found) st0 eq_refl) in E0.
      revert E0. generalize st0 r0 st0' HG. clear.
      change (preserves (λ x, githubService x = githubService st)
                (if bool_decide (0 < length
                      (map (λ activity, mkActivityData (c activity) (a activity)
                              (d activity) (w activity) (dev_id found) repositoryId)
                           (recent_activities referenceTime (weeks contribution))))%nat
                 then try_catch
                        (dbs (bulkCreateActivities (db_error env)
                           (map (λ activity, mkActivityData (c activity) (a activity)
                                   (d activity) (w activity) (dev_id found) repositoryId)
                                (recent_activities referenceTime (weeks contribution)))))
                        (λ _, ret tt)
                 else ret tt)).
      destruct (bool_decide _); [|apply preserves_ret].
      apply preserves_try_catch; [apply dbs_same_service|intros; apply preserves_ret].
    - intros e x [HG _]. exact HG.
    - intros x [HG _]. exact HG. }
  exact (H st r st' (conj eq_refl Hfound) E).
Qed.

Lemma known_developer_is_not_fetched_witness :
  let env := ServiceExamples.env_of ActivityExamples.alice_contributes in
  let st1 := snd (processBatch env 5 [ServiceExamples.gone_repo]
                    ServiceExamples.activity_worker) in
  let contribution := mkContribution (Some "alice") ServiceExamples.alice_weeks in
  githubService (snd (processContributor env contribution 1 0 st1)) = githubService st1.
Proof.
  intros env st1 contribution.
  apply (known_developer_is_not_fetched env contribution 1 0 "alice"
           (mkDeveloperRow 1 (mkDeveloperData "alice" (Some "Alice")
                                (Some "https://github.com/alice") None (Some "Oslo") None))
           st1 (fst (processContributor env contribution 1 0 st1))).
  - reflexivity.
  - vm_compute. reflexivity.
  - destruct (processContributor env contribution 1 0 st1). reflexivity.
Defined.

End KnownDeveloperFacts.
